(** * SparseDispatcher (layers/Pathformer_EncDec.py)

    A shallow embedding of the mixture-of-experts dispatcher: the
    constructor, [dispatch], [combine] and [expert_to_gates], together
    with the tensor kernels of torch they call, and the properties of
    the routing bookkeeping proved about them.  The order that the sort of
    torch gives to equal keys is left open.  Of the layers of the same
    file it also holds [moving_avg] and the constructor of
    [Intra_Patch_Attention]. *)

From Stdlib Require Import List Arith PeanoNat Bool Lia Sorted Permutation.
From Stdlib Require Import ZArith QArith Qpower Qreals Reals Lra Floats.
Import ListNotations.

Set Implicit Arguments.
Local Open Scope nat_scope.

(** ** Scalars

    The element type of the gate matrix and of the expert outputs is a
    floating type of torch.  The bookkeeping only tests entries against
    zero ([torch.nonzero], [gates > 0], [combined == 0]); [combine]
    also adds, multiplies, exponentiates and takes logarithms. *)

Class ZeroTest (F : Type) := {
  fzero : F;
  feq0 : F -> bool;   (* x == 0 *)
  fgt0 : F -> bool    (* x > 0  *)
}.

Class FloatOps (F : Type) := {
  fadd : F -> F -> F;
  fmul : F -> F -> F;
  fexp : F -> F;
  flog : F -> F;
  feps : F            (* np.finfo(float).eps *)
}.

(** [x >= 0], read as [x == 0 or x > 0]. *)
Definition fge0 {F} `{ZeroTest F} (x : F) : bool := feq0 x || fgt0 x.

(** The one fact about the comparisons the proofs rely on: a positive number
    is not zero.  It holds of the floating types too. *)
Class ZeroTestLaws (F : Type) `{ZeroTest F} : Prop := {
  fgt0_neq0 : forall x : F, fgt0 x = true -> feq0 x = false
}.
Arguments ZeroTestLaws F {_}.

(** np.finfo(float).eps: Python's float is IEEE binary64, whose machine
    epsilon is 2^-52. *)
Definition finfo_float_eps : Q := 1 # (2 ^ 52).

(** Rationals: an executable instance of the comparisons. *)
#[export] Instance Q_ZeroTest : ZeroTest Q := {
  fzero := 0%Q;
  feq0 q := Qeq_bool q 0;
  fgt0 q := negb (Qle_bool q 0)
}.

(** Real numbers: the idealised arithmetic of the floating types. *)
Definition Req0 (x : R) : bool := if Req_dec_T x 0%R then true else false.
Definition Rgt0 (x : R) : bool := if Rlt_dec 0%R x then true else false.

#[export] Instance R_ZeroTest : ZeroTest R := {
  fzero := 0%R;
  feq0 := Req0;
  fgt0 := Rgt0
}.

#[export] Instance R_FloatOps : FloatOps R := {
  fadd := Rplus;
  fmul := Rmult;
  fexp := Rtrigo_def.exp;
  flog := ln;
  feps := Q2R finfo_float_eps
}.

(** IEEE binary64, the [float] of Python and the [float64] of torch: the
    comparisons, the sum and the product are those of the format.  The
    exponential and the logarithm are those of the platform's library.
    (The accumulator of [combine] is a float32 tensor, whose range is
    smaller.) *)
#[export] Instance binary64_ZeroTest : ZeroTest float := {
  fzero := 0%float;
  feq0 x := (x =? 0)%float;
  fgt0 x := (0 <? x)%float
}.

Definition binary64_FloatOps (exp log : float -> float) : FloatOps float := {|
  fadd := PrimFloat.add;
  fmul := PrimFloat.mul;
  fexp := exp;
  flog := log;
  feps := 0x1p-52%float
|}.

(** ** Exceptions *)

Inductive exn : Type :=
| IndexOutOfRange      (* tensor[index], tuple[-1] on an empty tuple *)
| DimOutOfRange        (* squeeze(dim), size(dim) *)
| SplitSizes           (* split: the sizes do not add up to the dimension *)
| CatEmpty             (* cat of an empty sequence *)
| CatShapes            (* cat: ranks or trailing sizes differ *)
| EinsumShapes         (* einsum: wrong rank or sizes not broadcastable *)
| IndexAddShapes       (* index_add: index count or trailing sizes differ *)
| UnpackCount.         (* a, b = seq with len(seq) != 2 *)

Inductive result (A : Type) : Type :=
| Ok (a : A)
| Raise (e : exn).
Arguments Ok {A} a.
Arguments Raise {A} e.

Definition rbind {A B} (r : result A) (k : A -> result B) : result B :=
  match r with
  | Ok a => k a
  | Raise e => Raise e
  end.

Fixpoint rmap {A B} (f : A -> result B) (l : list A) : result (list B) :=
  match l with
  | [] => Ok []
  | a :: l' => rbind (f a) (fun b => rbind (rmap f l') (fun bs => Ok (b :: bs)))
  end.

(** ** Tensors

    A tensor of rank at least one: its rows along the leading dimension,
    each row the row-major sequence of its [prod feat] entries, and the
    sizes [feat] of the remaining dimensions. *)

Record tensor (A : Type) : Type := mkTensor {
  feat : list nat;
  rows : list (list A)
}.

Definition prod (l : list nat) : nat := fold_right Nat.mul 1 l.

Definition size0 {A} (t : tensor A) : nat := length (rows t).
Definition dims {A} (t : tensor A) : list nat := size0 t :: feat t.
Definition ndim {A} (t : tensor A) : nat := length (dims t).

Definition tensor_wf {A} (t : tensor A) : Prop :=
  Forall (fun r => length r = prod (feat t)) (rows t).

(** [t.size(k)] *)
Definition size {A} (t : tensor A) (k : nat) : result nat :=
  match nth_error (dims t) k with
  | Some n => Ok n
  | None => Raise DimOutOfRange
  end.

(** Elementwise operations. *)
Definition tmap {A B} (f : A -> B) (t : tensor A) : tensor B :=
  mkTensor (feat t) (map (map f) (rows t)).

(** [t[idx]] for a one-dimensional index tensor: the rows picked. *)
Definition index_rows {A} (t : tensor A) (idx : list nat) : result (tensor A) :=
  rbind (rmap (fun i => match nth_error (rows t) i with
                        | Some r => Ok r
                        | None => Raise IndexOutOfRange
                        end) idx)
        (fun rs => Ok (mkTensor (feat t) rs)).

(** [t.squeeze(1)]: dimension 1 must exist; it is removed when its size is 1. *)
Definition squeeze1 {A} (t : tensor A) : result (tensor A) :=
  match feat t with
  | [] => Raise DimOutOfRange
  | 1 :: f => Ok (mkTensor f (rows t))
  | _ :: _ => Ok t
  end.

Fixpoint chunks {A} (l : list A) (sizes : list nat) : list (list A) :=
  match sizes with
  | [] => []
  | n :: sizes' => firstn n l :: chunks (skipn n l) sizes'
  end.

(** [torch.split(t, sizes, dim=0)] *)
Definition split {A} (t : tensor A) (sizes : list nat) : result (list (tensor A)) :=
  if list_sum sizes =? size0 t
  then Ok (map (mkTensor (feat t)) (chunks (rows t) sizes))
  else Raise SplitSizes.

(** ** The constructor's kernels *)

Section Gates.
Context {F : Type} `{ZeroTest F}.

(** [g[i, e]] of a matrix. *)
Definition entry (g : tensor F) (i e : nat) : F :=
  nth e (nth i (rows g) []) fzero.

(** [g.size(1)] of a matrix. *)
Definition ncols (g : tensor F) : nat := nth 0 (feat g) 0.

(** [torch.nonzero(g)] of a matrix: the coordinates [i; e] of the entries
    that are not zero, in row-major order. *)
Definition nonzero (g : tensor F) : tensor nat :=
  mkTensor [2]
    (flat_map (fun i =>
       flat_map (fun e => if feq0 (entry g i e) then [] else [[i; e]])
                (seq 0 (ncols g)))
       (seq 0 (size0 g))).

(** [t[:, c]] *)
Definition column (c : nat) (t : tensor nat) : list nat :=
  map (fun r => nth c r 0) (rows t).

(** [(g > 0).sum(0).tolist()]: the rows of the 0/1 matrix added up. *)
Definition count_positive (g : tensor F) : list nat :=
  fold_left (fun acc r => map (fun p => fst p + snd p) (combine acc r))
            (map (map (fun x => if fgt0 x then 1 else 0)) (rows g))
            (repeat 0 (ncols g)).

(** [torch.gather(t, 1, index)]: [out[n][c] = t[n][index[n][c]]]. *)
Definition gather1 (t : tensor F) (index : tensor nat) : tensor F :=
  mkTensor (feat index)
    (map (fun p => map (fun e => nth e (fst p) fzero) (snd p))
         (combine (rows t) (rows index))).

End Gates.

(** ** The sort of torch

    [t.sort(0)] sorts every column of [t] on its own; the constructor uses
    the second column of the coordinates only.  For one column [keys] torch
    returns the sorted values and, for each, the position it came from:
    [values = keys[indices]].  The call leaves [stable] at its default
    [False]: which of two equal keys comes first is not specified, and so
    neither is the order of the samples within one expert.  The positions
    are therefore a parameter of the model. *)
Class TorchSort : Type := {
  argsort : list nat -> list nat
}.

Definition sort `{TorchSort} (keys : list nat) : list nat * list nat :=
  let index := argsort keys in
  (map (fun n => nth n keys 0) index, index).

(** What torch promises of the positions: they are a rearrangement of
    [0 .. len(keys)-1], and the keys at them do not decrease. *)
Class TorchSortLaws `{TorchSort} : Prop := {
  argsort_permutation :
    forall keys, Permutation (argsort keys) (seq 0 (length keys));
  argsort_sorted :
    forall keys, StronglySorted le (map (fun n => nth n keys 0) (argsort keys))
}.

(** Two sorts that keep the promise, by insertion from the right: a key is
    put before the equal keys already placed, or ([after_equal]) after
    them.  The theorems below hold for every sort that keeps the promise;
    the two serve to run the code on concrete inputs. *)
Fixpoint insert_key (after_equal : bool) (p : nat * nat) (l : list (nat * nat))
  : list (nat * nat) :=
  match l with
  | [] => [p]
  | q :: l' =>
      if (if after_equal then fst p <? fst q else fst p <=? fst q)
      then p :: l
      else q :: insert_key after_equal p l'
  end.

Definition sort_pairs (after_equal : bool) (l : list (nat * nat)) : list (nat * nat) :=
  fold_right (insert_key after_equal) [] l.

Definition insertion_argsort (after_equal : bool) (keys : list nat) : list nat :=
  map snd (sort_pairs after_equal (combine keys (seq 0 (length keys)))).

(** Equal keys keep their order, as with [sort(stable=True)].  The runs on
    concrete inputs below are made with this sort. *)
#[export] Instance stable_sort : TorchSort := {|
  argsort := insertion_argsort false
|}.

(** Equal keys come out in reverse. *)
Definition reversing_sort : TorchSort := {|
  argsort := insertion_argsort true
|}.

(** ** The dispatcher object *)

Record SparseDispatcher (F : Type) : Type := mkSparseDispatcher {
  _gates : tensor F;
  _num_experts : nat;
  _expert_index : tensor nat;      (* [N, 1] *)
  _batch_index : list nat;         (* [N]    *)
  _part_sizes : list nat;          (* a Python list of length E *)
  _nonzero_gates : tensor F        (* [N, 1] *)
}.

(** A method body runs against the object [self]: it may read its
    attributes, it may raise, and it hands the object back. *)
Definition method (F A : Type) : Type :=
  SparseDispatcher F -> result A * SparseDispatcher F.

Definition ret {F A} (a : A) : method F A := fun self => (Ok a, self).

Definition bind {F A B} (m : method F A) (k : A -> method F B) : method F B :=
  fun self =>
    match m self with
    | (Ok a, self') => k a self'
    | (Raise e, self') => (Raise e, self')
    end.

(** [self.<attribute>] *)
Definition attr {F A} (f : SparseDispatcher F -> A) : method F A :=
  fun self => (Ok (f self), self).

(** A call into torch: it sees its arguments only. *)
Definition call {F A} (r : result A) : method F A := fun self => (r, self).

Definition eval {F A} (m : method F A) (self : SparseDispatcher F) : result A :=
  fst (m self).
Definition exec {F A} (m : method F A) (self : SparseDispatcher F) : SparseDispatcher F :=
  snd (m self).

(** A method that hands the object back as it received it. *)
Definition read_only {F A} (m : method F A) : Prop :=
  forall self, exec m self = self.

Declare Scope method_scope.
Delimit Scope method_scope with method.
Notation "x <- m ;; k" := (bind m (fun x => k))
  (at level 61, m at next level, right associativity) : method_scope.
Notation "'let*' x := r 'in' k" := (rbind r (fun x => k))
  (at level 61, x name, r at next level, right associativity).

Section Construction.
Context {F : Type} `{ZeroTest F} {TS : TorchSort}.

(** [SparseDispatcher.__init__] *)
Definition SparseDispatcher_init (num_experts : nat) (gates : tensor F)
  : result (SparseDispatcher F) :=
  let nz := nonzero gates in
  let (sorted_experts, index_sorted_experts) := sort (column 1 nz) in
  (* _, self._expert_index = sorted_experts.split(1, dim=1): one chunk per
     dimension of gates, two are unpacked *)
  if ndim gates =? 2 then
    let expert_index := mkTensor [1] (map (fun e => [e]) sorted_experts) in
    let* nz_sorted := index_rows nz index_sorted_experts in
    let batch_index := column 0 nz_sorted in
    let part_sizes := count_positive gates in
    let* gates_exp := index_rows gates batch_index in
    let nonzero_gates := gather1 gates_exp expert_index in
    Ok {| _gates := gates;
          _num_experts := num_experts;
          _expert_index := expert_index;
          _batch_index := batch_index;
          _part_sizes := part_sizes;
          _nonzero_gates := nonzero_gates |}
  else Raise UnpackCount.

(** [SparseDispatcher.dispatch] *)
Definition dispatch {A} (inp : tensor A) : method F (list (tensor A)) :=
  (batch_index <- attr (@_batch_index F) ;;
   inp_sel <- call (index_rows inp batch_index) ;;
   inp_exp <- call (squeeze1 inp_sel) ;;
   part_sizes <- attr (@_part_sizes F) ;;
   call (split inp_exp part_sizes))%method.

(** [SparseDispatcher.expert_to_gates] *)
Definition expert_to_gates : method F (list (tensor F)) :=
  (nonzero_gates <- attr (@_nonzero_gates F) ;;
   part_sizes <- attr (@_part_sizes F) ;;
   call (split nonzero_gates part_sizes))%method.

End Construction.

(** ** The kernels of [combine] *)

(** A one-dimensional tensor without entries, of shape [(0,)]. *)
Definition is_empty_1d {A} (t : tensor A) : bool :=
  match feat t, rows t with
  | [], [] => true
  | _, _ => false
  end.

Definition same_feat {A} (t u : tensor A) : bool :=
  if list_eq_dec Nat.eq_dec (feat t) (feat u) then true else false.

(** [torch.cat(ts, 0)]: tensors of shape [(0,)] are passed over; the others
    must agree on their rank and on every size but the leading one. *)
Definition cat {A} (ts : list (tensor A)) : result (tensor A) :=
  match ts with
  | [] => Raise CatEmpty
  | _ :: _ =>
      match filter (fun t => negb (is_empty_1d t)) ts with
      | [] => Ok (mkTensor [] [])
      | t0 :: rest =>
          if forallb (same_feat t0) rest
          then Ok (mkTensor (feat t0) (concat (map (@rows A) (t0 :: rest))))
          else Raise CatShapes
      end
  end.

(** [seq[-1]] *)
Definition last_item {A} (l : list A) : result A :=
  match rev l with
  | [] => Raise IndexOutOfRange
  | a :: _ => Ok a
  end.

(** Sizes labelled by one subscript of einsum must agree or be 1. *)
Definition broadcast (a b : nat) : option nat :=
  if a =? b then Some a
  else if a =? 1 then Some b
  else if b =? 1 then Some a
  else None.

(** [l[i] = a] *)
Fixpoint set_nth {A} (l : list A) (i : nat) (a : A) : list A :=
  match l, i with
  | [], _ => []
  | _ :: l', 0 => a :: l'
  | b :: l', S i' => b :: set_nth l' i' a
  end.

Section Kernels.
Context {F : Type} `{ZeroTest F} `{FloatOps F}.

(** [torch.einsum("ijkh,ik -> ijkh", a, g)]:
    [out[i,j,k,h] = a[i,j,k,h] * g[i,k]], a dimension of size 1 being
    repeated along its subscript. *)
Definition einsum_ijkh_ik (a g : tensor F) : result (tensor F) :=
  match feat a, feat g with
  | [J; K; Hh], [K'] =>
      match broadcast (size0 a) (size0 g), broadcast K K' with
      | Some Io, Some Ko =>
          Ok (mkTensor [J; Ko; Hh]
                (map (fun i =>
                   let ar := nth (if size0 a =? 1 then 0 else i) (rows a) [] in
                   let gr := nth (if size0 g =? 1 then 0 else i) (rows g) [] in
                   map (fun p =>
                      let j := p / (Ko * Hh) in
                      let k := (p / Hh) mod Ko in
                      let h := p mod Hh in
                      fmul (nth ((j * K + (if K =? 1 then 0 else k)) * Hh + h) ar fzero)
                           (nth (if K' =? 1 then 0 else k) gr fzero))
                     (seq 0 (J * Ko * Hh)))
                   (seq 0 Io)))
      | _, _ => Raise EinsumShapes
      end
  | _, _ => Raise EinsumShapes
  end.

(** [torch.zeros(b, s1, s2, s3)] *)
Definition zeros (b s1 s2 s3 : nat) : tensor F :=
  mkTensor [s1; s2; s3] (repeat (repeat fzero (prod [s1; s2; s3])) b).

(** Entrywise sum of two rows. *)
Definition row_add (r s : list F) : list F :=
  map (fun p => fadd (fst p) (snd p)) (combine r s).

(** The accumulation loop of [index_add]: [acc[index[n]] += source[n]] for
    [n = 0, 1, ...] in turn. *)
Definition accumulate (acc : list (list F)) (index : list nat)
                      (source : list (list F)) : list (list F) :=
  fold_left (fun acc p => set_nth acc (fst p) (row_add (nth (fst p) acc []) (snd p)))
            (combine index source) acc.

(** [t.index_add(0, index, source)]: one index per row of [source], the same
    trailing sizes, every index within [t]. *)
Definition index_add (t : tensor F) (index : list nat) (source : tensor F)
  : result (tensor F) :=
  if negb (length index =? size0 source) then Raise IndexAddShapes
  else if negb (same_feat t source) then Raise IndexAddShapes
  else if negb (forallb (fun i => i <? size0 t) index) then Raise IndexOutOfRange
  else Ok (mkTensor (feat t) (accumulate (rows t) index (rows source))).

(** [t[t == 0] = np.finfo(float).eps] *)
Definition floor_zero (x : F) : F := if feq0 x then feps else x.
Definition floor_zeros (t : tensor F) : tensor F := tmap floor_zero t.

(** [SparseDispatcher.combine] up to the accumulator [combined], before its
    zeros are replaced. *)
Definition combine_accumulate (expert_out : list (tensor F)) (multiply_by_gates : bool)
  : method F (tensor F) :=
  (stitched <- call (cat expert_out) ;;
   let stitched := tmap fexp stitched in
   stitched <- (if multiply_by_gates
                then nonzero_gates <- attr (@_nonzero_gates F) ;;
                     call (einsum_ijkh_ik stitched nonzero_gates)
                else ret stitched) ;;
   gates <- attr (@_gates F) ;;
   out_last <- call (last_item expert_out) ;;
   s1 <- call (size out_last 1) ;;
   s2 <- call (size out_last 2) ;;
   s3 <- call (size out_last 3) ;;
   let zeros := zeros (size0 gates) s1 s2 s3 in
   batch_index <- attr (@_batch_index F) ;;
   call (index_add zeros batch_index stitched))%method.

(** [SparseDispatcher.combine].  Its one write in place,
    [combined[combined == 0] = eps], goes to the tensor [index_add] has just
    returned, which no attribute refers to: here it rebinds [combined]. *)
Definition combine (expert_out : list (tensor F)) (multiply_by_gates : bool)
  : method F (tensor F) :=
  (combined <- combine_accumulate expert_out multiply_by_gates ;;
   let combined := floor_zeros combined in
   ret (tmap flog combined))%method.

End Kernels.

(** ** Calls from outside *)

Inductive invocation (F : Type) : Type :=
| CallDispatch (inp : tensor F)
| CallCombine (expert_out : list (tensor F)) (multiply_by_gates : bool)
| CallExpertToGates.
Arguments CallExpertToGates {F}.

Section Calls.
Context {F : Type} `{ZeroTest F} `{FloatOps F}.

(** One call, its result dropped; the object is what the method leaves. *)
Definition invoke (c : invocation F) : method F unit :=
  match c with
  | CallDispatch inp => (_ <- dispatch inp ;; ret tt)%method
  | CallCombine expert_out multiply_by_gates =>
      (_ <- combine expert_out multiply_by_gates ;; ret tt)%method
  | CallExpertToGates => (_ <- expert_to_gates ;; ret tt)%method
  end.

(** A sequence of calls; a raised exception is the caller's to handle and
    does not end the sequence. *)
Definition run_calls (cs : list (invocation F)) (self : SparseDispatcher F)
  : SparseDispatcher F :=
  fold_left (fun s c => exec (invoke c) s) cs self.

End Calls.

(** ** Vocabulary of the statements *)

(** The position of the first [i] in [l]. *)
Fixpoint position (i : nat) (l : list nat) : nat :=
  match l with
  | [] => 0
  | j :: l' => if j =? i then 0 else S (position i l')
  end.

Section Routing.
Context {F : Type} `{ZeroTest F} {TS : TorchSort}.

(** A [B x E] matrix. *)
Definition is_matrix (B E : nat) (g : tensor F) : Prop :=
  feat g = [E] /\ size0 g = B /\ Forall (fun r => length r = E) (rows g).

(** Every entry is [>= 0]. *)
Definition nonneg (g : tensor F) : Prop :=
  Forall (Forall (fun x => fge0 x = true)) (rows g).

(** The samples with a non-zero entry for expert [e], ascending. *)
Definition nonzero_samples (g : tensor F) (e : nat) : list nat :=
  filter (fun i => negb (feq0 (entry g i e))) (seq 0 (size0 g)).

(** The samples with a positive entry for expert [e], ascending. *)
Definition routed (g : tensor F) (e : nat) : list nat :=
  filter (fun i => fgt0 (entry g i e)) (seq 0 (size0 g)).

(** The experts with a positive entry for sample [i], ascending. *)
Definition experts_of (g : tensor F) (i : nat) : list nat :=
  filter (fun e => fgt0 (entry g i e)) (seq 0 (ncols g)).

(** The rows with a positive entry in column [e], counted. *)
Definition column_count (rws : list (list F)) (e : nat) : nat :=
  length (filter (fun r => fgt0 (nth e r fzero)) rws).

(** The coordinates [i; e] of the non-zero entries in the order the
    constructor keeps them: [torch.nonzero(gates)[index_sorted_experts]]. *)
Definition stored_coords (g : tensor F) : list (list nat) :=
  map (fun n => nth n (rows (nonzero g)) []) (argsort (column 1 (nonzero g))).

(** The samples kept for expert [e], in the order the constructor keeps
    them. *)
Definition order (g : tensor F) (e : nat) : list nat :=
  map (fun r => nth 0 r 0) (filter (fun r => nth 1 r 0 =? e) (stored_coords g)).

(** The dispatcher of a non-negative matrix with [E] columns. *)
Definition routing_state (num_experts : nat) (g : tensor F) (E : nat)
  : SparseDispatcher F :=
  {| _gates := g;
     _num_experts := num_experts;
     _expert_index :=
       mkTensor [1] (flat_map (fun e => map (fun _ => [e]) (order g e)) (seq 0 E));
     _batch_index := flat_map (order g) (seq 0 E);
     _part_sizes := map (fun e => length (order g e)) (seq 0 E);
     _nonzero_gates :=
       mkTensor [1] (flat_map (fun e => map (fun i => [entry g i e]) (order g e))
                              (seq 0 E)) |}.

(** The trailing sizes after [squeeze(1)]. *)
Definition squeezed_feat (f : list nat) : list nat :=
  match f with
  | 1 :: f' => f'
  | _ => f
  end.

(** What [dispatch] owes for the chunks it returns: one per expert; chunk [e]
    has [part_sizes[e]] rows, which are the rows of [x] at the samples with a
    positive gate for [e], each once, in the order in which the constructor
    has listed them in [_batch_index]. *)
Definition dispatch_partition {A} (B E : nat) (g : tensor F) (d : SparseDispatcher F)
    (x : tensor A) (chunks : list (tensor A)) : Prop :=
  exists samples : list (list nat),
    length chunks = E /\ length samples = E /\
    concat samples = _batch_index d /\
    forall e, e < E ->
      exists c,
        nth_error chunks e = Some c /\
        size0 c = nth e (_part_sizes d) 0 /\
        rows c = map (fun i => nth i (rows x) []) (nth e samples []) /\
        NoDup (nth e samples []) /\
        (forall i, In i (nth e samples []) <-> i < B /\ fgt0 (entry g i e) = true).

(** [dispatch(x)] on the dispatcher of [g] returns such chunks. *)
Definition dispatch_returns_partition {A} (num_experts B E : nat) (g : tensor F)
    (x : tensor A) : Prop :=
  exists d chunks,
    SparseDispatcher_init num_experts g = Ok d /\
    eval (dispatch x) d = Ok chunks /\
    dispatch_partition B E g d x chunks.

(** The position of sample [i] in the chunk of expert [e]. *)
Definition slot (g : tensor F) (e i : nat) : nat :=
  position i (order g e).

End Routing.

Section CombineVocabulary.
Context {F : Type} `{ZeroTest F} `{FloatOps F} {TS : TorchSort}.

(** The sum as [index_add] forms it: from zero, the terms added in turn. *)
Definition fsum (l : list F) : F := fold_left fadd l fzero.

(** The output of expert [e]. *)
Definition out_of (outs : list (tensor F)) (e : nat) : tensor F :=
  nth e outs (mkTensor [] []).

(** Entry [p] of row [j] of the output of expert [e]. *)
Definition out_entry (outs : list (tensor F)) (e j p : nat) : F :=
  nth p (nth j (rows (out_of outs e)) []) fzero.

(** One output per expert, of shape [part_sizes[e], J, K, H]. *)
Definition expert_outputs_wf (g : tensor F) (E J K Hh : nat)
    (outs : list (tensor F)) : Prop :=
  length outs = E /\
  Forall (fun o => feat o = [J; K; Hh] /\ tensor_wf o) outs /\
  forall e, e < E -> size0 (out_of outs e) = length (routed g e).

(** The weighted term of expert [e] for entry [p] of sample [i], as the
    [einsum] forms it: [exp(out_e_i) * G[i,e]], where [out_e_i] is the row of
    the output of [e] at the position of [i] in the chunk of [e]. *)
Definition gate_term (g : tensor F) (outs : list (tensor F)) (i p e : nat) : F :=
  fmul (fexp (out_entry outs e (slot g e i) p)) (entry g i e).

(** [combine(outs, multiply_by_gates=True)] on the dispatcher of [g] returns a
    [B x J x K x H] tensor whose entry [p] for sample [i] is the logarithm of
    the floored sum of the weighted terms of the experts of [i], added to
    zero in turn; with two experts [a] and [b] it is the logarithm of the
    floored [0 + exp(out_a_i) * w_a + exp(out_b_i) * w_b]. *)
Definition combine_is_log_sum (num_experts B J K Hh : nat) (g : tensor F)
    (outs : list (tensor F)) : Prop :=
  exists d r,
    SparseDispatcher_init num_experts g = Ok d /\
    eval (combine outs true) d = Ok r /\
    feat r = [J; K; Hh] /\ size0 r = B /\
    (forall i p, i < B -> p < J * K * Hh ->
       nth p (nth i (rows r) []) fzero
       = flog (floor_zero (fsum (map (gate_term g outs i p) (experts_of g i))))) /\
    (forall i p a b, i < B -> p < J * K * Hh -> experts_of g i = [a; b] ->
       nth p (nth i (rows r) []) fzero
       = flog (floor_zero (fadd (fadd fzero (gate_term g outs i p a))
                                      (gate_term g outs i p b)))) /\
    (* the row [slot g e i] of the chunk of [e] is the one of sample [i] *)
    (forall (x : tensor F) i e,
       size0 x = B -> feat x <> [] -> i < B -> In e (experts_of g i) ->
       exists chunks c,
         eval (dispatch x) d = Ok chunks /\
         nth_error chunks e = Some c /\
         nth_error (rows c) (slot g e i) = Some (nth i (rows x) [])).

End CombineVocabulary.

(** ** Floating formats, for the value that replaces a zero

    A binary format with [precision] significant bits whose least exponent
    (that of the subnormal numbers) is [emin] represents the numbers
    [m * 2^e] with [|m| < 2^precision] and [e >= emin]. *)

Record float_format : Type := mkFormat {
  precision : Z;
  emin : Z
}.

Definition binary32 : float_format := mkFormat 24 (-149).
Definition binary64 : float_format := mkFormat 53 (-1074).

Definition representable (fmt : float_format) (q : Q) : Prop :=
  exists m e : Z,
    (Z.abs m < 2 ^ precision fmt)%Z /\ (emin fmt <= e)%Z /\
    (q == inject_Z m * 2 ^ e)%Q.

(** The smallest positive number of the format, and the smallest normal one. *)
Definition smallest_positive (fmt : float_format) : Q := (2 ^ emin fmt)%Q.
Definition smallest_normal (fmt : float_format) : Q :=
  (2 ^ (emin fmt + precision fmt - 1))%Q.

(** The distance from 1 to the next number of the format. *)
Definition machine_epsilon (fmt : float_format) : Q := (2 ^ (1 - precision fmt))%Q.

(** What the specification says of the floor: a zero entry of the accumulator
    becomes the smallest positive number of the format [fmt]. *)
Definition floors_to_smallest_positive (fmt : float_format) : Prop :=
  forall (acc : tensor R) (i p : nat),
    p < length (nth i (rows acc) []) ->
    nth p (nth i (rows acc) []) 0%R = 0%R ->
    nth p (nth i (rows (floor_zeros acc)) []) 0%R = Q2R (smallest_positive fmt).

(** What the specification says of the ranks: [combine] returns only when
    every expert output has four dimensions. *)
Definition combine_only_on_rank_4 : Prop :=
  forall (d : SparseDispatcher R) (outs : list (tensor R)) (flag : bool) (r : tensor R),
    eval (combine outs flag) d = Ok r -> Forall (fun t => ndim t = 4) outs.

(** [dispatch(x)] returns chunks with the trailing sizes of [x]. *)
Definition dispatch_keeps_feat {F A} `{ZeroTest F} {TS : TorchSort}
    (num_experts : nat) (g : tensor F)
    (x : tensor A) : Prop :=
  exists d chunks,
    SparseDispatcher_init num_experts g = Ok d /\
    eval (dispatch x) d = Ok chunks /\
    Forall (fun c => feat c = feat x) chunks.

(** Every entry is a finite number of binary64: no NaN, no infinity. *)
Definition all_finite (t : tensor float) : Prop :=
  Forall (Forall (fun x => is_finite x = true)) (rows t).

(** What the specification says of the values: for finite gates and finite
    outputs, whatever [combine] returns is a [B x J x K x H] tensor of finite
    entries.  [exp] and [log] are the exponential and the logarithm in
    use. *)
Definition combine_returns_finite (exp log : float -> float) : Prop :=
  forall (TS : TorchSort) (num_experts B E J K Hh : nat) (g : tensor float)
         (outs : list (tensor float)) (d : SparseDispatcher float) (r : tensor float),
    TorchSortLaws ->
    is_matrix B E g -> nonneg g -> all_finite g ->
    expert_outputs_wf g E J K Hh outs -> Forall all_finite outs ->
    SparseDispatcher_init num_experts g = Ok d ->
    eval (@combine float _ (binary64_FloatOps exp log) outs true) d = Ok r ->
    size0 r = B /\ feat r = [J; K; Hh] /\ all_finite r.

(** What [combine] does guarantee of its values: the result is a
    [B x J x K x H] tensor, every entry of it is the logarithm of a number
    that is not zero, and the entries of a sample no expert receives are
    [log(eps)]. *)
Definition combine_takes_log_of_nonzero {F} `{ZeroTest F} `{FloatOps F} {TS : TorchSort}
    (num_experts B J K Hh : nat) (g : tensor F) (outs : list (tensor F)) : Prop :=
  exists d r,
    SparseDispatcher_init num_experts g = Ok d /\
    eval (combine outs true) d = Ok r /\
    feat r = [J; K; Hh] /\ size0 r = B /\
    Forall (fun row => length row = J * K * Hh) (rows r) /\
    (forall i p, i < B -> p < J * K * Hh ->
       exists v, nth p (nth i (rows r) []) fzero = flog v /\ feq0 v = false) /\
    (forall i p, i < B -> p < J * K * Hh -> experts_of g i = [] ->
       nth p (nth i (rows r) []) fzero = flog feps).

(** ** Concrete inputs

    The scenario of the specification: four samples, two experts. *)

Definition scenario_gates : tensor Q :=
  mkTensor [2] [[1; 0]; [0; 1]; [1; 1]; [0; 0]]%Q.

(** The sample numbers as a [4 x 1] input. *)
Definition scenario_ids : tensor nat :=
  mkTensor [1] [[0]; [1]; [2]; [3]].

(** A one-dimensional input of four entries. *)
Definition flat_input : tensor nat :=
  mkTensor [] [[10]; [20]; [30]; [40]].

(** A [4 x 1 x 2] input. *)
Definition thin_input : tensor nat :=
  mkTensor [1; 2] [[10; 11]; [20; 21]; [30; 31]; [40; 41]].

(** A [4 x 2] input. *)
Definition wide_input : tensor nat :=
  mkTensor [2] [[10; 11]; [20; 21]; [30; 31]; [40; 41]].

(** The scenario over the real numbers, each expert returning a [n x 1 x 1 x 1]
    tensor of zeros (the logarithm of 1). *)
Definition real_gates : tensor R :=
  mkTensor [2] [[1; 0]; [0; 1]; [1; 1]; [0; 0]]%R.

Definition real_outputs : list (tensor R) :=
  [mkTensor [1; 1; 1] [[0%R]; [0%R]]; mkTensor [1; 1; 1] [[0%R]; [0%R]]].

(** Two samples, both routed to expert 0; expert 1 receives nothing and
    returns an empty [0 x 1 x 1 x 1] tensor. *)
Definition idle_gates : tensor R := mkTensor [2] [[1; 0]; [1; 0]]%R.

Definition idle_input : tensor nat := mkTensor [2] [[10; 11]; [20; 21]].

Definition idle_outputs : list (tensor R) :=
  [mkTensor [1; 1; 1] [[0%R]; [0%R]]; mkTensor [1; 1; 1] []].

(** One sample, routed to expert 1 only; expert 0 returns a one-dimensional
    empty tensor, expert 1 a [1 x 1 x 1 x 1] tensor. *)
Definition skip_gates : tensor R := mkTensor [2] [[0; 1]]%R.

Definition skip_outputs : list (tensor R) :=
  [mkTensor [] []; mkTensor [1; 1; 1] [[0%R]]].

(** Outputs of rank 3 for the scenario over the real numbers. *)
Definition flat_outputs : list (tensor R) :=
  [mkTensor [1; 1] [[0%R]; [0%R]]; mkTensor [1; 1] [[0%R]; [0%R]]].

(** A [2 x 0] gate matrix: two samples, no expert. *)
Definition no_expert_gates : tensor R := mkTensor [0] [[]; []].

(** A [1 x 1 x 1 x 1] accumulator holding a zero. *)
Definition zero_accumulator : tensor R := mkTensor [1; 1; 1] [[0%R]].

(** ** Vocabulary of the further statements *)

Section Shares.
Context {F : Type} `{ZeroTest F} `{FloatOps F} {TS : TorchSort}.

(** What the entry [x] of the output of expert [e] for sample [i] adds to the
    accumulator: [exp(x)], times the gate when [multiply_by_gates] is set. *)
Definition share (multiply_by_gates : bool) (g : tensor F) (e i : nat) (x : F) : F :=
  if multiply_by_gates then fmul (fexp x) (entry g i e) else fexp x.

(** The row that expert [e] contributes to sample [i]. *)
Definition shared_row (multiply_by_gates : bool) (g : tensor F)
    (outs : list (tensor F)) (e i : nat) : list F :=
  map (share multiply_by_gates g e i) (nth (slot g e i) (rows (out_of outs e)) []).

(** The rows [index_add] receives, expert by expert. *)
Definition shared_rows (multiply_by_gates : bool) (g : tensor F) (E : nat)
    (outs : list (tensor F)) : list (list F) :=
  flat_map (fun e => map (shared_row multiply_by_gates g outs e) (order g e)) (seq 0 E).

End Shares.

(** ** Further concrete inputs *)

(** A [9 x 2] gate matrix of ones: eighteen gates that are not zero. *)
Definition full_gates : tensor Q := mkTensor [2] (repeat [1; 1]%Q 9).

(** The sample numbers as a [9 x 1] input. *)
Definition nine_ids : tensor nat := mkTensor [1] (map (fun i => [i]) (seq 0 9)).

(** The largest finite number of binary64. *)
Definition largest_finite : float := 0x1.fffffffffffffp1023%float.

(** One sample, sent to both experts with the largest finite gate; each
    expert returns a [1 x 1 x 1 x 1] tensor holding a zero. *)
Definition huge_gates : tensor float :=
  mkTensor [2] [[largest_finite; largest_finite]].

Definition unit_outputs : list (tensor float) :=
  [mkTensor [1; 1; 1] [[0%float]]; mkTensor [1; 1; 1] [[0%float]]].

(** A gate matrix with a negative entry. *)
Definition signed_gates : tensor Q := mkTensor [2] [[1; -1]; [0; 1]]%Q.

(** The first three sample numbers as a [3 x 1] input. *)
Definition short_ids : tensor nat := mkTensor [1] [[0]; [1]; [2]].

(** A [4 x 2 x 1 x 1] input of zeros for the scenario over the real numbers. *)
Definition real_input : tensor R :=
  mkTensor [2; 1; 1] [[0; 0]; [0; 0]; [0; 0]; [0; 0]]%R.

(** A [4 x 1 x 1 x 1] input of zeros. *)
Definition thin_real_input : tensor R :=
  mkTensor [1; 1; 1] [[0%R]; [0%R]; [0%R]; [0%R]].

(** The rows of [real_outputs] in one tensor. *)
Definition merged_outputs : list (tensor R) :=
  [mkTensor [1; 1; 1] [[0%R]; [0%R]; [0%R]; [0%R]]].

(** ** The layers: exceptions and tensor kernels

    The exceptions of the layers, by the class of the Python exception. *)

Inductive error : Type :=
| IndexError       (* more indices than the tensor has dimensions; dim out of range *)
| RuntimeError     (* a shape or argument check of torch *)
| HeadsError.      (* Exception('Hidden size is not divisible by the number of
                      attention heads') *)

Inductive outcome (A : Type) : Type :=
| Returns (a : A)
| Raises (e : error).
Arguments Returns {A} a.
Arguments Raises {A} e.

Definition obind {A B} (r : outcome A) (k : A -> outcome B) : outcome B :=
  match r with
  | Returns a => k a
  | Raises e => Raises e
  end.

Notation "x <-- r ;; k" := (obind r (fun x => k))
  (at level 61, r at next level, right associativity).

(** The position a Python slice bound [i] denotes in a sequence of [n] items:
    a negative bound counts from the end, and bounds are clipped to [0, n]. *)
Definition clip (n : nat) (i : Z) : nat :=
  if (i <? 0)%Z then Z.to_nat (Z.max 0 (i + Z.of_nat n))
  else Nat.min (Z.to_nat i) n.

(** [t[:, start:stop, :]]: the steps [start, stop) of dimension 1; [stop] may
    be left out.  The three indices need a tensor of three dimensions or more. *)
Definition slice1 {A} (t : tensor A) (start : Z) (stop : option Z)
  : outcome (tensor A) :=
  match feat t with
  | L :: (_ :: _) as inner =>
      let lo := clip L start in
      let hi := match stop with Some s => clip L s | None => L end in
      let n := hi - lo in
      Returns (mkTensor (n :: inner)
                 (map (fun r => firstn (n * prod inner) (skipn (lo * prod inner) r))
                      (rows t)))
  | _ => Raises IndexError
  end.

(** [t.repeat(1, n, 1)]: [n] copies along dimension 1.  A tensor of fewer than
    three dimensions gets leading dimensions of size 1 first; one of more
    than three is refused, and so is a negative [n]. *)
Definition repeat1 {A} (t : tensor A) (n : Z) : outcome (tensor A) :=
  if (n <? 0)%Z then Raises RuntimeError
  else
    match feat t with
    | [] => Returns (mkTensor [Z.to_nat n; size0 t]
                       [concat (repeat (concat (rows t)) (Z.to_nat n))])
    | [D] => Returns (mkTensor [Z.to_nat n * size0 t; D]
                        [concat (repeat (concat (rows t)) (Z.to_nat n))])
    | [L; D] => Returns (mkTensor [Z.to_nat n * L; D]
                           (map (fun r => concat (repeat r (Z.to_nat n))) (rows t)))
    | _ => Raises RuntimeError
    end.

(** [torch.cat(ts, dim=1)]: tensors of shape [(0,)] are passed over; the
    others must agree on every size but that of dimension 1. *)
Definition cat1 {A} (ts : list (tensor A)) : outcome (tensor A) :=
  match ts with
  | [] => Raises RuntimeError
  | _ :: _ =>
      match filter (fun t => negb (is_empty_1d t)) ts with
      | [] => Returns (mkTensor [] [])
      | t0 :: rest =>
          match feat t0 with
          | [] => Raises IndexError
          | _ :: inner =>
              if forallb (fun t => (size0 t =? size0 t0) &&
                                   match feat t with
                                   | [] => false
                                   | _ :: inner' =>
                                       if list_eq_dec Nat.eq_dec inner' inner
                                       then true else false
                                   end) rest
              then Returns
                     (mkTensor (list_sum (map (fun t => hd 0 (feat t)) (t0 :: rest))
                                :: inner)
                        (map (fun b => concat (map (fun t => nth b (rows t) [])
                                                   (t0 :: rest)))
                             (seq 0 (size0 t0))))
              else Raises RuntimeError
          end
      end
  end.

(** Division of a sum by the number of its terms. *)
Class MeanOps (F : Type) := {
  fdivn : F -> nat -> F
}.

#[export] Instance R_MeanOps : MeanOps R := {
  fdivn x n := (x / INR n)%R
}.

Section Pooling.
Context {F : Type} `{ZeroTest F} `{FloatOps F} `{MeanOps F}.

(** [t.permute(0, 2, 1)] of a tensor of three dimensions. *)
Definition permute_021 (t : tensor F) : outcome (tensor F) :=
  match feat t with
  | [L; D] =>
      Returns (mkTensor [D; L]
                 (map (fun r =>
                    flat_map (fun d => map (fun l => nth (l * D + d) r fzero) (seq 0 L))
                             (seq 0 D))
                    (rows t)))
  | _ => Raises RuntimeError
  end.

(** [nn.AvgPool1d(kernel_size, stride, padding=0)]: the module. *)
Record AvgPool1d : Type := mkAvgPool1d {
  pool_kernel_size : Z;
  pool_stride : Z
}.

(** The mean of the window of [k] entries of [r] that starts at [start]: the
    entries are added in turn from zero and the sum is divided by [k]. *)
Definition window_mean (r : list F) (start k : nat) : F :=
  fdivn (fsum (map (fun j => nth (start + j) r fzero) (seq 0 k))) k.

(** The output of the pooling for one sample of [C] channels and [Lin] steps. *)
Definition pool_row (C Lin k s : nat) (r : list F) : list F :=
  flat_map (fun c => map (fun t => window_mean r (c * Lin + t * s) k)
                         (seq 0 ((Lin - k) / s + 1)))
           (seq 0 C).

(** [AvgPool1d.forward]: on [B x C x Lin] (or [C x Lin]) the mean of every
    window of [kernel_size] steps, the windows [stride] apart;
    [(Lin - kernel_size) // stride + 1] of them fit.  Kernel size and stride
    must be positive, there must be a channel and a step, and one window must
    fit; a batch without samples is accepted. *)
Definition AvgPool1d_forward (self : AvgPool1d) (t : tensor F) : outcome (tensor F) :=
  let k := Z.to_nat (pool_kernel_size self) in
  let s := Z.to_nat (pool_stride self) in
  if (pool_kernel_size self <=? 0)%Z || (pool_stride self <=? 0)%Z
  then Raises RuntimeError
  else
    match feat t with
    | [Lin] =>
        if (size0 t =? 0) || (Lin <? k) then Raises RuntimeError
        else Returns (mkTensor [(Lin - k) / s + 1] (map (pool_row 1 Lin k s) (rows t)))
    | [C; Lin] =>
        if (C =? 0) || (Lin <? k) then Raises RuntimeError
        else Returns (mkTensor [C; (Lin - k) / s + 1] (map (pool_row C Lin k s) (rows t)))
    | _ => Raises RuntimeError
    end.

(** ** moving_avg *)

Record moving_avg : Type := mk_moving_avg {
  kernel_size : Z;
  avg : AvgPool1d
}.

(** [moving_avg.__init__] *)
Definition moving_avg_init (kernel_size stride : Z) : moving_avg :=
  {| kernel_size := kernel_size;
     avg := mkAvgPool1d kernel_size stride |}.

(** [moving_avg.forward] *)
Definition moving_avg_forward (self : moving_avg) (x : tensor F) : outcome (tensor F) :=
  let half := ((kernel_size self - 1) / 2)%Z in      (* math.floor((k - 1) // 2) *)
  first <-- slice1 x 0 (Some 1%Z) ;;
  front <-- repeat1 first (kernel_size self - 1 - half) ;;
  last <-- slice1 x (-1) None ;;
  end_ <-- repeat1 last half ;;
  x <-- cat1 [front; x; end_] ;;
  x <-- permute_021 x ;;
  x <-- AvgPool1d_forward (avg self) x ;;
  permute_021 x.

(** The copies of the first and of the last step that [forward] puts before
    and after the series. *)
Definition front_copies (k : Z) : nat := Z.to_nat (k - 1 - (k - 1) / 2).
Definition end_copies (k : Z) : nat := Z.to_nat ((k - 1) / 2).

(** The step of a series of [L] steps that step [u] of the padded series
    repeats. *)
Definition padded_step (k : Z) (L u : nat) : nat :=
  Nat.min (u - front_copies k) (L - 1).

(** A row of the series with its first step repeated in front and its last
    step repeated behind. *)
Definition padded_row (k : Z) (L D : nat) (r : list F) : list F :=
  concat (repeat (firstn (Nat.min 1 L * D) r) (front_copies k))
  ++ r
  ++ concat (repeat (firstn (Nat.min 1 L * D) (skipn ((L - 1) * D) r)) (end_copies k)).

(** A row of what [forward] returns on a series of [L] steps and [D]
    channels: the padded row, its dimensions exchanged, pooled, and its
    dimensions exchanged back. *)
Definition averaged_row (k s : Z) (L D : nat) (r : list F) : list F :=
  let Lin := front_copies k + L + end_copies k in
  let Lout := (L - 1) / Z.to_nat s + 1 in
  flat_map (fun t =>
    map (fun c =>
           nth (c * Lout + t)
               (pool_row D Lin (Z.to_nat k) (Z.to_nat s)
                  (flat_map (fun d =>
                     map (fun l => nth (l * D + d) (padded_row k L D r) fzero)
                         (seq 0 Lin))
                     (seq 0 D)))
               fzero)
        (seq 0 D))
    (seq 0 Lout).

End Pooling.


(** ** Intra_Patch_Attention: the constructor *)

Record CustomLinear : Type := mkCustomLinear {
  factorized : bool
}.

(** [CustomLinear.__init__] *)
Definition CustomLinear_init (factorized : bool) : CustomLinear :=
  {| factorized := factorized |}.

Record Intra_Patch_Attention : Type := mkIntra_Patch_Attention {
  head : Z;
  head_size : Z;
  custom_linear : CustomLinear
}.

(** [Intra_Patch_Attention.__init__]; [%] and [//] of Python round towards
    minus infinity, as [mod] and [/] of [Z] do for a positive divisor. *)
Definition Intra_Patch_Attention_init (d_model : Z) (factorized : bool)
  : outcome Intra_Patch_Attention :=
  let head := 2%Z in
  if negb (d_model mod head =? 0)%Z then Raises HeadsError
  else Returns {| head := head;
                  head_size := (d_model / head)%Z;
                  custom_linear := CustomLinear_init factorized |}.

(** A series of three steps and one channel, over the real numbers. *)
Definition real_series : tensor R := mkTensor [3; 1] [[1; 2; 3]]%R.

(** A series of three steps and two channels, the first of them constant. *)
Definition level_series : tensor R := mkTensor [3; 2] [[2; 1; 2; 5; 2; 7]]%R.

(** ** Lists, results and chunks *)

Lemma rmap_nth_error_ok {A} (l : list A) (d : A) (e : exn) (idx : list nat) :
  Forall (fun i => i < length l) idx ->
  rmap (fun i => match nth_error l i with Some r => Ok r | None => Raise e end) idx
  = Ok (map (fun i => nth i l d) idx).
Proof.
  induction 1 as [|i idx Hi _ IH]; simpl; [reflexivity|].
  destruct (nth_error l i) as [r|] eqn:Hn.
  - simpl. rewrite IH. simpl. now rewrite (nth_error_nth _ _ d Hn).
  - apply nth_error_None in Hn. lia.
Qed.

Lemma index_rows_ok {A} (t : tensor A) (idx : list nat) :
  Forall (fun i => i < size0 t) idx ->
  index_rows t idx = Ok (mkTensor (feat t) (map (fun i => nth i (rows t) []) idx)).
Proof.
  intros Hidx. unfold index_rows.
  now rewrite (rmap_nth_error_ok (rows t) [] IndexOutOfRange Hidx).
Qed.

Lemma chunks_concat {A} (ls : list (list A)) :
  chunks (concat ls) (map (@length A) ls) = ls.
Proof.
  induction ls as [|l ls IH]; simpl; [reflexivity|].
  rewrite firstn_app, Nat.sub_diag, firstn_all, skipn_app, Nat.sub_diag, skipn_all.
  simpl. now rewrite app_nil_r, IH.
Qed.

Lemma list_sum_lengths {A} (ls : list (list A)) :
  list_sum (map (@length A) ls) = length (concat ls).
Proof.
  induction ls as [|l ls IH]; simpl; [reflexivity|].
  now rewrite length_app, IH.
Qed.

Lemma split_concat {A} (f : list nat) (ls : list (list (list A))) :
  split (mkTensor f (concat ls)) (map (@length _) ls) = Ok (map (mkTensor f) ls).
Proof.
  unfold split, size0. simpl.
  rewrite list_sum_lengths, Nat.eqb_refl. now rewrite chunks_concat.
Qed.

Lemma flat_map_nil {A B} (l : list A) :
  flat_map (fun _ : A => @nil B) l = [].
Proof. induction l; simpl; auto. Qed.

Lemma flat_map_ext_in {A B} (f g : A -> list B) (l : list A) :
  (forall a, In a l -> f a = g a) -> flat_map f l = flat_map g l.
Proof.
  induction l as [|a l IH]; simpl; intros Hfg; [reflexivity|].
  rewrite Hfg by now left. rewrite IH; [reflexivity|]. intros; apply Hfg; now right.
Qed.

Lemma filter_flat_map {A B} (p : B -> bool) (f : A -> list B) (l : list A) :
  filter p (flat_map f l) = flat_map (fun a => filter p (f a)) l.
Proof.
  induction l as [|a l IH]; simpl; [reflexivity|].
  now rewrite filter_app, IH.
Qed.

Lemma map_flat_map {A B C} (g : B -> C) (f : A -> list B) (l : list A) :
  map g (flat_map f l) = flat_map (fun a => map g (f a)) l.
Proof.
  induction l as [|a l IH]; simpl; [reflexivity|].
  now rewrite map_app, IH.
Qed.

(** ** Positions and the rows they point at *)

Lemma map_nth_seq {A} (l : list A) (d : A) :
  map (fun i => nth i l d) (seq 0 (length l)) = l.
Proof.
  induction l as [|a l IH]; simpl; [reflexivity|].
  f_equal. rewrite <- seq_shift, map_map. exact IH.
Qed.

Lemma combine_map_map {A B C} (f : A -> B) (g : A -> C) (l : list A) :
  List.combine (map f l) (map g l) = map (fun a => (f a, g a)) l.
Proof. induction l; simpl; congruence. Qed.

Lemma combine_keys_seq {A} (g : A -> nat) (l : list A) (d : A) :
  List.combine (map g l) (seq 0 (length l))
  = map (fun n => (g (nth n l d), n)) (seq 0 (length l)).
Proof.
  rewrite <- (map_nth_seq l d) at 1. rewrite map_map.
  rewrite <- (map_id (seq 0 (length l))) at 2.
  apply combine_map_map.
Qed.

Lemma flat_map_if_singleton {A B} (p : A -> bool) (f : A -> B) (l : list A) :
  flat_map (fun a => if p a then [f a] else []) l = map f (filter p l).
Proof.
  induction l as [|a l IH]; simpl; [reflexivity|].
  rewrite IH. now destruct (p a).
Qed.

Lemma flat_map_select {B} (f : nat -> list B) (e a n : nat) :
  a <= e < a + n ->
  flat_map (fun e' => if e' =? e then f e' else []) (seq a n) = f e.
Proof.
  revert a. induction n as [|n IH]; intros a He; [lia|]. simpl.
  destruct (Nat.eqb_spec a e) as [->|Hne].
  - rewrite (flat_map_ext_in (fun e' => if e' =? e then f e' else []) (fun _ => [])).
    + now rewrite flat_map_nil, app_nil_r.
    + intros e' He'. apply in_seq in He'.
      destruct (Nat.eqb_spec e' e); [lia | reflexivity].
  - simpl. apply IH. lia.
Qed.

(** ** The insertion sorts keep the promise of the sort *)

Lemma insert_key_permutation (s : bool) (p : nat * nat) (l : list (nat * nat)) :
  Permutation (insert_key s p l) (p :: l).
Proof.
  induction l as [|q l IH]; simpl; [reflexivity|].
  destruct (if s then fst p <? fst q else fst p <=? fst q); [reflexivity|].
  rewrite IH. apply perm_swap.
Qed.

Lemma sort_pairs_permutation (s : bool) (l : list (nat * nat)) :
  Permutation (sort_pairs s l) l.
Proof.
  induction l as [|p l IH]; simpl; [constructor|].
  rewrite insert_key_permutation. now constructor.
Qed.

Lemma insert_key_sorted (s : bool) (p : nat * nat) (l : list (nat * nat)) :
  StronglySorted (fun a b => fst a <= fst b) l ->
  StronglySorted (fun a b => fst a <= fst b) (insert_key s p l).
Proof.
  induction 1 as [|q l Hs IH Hq]; simpl; [repeat constructor|].
  destruct (if s then fst p <? fst q else fst p <=? fst q) eqn:Hc.
  - assert (Hpq : fst p <= fst q).
    { destruct s; [apply Nat.ltb_lt in Hc; lia | now apply Nat.leb_le in Hc]. }
    constructor; [now constructor|]. constructor; [exact Hpq|].
    eapply Forall_impl; [|exact Hq]. simpl. intros; lia.
  - assert (Hqp : fst q <= fst p).
    { destruct s; [apply Nat.ltb_ge in Hc; lia | apply Nat.leb_gt in Hc; lia]. }
    constructor; [exact IH|].
    eapply Permutation_Forall; [symmetry; apply insert_key_permutation|].
    now constructor.
Qed.

Lemma sort_pairs_sorted (s : bool) (l : list (nat * nat)) :
  StronglySorted (fun a b => fst a <= fst b) (sort_pairs s l).
Proof. induction l; simpl; [constructor | now apply insert_key_sorted]. Qed.

Lemma sorted_map {A} (f : A -> nat) (l : list A) :
  StronglySorted (fun a b => f a <= f b) l -> StronglySorted le (map f l).
Proof.
  induction 1; simpl; constructor; [assumption|]. now rewrite Forall_map.
Qed.

Lemma insertion_argsort_laws (s : bool) :
  @TorchSortLaws {| argsort := insertion_argsort s |}.
Proof.
  constructor; intros keys; simpl; unfold insertion_argsort;
    pose proof (combine_keys_seq (fun k : nat => k) keys 0) as Hc;
    rewrite map_id in Hc.
  - eapply perm_trans; [apply Permutation_map, sort_pairs_permutation|].
    rewrite Hc, map_map. simpl. now rewrite map_id.
  - assert (Hk : Forall (fun p => fst p = nth (snd p) keys 0)
                   (sort_pairs s (List.combine keys (seq 0 (length keys))))).
    { eapply Permutation_Forall; [symmetry; apply sort_pairs_permutation|].
      rewrite Hc, Forall_map. apply Forall_forall. intros; reflexivity. }
    rewrite map_map.
    rewrite (map_ext_in _ fst).
    + apply sorted_map, sort_pairs_sorted.
    + intros p Hp. rewrite Forall_forall in Hk. symmetry. now apply Hk.
Qed.

#[export] Instance stable_sort_laws : @TorchSortLaws stable_sort :=
  insertion_argsort_laws false.

Lemma reversing_sort_laws : @TorchSortLaws reversing_sort.
Proof. exact (insertion_argsort_laws true). Qed.

(** ** Lists sorted by a key *)

Lemma filter_permutation {A} (p : A -> bool) (l l' : list A) :
  Permutation l l' -> Permutation (filter p l) (filter p l').
Proof.
  induction 1 as [|x l l' _ IH|x y l|l l' l'' _ IH1 _ IH2]; simpl.
  - constructor.
  - destruct (p x); [now constructor | exact IH].
  - destruct (p x), (p y); try reflexivity. apply perm_swap.
  - now transitivity (filter p l').
Qed.

Lemma filter_all {A} (f : A -> bool) (l : list A) :
  (forall a, In a l -> f a = true) -> filter f l = l.
Proof.
  induction l as [|a l IH]; simpl; intros Hf; [reflexivity|].
  rewrite Hf by now left. f_equal. apply IH. intros; apply Hf; now right.
Qed.

Lemma filter_none {A} (f : A -> bool) (l : list A) :
  (forall a, In a l -> f a = false) -> filter f l = [].
Proof.
  induction l as [|a l IH]; simpl; intros Hf; [reflexivity|].
  rewrite Hf by now left. apply IH. intros; apply Hf; now right.
Qed.

Lemma filter_within {A} (p q : A -> bool) (l : list A) :
  (forall x, p x = true -> q x = true) -> filter p (filter q l) = filter p l.
Proof.
  intros Hpq. induction l as [|x l IH]; simpl; [reflexivity|].
  destruct (q x) eqn:Hq; simpl; [now rewrite IH|].
  destruct (p x) eqn:Hp; [|exact IH]. rewrite (Hpq x Hp) in Hq. discriminate.
Qed.

Lemma sorted_filter {A} (key : A -> nat) (p : A -> bool) (l : list A) :
  StronglySorted le (map key l) -> StronglySorted le (map key (filter p l)).
Proof.
  induction l as [|x l IH]; simpl; intros Hs; [constructor|].
  inversion Hs as [|? ? Hs' Hx]; subst.
  destruct (p x); simpl; [|now apply IH].
  constructor; [now apply IH|].
  rewrite Forall_map in *. apply Forall_forall. intros y Hy.
  apply filter_In in Hy. rewrite Forall_forall in Hx. now apply Hx.
Qed.

(** The least key comes first. *)
Lemma sorted_least {A} (key : A -> nat) (a : nat) (l : list A) :
  StronglySorted le (map key l) -> Forall (fun x => a <= key x) l ->
  l = filter (fun x => key x =? a) l ++ filter (fun x => a <? key x) l.
Proof.
  induction l as [|x l IH]; simpl; intros Hs Hb; [reflexivity|].
  inversion Hs as [|? ? Hs' Hx]; subst. inversion Hb as [|? ? Hxa Hb']; subst.
  destruct (Nat.eqb_spec (key x) a) as [Heq|Hne].
  - assert (Hlt : (a <? key x) = false) by (apply Nat.ltb_ge; lia).
    rewrite Hlt. simpl. f_equal. now apply IH.
  - assert (Hlt : (a <? key x) = true) by (apply Nat.ltb_lt; lia).
    rewrite Hlt. rewrite Forall_map in Hx.
    rewrite Forall_forall in Hx.
    rewrite filter_none, filter_all; [reflexivity| |].
    + intros y Hy. apply Nat.ltb_lt. specialize (Hx y Hy). lia.
    + intros y Hy. apply Nat.eqb_neq. specialize (Hx y Hy). lia.
Qed.

(** A list sorted by its keys is its groups by key, one after the other. *)
Lemma sorted_keys_grouped {A} (key : A -> nat) (n a : nat) (l : list A) :
  StronglySorted le (map key l) -> Forall (fun x => a <= key x < a + n) l ->
  l = flat_map (fun k => filter (fun x => key x =? k) l) (seq a n).
Proof.
  revert a l. induction n as [|n IH]; intros a l Hs Hb; simpl.
  - destruct l as [|x l]; [reflexivity|]. inversion Hb; subst. lia.
  - etransitivity.
    { apply (@sorted_least _ key a l Hs).
      eapply Forall_impl; [|exact Hb]. simpl. intros; lia. }
    f_equal.
    etransitivity.
    { apply (IH (S a) (filter (fun x => a <? key x) l)).
      - now apply sorted_filter.
      - apply Forall_forall. intros x Hx. apply filter_In in Hx.
        destruct Hx as [Hx Hlt]. apply Nat.ltb_lt in Hlt.
        rewrite Forall_forall in Hb. specialize (Hb x Hx). lia. }
    apply flat_map_ext_in. intros k Hk. apply in_seq in Hk.
    apply filter_within. intros x Hx. apply Nat.eqb_eq in Hx. apply Nat.ltb_lt. lia.
Qed.

(** ** Positions in a list without repetition *)

Lemma position_nth_error (i : nat) (l : list nat) :
  In i l -> nth_error l (position i l) = Some i.
Proof.
  induction l as [|j l IH]; simpl; [tauto|]. intros Hin.
  destruct (Nat.eqb_spec j i) as [->|Hne]; [reflexivity|]. simpl.
  apply IH. destruct Hin; [contradiction | assumption].
Qed.

Lemma rows_by_position {X} (d : X) (l : list nat) (rs : list X) :
  NoDup l -> length rs = length l ->
  rs = map (fun i => nth (position i l) rs d) l.
Proof.
  intros Hnd. revert rs.
  induction Hnd as [|j l Hj Hnd IH]; intros [|r rs] Hl; simpl in *;
    try discriminate; [reflexivity|].
  rewrite Nat.eqb_refl. f_equal.
  etransitivity; [apply (IH rs); lia|].
  apply map_ext_in. intros i Hi.
  destruct (Nat.eqb_spec j i) as [->|Hne]; [contradiction | reflexivity].
Qed.

Lemma filter_eqb_in (i : nat) (l : list nat) :
  NoDup l -> In i l -> filter (fun j => j =? i) l = [i].
Proof.
  induction 1 as [|j l Hj Hnd IH]; simpl; [tauto|]. intros Hin.
  destruct (Nat.eqb_spec j i) as [->|Hne].
  - f_equal. apply filter_none. intros k Hk.
    apply Nat.eqb_neq. intros ->. contradiction.
  - apply IH. destruct Hin; [contradiction | assumption].
Qed.

Lemma filter_eqb_out (i : nat) (l : list nat) :
  ~ In i l -> filter (fun j => j =? i) l = [].
Proof.
  intros Hout. apply filter_none. intros k Hk.
  apply Nat.eqb_neq. intros ->. contradiction.
Qed.

Lemma map_all_equal {A B} (f : A -> B) (c : B) (l : list A) :
  (forall a, In a l -> f a = c) -> map f l = repeat c (length l).
Proof.
  induction l as [|a l IH]; simpl; intros Hf; [reflexivity|].
  rewrite Hf by now left. f_equal. apply IH. intros; apply Hf; now right.
Qed.

Lemma nth_map_seq {T} (f : nat -> T) (d : T) (e E : nat) :
  e < E -> nth e (map f (seq 0 E)) d = f e.
Proof.
  intros He. rewrite (nth_indep _ d (f 0)) by now rewrite length_map, length_seq.
  now rewrite (map_nth f), seq_nth.
Qed.

Lemma nth_error_map_seq {T} (f : nat -> T) (e E : nat) :
  e < E -> nth_error (map f (seq 0 E)) e = Some (f e).
Proof.
  intros He. rewrite nth_error_map, nth_error_seq.
  destruct (Nat.ltb_spec e E); [reflexivity | lia].
Qed.

(** ** The constructor in closed form *)

Section InitSpec.
Context {F : Type} `{ZeroTest F} {TS : TorchSort} {TSL : TorchSortLaws}.

Lemma is_matrix_ncols B E (g : tensor F) : is_matrix B E g -> ncols g = E.
Proof. intros [Hf _]. unfold ncols. now rewrite Hf. Qed.

Lemma filter_nonzero_rows (g : tensor F) (e : nat) :
  e < ncols g ->
  filter (fun r => nth 1 r 0 =? e) (rows (nonzero g))
  = map (fun i => [i; e]) (nonzero_samples g e).
Proof.
  intros He. unfold nonzero, nonzero_samples. simpl rows.
  rewrite filter_flat_map.
  rewrite (flat_map_ext_in _
             (fun i => if negb (feq0 (entry g i e)) then [[i; e]] else [])).
  - apply flat_map_if_singleton.
  - intros i _. rewrite filter_flat_map.
    rewrite (flat_map_ext_in _
               (fun e' => if e' =? e
                          then (if negb (feq0 (entry g i e')) then [[i; e']] else [])
                          else [])).
    + now rewrite (flat_map_select
                     (fun e' => if negb (feq0 (entry g i e')) then [[i; e']] else [])) by lia.
    + intros e' _. destruct (feq0 (entry g i e')); simpl;
        destruct (Nat.eqb_spec e' e); reflexivity.
Qed.

(** The rows of [torch.nonzero(g)] are the coordinates of the entries that
    are not zero. *)
Lemma nonzero_In (g : tensor F) (r : list nat) :
  In r (rows (nonzero g)) <->
  exists i e, r = [i; e] /\ i < size0 g /\ e < ncols g /\ feq0 (entry g i e) = false.
Proof.
  unfold nonzero. simpl rows. rewrite in_flat_map. split.
  - intros [i [Hi Hr]]. apply in_flat_map in Hr. destruct Hr as [e [He Hr]].
    apply in_seq in Hi. apply in_seq in He.
    destruct (feq0 (entry g i e)) eqn:Hz; [contradiction|].
    destruct Hr as [<-|[]]. exists i, e. repeat split; [lia | lia | exact Hz].
  - intros [i [e [-> [Hi [He Hz]]]]]. exists i. split; [apply in_seq; lia|].
    apply in_flat_map. exists e. split; [apply in_seq; lia|].
    rewrite Hz. now left.
Qed.

Lemma nonzero_keys_bound (g : tensor F) :
  Forall (fun r => nth 1 r 0 < ncols g) (rows (nonzero g)).
Proof.
  apply Forall_forall. intros r Hr. apply nonzero_In in Hr.
  destruct Hr as [i [e [-> [_ [He _]]]]]. exact He.
Qed.

Lemma nonzero_sample_bound (g : tensor F) :
  Forall (fun r => nth 0 r 0 < size0 g) (rows (nonzero g)).
Proof.
  apply Forall_forall. intros r Hr. apply nonzero_In in Hr.
  destruct Hr as [i [e [-> [Hi _]]]]. exact Hi.
Qed.

(** The positions the sort returns are positions of its argument. *)
Lemma argsort_bound (keys : list nat) :
  Forall (fun n => n < length keys) (argsort keys).
Proof.
  apply Forall_forall. intros n Hn.
  apply (Permutation_in _ (argsort_permutation keys)) in Hn.
  apply in_seq in Hn. lia.
Qed.

(** The constructor keeps the coordinates of the entries that are not zero,
    each once, rearranged. *)
Lemma stored_permutation (g : tensor F) :
  Permutation (stored_coords g) (rows (nonzero g)).
Proof.
  unfold stored_coords.
  eapply perm_trans; [apply Permutation_map, argsort_permutation|].
  unfold column. now rewrite length_map, map_nth_seq.
Qed.

Lemma sorted_values (g : tensor F) :
  map (fun n => nth n (column 1 (nonzero g)) 0) (argsort (column 1 (nonzero g)))
  = map (fun r => nth 1 r 0) (stored_coords g).
Proof.
  unfold stored_coords. rewrite map_map. apply map_ext. intros n.
  unfold column.
  exact (map_nth (fun r : list nat => nth 1 r 0) (rows (nonzero g)) [] n).
Qed.

(** They are sorted by expert. *)
Lemma stored_keys_sorted (g : tensor F) :
  StronglySorted le (map (fun r => nth 1 r 0) (stored_coords g)).
Proof. rewrite <- sorted_values. apply argsort_sorted. Qed.

Lemma stored_In (g : tensor F) (r : list nat) :
  In r (stored_coords g) <-> In r (rows (nonzero g)).
Proof.
  split; apply Permutation_in; [|symmetry]; apply stored_permutation.
Qed.

Lemma stored_sample_bound (g : tensor F) :
  Forall (fun r => nth 0 r 0 < size0 g) (stored_coords g).
Proof.
  eapply Permutation_Forall; [symmetry; apply stored_permutation|].
  apply nonzero_sample_bound.
Qed.

Lemma stored_of_expert (g : tensor F) (e : nat) :
  filter (fun r => nth 1 r 0 =? e) (stored_coords g)
  = map (fun i => [i; e]) (order g e).
Proof.
  unfold order. rewrite map_map. symmetry.
  etransitivity; [|apply map_id]. apply map_ext_in. intros r Hr.
  apply filter_In in Hr. destruct Hr as [Hr He]. apply Nat.eqb_eq in He.
  apply stored_In, nonzero_In in Hr. destruct Hr as [i [e' [-> _]]].
  simpl in *. now subst.
Qed.

(** Expert by expert, in the order of the experts. *)
Lemma stored_grouped (g : tensor F) :
  stored_coords g
  = flat_map (fun e => map (fun i => [i; e]) (order g e)) (seq 0 (ncols g)).
Proof.
  etransitivity.
  - apply (@sorted_keys_grouped _ (fun r => nth 1 r 0) (ncols g) 0).
    + apply stored_keys_sorted.
    + eapply Permutation_Forall; [symmetry; apply stored_permutation|].
      eapply Forall_impl; [|apply nonzero_keys_bound]. simpl. intros; lia.
  - apply flat_map_ext_in. intros e _. apply stored_of_expert.
Qed.

(** What [__init__] stores, for a matrix. *)
Lemma init_closed_form (num_experts : nat) (g : tensor F) :
  ndim g = 2 ->
  SparseDispatcher_init num_experts g
  = Ok {| _gates := g;
          _num_experts := num_experts;
          _expert_index :=
            mkTensor [1] (map (fun r => [nth 1 r 0]) (stored_coords g));
          _batch_index := map (fun r => nth 0 r 0) (stored_coords g);
          _part_sizes := count_positive g;
          _nonzero_gates :=
            mkTensor [1]
              (map (fun r => [entry g (nth 0 r 0) (nth 1 r 0)]) (stored_coords g)) |}.
Proof.
  intros Hnd. unfold SparseDispatcher_init, sort.
  rewrite Hnd. simpl Nat.eqb. cbv iota.
  rewrite index_rows_ok.
  2:{ replace (size0 (nonzero g)) with (length (column 1 (nonzero g)))
        by (unfold column, size0; now rewrite length_map).
      apply argsort_bound. }
  unfold rbind. rewrite sorted_values, map_map.
  fold (stored_coords g).
  unfold column at 1. simpl rows.
  rewrite index_rows_ok.
  - unfold gather1, column. simpl.
    rewrite !map_map, combine_map_map, map_map. reflexivity.
  - rewrite Forall_map. apply stored_sample_bound.
Qed.

(** The samples kept for an expert are those with an entry that is not zero,
    each once. *)
Lemma order_nonzero (g : tensor F) (e : nat) :
  e < ncols g -> Permutation (order g e) (nonzero_samples g e).
Proof.
  intros He. unfold order.
  eapply perm_trans.
  - apply Permutation_map, filter_permutation, stored_permutation.
  - rewrite (filter_nonzero_rows g He), map_map. simpl. now rewrite map_id.
Qed.

Lemma order_bound (g : tensor F) (e : nat) :
  Forall (fun i => i < size0 g) (order g e).
Proof.
  unfold order. rewrite Forall_map. apply Forall_forall. intros r Hr.
  apply filter_In in Hr. destruct Hr as [Hr _]. revert r Hr.
  apply Forall_forall, stored_sample_bound.
Qed.

End InitSpec.

(** ** Partition sizes *)

Section PartSizes.
Context {F : Type} `{ZeroTest F}.

Lemma sum_rows_fold (E : nat) (rws : list (list F)) (f : nat -> nat) :
  Forall (fun r => length r = E) rws ->
  fold_left (fun acc r => map (fun p => fst p + snd p) (List.combine acc r))
            (map (map (fun x => if fgt0 x then 1 else 0)) rws)
            (map f (seq 0 E))
  = map (fun e => f e + column_count rws e) (seq 0 E).
Proof.
  intros Hw. revert f. induction Hw as [|r rws Hr _ IH]; intros f; simpl.
  - apply map_ext. intros e. unfold column_count. simpl. lia.
  - rewrite <- (map_nth_seq r fzero) at 1. rewrite Hr, map_map.
    rewrite combine_map_map, map_map. simpl.
    rewrite IH. apply map_ext. intros e. unfold column_count. simpl.
    destruct (fgt0 (nth e r fzero)); simpl; lia.
Qed.

Lemma column_count_routed (g : tensor F) (e : nat) :
  column_count (rows g) e = length (routed g e).
Proof.
  unfold column_count, routed, entry, size0.
  rewrite <- (map_nth_seq (rows g) []) at 1.
  rewrite filter_map_swap. now rewrite length_map.
Qed.

Lemma count_positive_spec B E (g : tensor F) :
  is_matrix B E g ->
  count_positive g = map (fun e => length (routed g e)) (seq 0 E).
Proof.
  intros Hm. pose proof (is_matrix_ncols Hm) as Hc.
  destruct Hm as [_ [_ Hw]]. unfold count_positive. rewrite Hc.
  replace (repeat 0 E) with (map (fun _ : nat => 0) (seq 0 E)).
  - rewrite (sum_rows_fold _ Hw). apply map_ext. intros e.
    now rewrite column_count_routed.
  - clear. generalize 0 at 2. induction E as [|E IH]; intros a; simpl; [reflexivity|].
    now rewrite IH.
Qed.

Lemma list_sum_map_add {A} (f g : A -> nat) (l : list A) :
  list_sum (map (fun a => f a + g a) l) = list_sum (map f l) + list_sum (map g l).
Proof. induction l as [|a l IH]; simpl; lia. Qed.

Lemma list_sum_indicator (r : list F) :
  list_sum (map (fun x => if fgt0 x then 1 else 0) r) = length (filter fgt0 r).
Proof.
  induction r as [|x r IH]; simpl; [reflexivity|].
  destruct (fgt0 x); simpl; lia.
Qed.

Lemma column_counts_total (E : nat) (rws : list (list F)) :
  Forall (fun r => length r = E) rws ->
  list_sum (map (column_count rws) (seq 0 E)) = length (filter fgt0 (concat rws)).
Proof.
  induction 1 as [|r rws Hr _ IH]; simpl.
  - unfold column_count. simpl. induction (seq 0 E); simpl; auto.
  - rewrite filter_app, length_app, <- IH, <- list_sum_indicator.
    rewrite <- (map_nth_seq r fzero) at 2. rewrite Hr, map_map.
    rewrite <- list_sum_map_add. f_equal. apply map_ext. intros e.
    unfold column_count. simpl. destruct (fgt0 (nth e r fzero)); simpl; lia.
Qed.

Lemma count_positive_total B E (g : tensor F) :
  is_matrix B E g ->
  list_sum (count_positive g) = length (filter fgt0 (concat (rows g))).
Proof.
  intros Hm. rewrite (count_positive_spec Hm).
  destruct Hm as [_ [_ Hw]]. rewrite <- (column_counts_total Hw).
  f_equal. apply map_ext. intros e. now rewrite column_count_routed.
Qed.

Lemma entry_in (B E : nat) (g : tensor F) (i e : nat) :
  is_matrix B E g -> i < B -> e < E ->
  exists r, In r (rows g) /\ In (entry g i e) r.
Proof.
  intros [_ [Hb Hw]] Hi He. unfold size0 in Hb.
  exists (nth i (rows g) []). split.
  - apply nth_In. lia.
  - unfold entry. apply nth_In.
    rewrite Forall_forall in Hw. rewrite Hw; [lia|]. apply nth_In. lia.
Qed.

Lemma nonneg_routed {L : ZeroTestLaws F} B E (g : tensor F) (e : nat) :
  is_matrix B E g -> nonneg g -> e < E ->
  nonzero_samples g e = routed g e.
Proof.
  intros Hm Hn He. unfold nonzero_samples, routed.
  apply filter_ext_in. intros i Hi. apply in_seq in Hi.
  assert (Hi' : i < B) by (destruct Hm as [_ [Hb _]]; lia).
  destruct (entry_in Hm Hi' He) as [r [Hr Hx]].
  unfold nonneg in Hn. rewrite Forall_forall in Hn.
  specialize (Hn r Hr). rewrite Forall_forall in Hn. specialize (Hn _ Hx).
  unfold fge0 in Hn. destruct (fgt0 (entry g i e)) eqn:Hg.
  - now rewrite (fgt0_neq0 _ Hg).
  - rewrite orb_false_r in Hn. now rewrite Hn.
Qed.

End PartSizes.

(** ** Routing of a non-negative matrix *)

Section RoutingSpec.
Context {F : Type} `{ZeroTest F} {L : ZeroTestLaws F}
        {TS : TorchSort} {TSL : TorchSortLaws}.

Lemma is_matrix_ndim B E (g : tensor F) : is_matrix B E g -> ndim g = 2.
Proof. intros [Hf _]. unfold ndim, dims. now rewrite Hf. Qed.

Lemma routed_In (g : tensor F) (e i : nat) :
  In i (routed g e) <-> i < size0 g /\ fgt0 (entry g i e) = true.
Proof.
  unfold routed. rewrite filter_In, in_seq. intuition lia.
Qed.

Lemma routed_NoDup (g : tensor F) (e : nat) : NoDup (routed g e).
Proof. apply NoDup_filter, seq_NoDup. Qed.

(** For a non-negative matrix the samples kept for an expert are those with
    a positive gate, each once. *)
Lemma order_routed B E (g : tensor F) (e : nat) :
  is_matrix B E g -> nonneg g -> e < E ->
  Permutation (order g e) (routed g e).
Proof.
  intros Hm Hn He. rewrite <- (nonneg_routed Hm Hn He).
  apply order_nonzero. now rewrite (is_matrix_ncols Hm).
Qed.

Lemma order_NoDup B E (g : tensor F) (e : nat) :
  is_matrix B E g -> nonneg g -> e < E -> NoDup (order g e).
Proof.
  intros Hm Hn He.
  eapply Permutation_NoDup; [symmetry; apply (order_routed Hm Hn He)|].
  apply routed_NoDup.
Qed.

Lemma order_In B E (g : tensor F) (e i : nat) :
  is_matrix B E g -> nonneg g -> e < E ->
  In i (order g e) <-> i < B /\ fgt0 (entry g i e) = true.
Proof.
  intros Hm Hn He.
  assert (Hb : size0 g = B) by (destruct Hm as [_ [Hb _]]; exact Hb).
  rewrite <- Hb, <- routed_In. split; apply Permutation_in;
    [|symmetry]; apply (order_routed Hm Hn He).
Qed.

Lemma order_length B E (g : tensor F) (e : nat) :
  is_matrix B E g -> nonneg g -> e < E ->
  length (order g e) = length (routed g e).
Proof. intros Hm Hn He. apply Permutation_length, (order_routed Hm Hn He). Qed.

Lemma order_of_none B E (g : tensor F) (e : nat) :
  is_matrix B E g -> nonneg g -> e < E ->
  routed g e = [] -> order g e = [].
Proof.
  intros Hm Hn He Hr. apply Permutation_nil. symmetry.
  rewrite <- Hr. exact (order_routed Hm Hn He).
Qed.

Lemma order_of_one B E (g : tensor F) (e i : nat) :
  is_matrix B E g -> nonneg g -> e < E ->
  routed g e = [i] -> order g e = [i].
Proof.
  intros Hm Hn He Hr. apply Permutation_length_1_inv. symmetry.
  rewrite <- Hr. exact (order_routed Hm Hn He).
Qed.

Lemma init_routed (num_experts B E : nat) (g : tensor F) :
  is_matrix B E g -> nonneg g ->
  SparseDispatcher_init num_experts g = Ok (routing_state num_experts g E).
Proof.
  intros Hm Hn. rewrite (init_closed_form num_experts (is_matrix_ndim Hm)).
  rewrite (stored_grouped g), (is_matrix_ncols Hm), (count_positive_spec Hm).
  unfold routing_state.
  rewrite !map_flat_map. do 2 f_equal.
  - f_equal. apply flat_map_ext_in. intros e _. now rewrite map_map.
  - apply flat_map_ext_in. intros e _. rewrite map_map. apply map_id.
  - apply map_ext_in. intros e He. apply in_seq in He. symmetry.
    apply (order_length Hm Hn). lia.
  - f_equal. apply flat_map_ext_in. intros e _. now rewrite map_map.
Qed.

Lemma batch_index_bound (g : tensor F) (E : nat) :
  Forall (fun i => i < size0 g) (flat_map (order g) (seq 0 E)).
Proof.
  apply Forall_forall. intros i Hi. apply in_flat_map in Hi.
  destruct Hi as [e [_ Hi]]. revert i Hi. apply Forall_forall, order_bound.
Qed.

(** [torch.split] of per-expert groups by their sizes recovers the groups. *)
Lemma split_groups {A} (f : list nat) (h : nat -> list (list A)) (l : list nat) :
  split (mkTensor f (flat_map h l)) (map (fun e => length (h e)) l)
  = Ok (map (fun e => mkTensor f (h e)) l).
Proof.
  rewrite flat_map_concat_map, <- (map_map h (@length _)), split_concat.
  now rewrite map_map.
Qed.

Lemma squeeze1_ok {A} (f : list nat) (rs : list (list A)) :
  f <> [] -> squeeze1 (mkTensor f rs) = Ok (mkTensor (squeezed_feat f) rs).
Proof.
  intros Hf. unfold squeeze1. simpl.
  destruct f as [|[|[|k]] f']; [congruence | reflexivity..].
Qed.

Lemma dispatch_routed {A} (num_experts E : nat) (g : tensor F) (x : tensor A) :
  size0 x = size0 g -> feat x <> [] ->
  eval (dispatch x) (routing_state num_experts g E)
  = Ok (map (fun e => mkTensor (squeezed_feat (feat x))
                        (map (fun i => nth i (rows x) []) (order g e)))
            (seq 0 E)).
Proof.
  intros Hx Hf. unfold dispatch, eval, bind, attr, call. simpl.
  rewrite index_rows_ok by (rewrite Hx; apply batch_index_bound). simpl.
  rewrite (squeeze1_ok _ Hf). simpl.
  rewrite map_flat_map.
  rewrite (map_ext (fun e => length (order g e))
                   (fun e => length (map (fun i => nth i (rows x) []) (order g e))))
    by (intros; now rewrite length_map).
  apply (split_groups (squeezed_feat (feat x))
           (fun e => map (fun i => nth i (rows x) []) (order g e))).
Qed.

Lemma expert_to_gates_routed (num_experts E : nat) (g : tensor F) :
  eval expert_to_gates (routing_state num_experts g E)
  = Ok (map (fun e => mkTensor [1] (map (fun i => [entry g i e]) (order g e)))
            (seq 0 E)).
Proof.
  unfold expert_to_gates, eval, bind, attr, call. simpl.
  rewrite (map_ext (fun e => length (order g e))
                   (fun e => length (map (fun i => [entry g i e]) (order g e))))
    by (intros; now rewrite length_map).
  apply (split_groups [1] (fun e => map (fun i => [entry g i e]) (order g e))).
Qed.

Lemma dispatch_no_feature {A} (num_experts E : nat) (g : tensor F) (x : tensor A) :
  (forall e i, e < E -> In i (order g e) -> i < size0 x) -> feat x = [] ->
  eval (dispatch x) (routing_state num_experts g E) = Raise DimOutOfRange.
Proof.
  intros Hc Hf. unfold dispatch, eval, bind, attr, call. simpl.
  rewrite index_rows_ok.
  - simpl. unfold squeeze1. simpl. now rewrite Hf.
  - apply Forall_forall. intros i Hi. apply in_flat_map in Hi.
    destruct Hi as [e [He Hi]]. apply in_seq in He. apply (Hc e); [lia | exact Hi].
Qed.

(** The chunks of [dispatch] on the dispatcher of a non-negative matrix are
    a partition in the sense above. *)
Lemma routed_chunks_partition {A} (num_experts B E : nat) (g : tensor F) (x : tensor A) :
  is_matrix B E g -> nonneg g ->
  dispatch_partition B E g (routing_state num_experts g E) x
    (map (fun e => mkTensor (squeezed_feat (feat x))
                     (map (fun i => nth i (rows x) []) (order g e)))
         (seq 0 E)).
Proof.
  intros Hm Hn. exists (map (order g) (seq 0 E)).
  split; [now rewrite length_map, length_seq|].
  split; [now rewrite length_map, length_seq|].
  split; [simpl; now rewrite flat_map_concat_map|].
  intros e He. eexists. split; [now apply nth_error_map_seq|].
  rewrite nth_map_seq by exact He.
  split; [|split; [reflexivity|split]].
  - unfold size0. simpl. rewrite length_map.
    now rewrite (nth_map_seq (fun e => length (order g e))).
  - now apply (order_NoDup Hm Hn).
  - intros i. now apply (order_In i Hm Hn).
Qed.

End RoutingSpec.

(** ** The laws at the instances *)

#[export] Instance Q_CmpLaws : ZeroTestLaws Q.
Proof.
  constructor. intros q. simpl. intros Hq.
  apply negb_true_iff in Hq.
  destruct (Qeq_bool q 0) eqn:He; [|reflexivity].
  apply Qeq_bool_iff in He.
  assert (Hle : Qle_bool q 0 = true) by (apply Qle_bool_iff; rewrite He; apply Qle_refl).
  congruence.
Qed.

(** In binary64 a positive number is not zero (a NaN is neither). *)
#[export] Instance binary64_CmpLaws : ZeroTestLaws float.
Proof.
  constructor. intros x. simpl. rewrite ltb_spec, eqb_spec.
  change (Prim2SF 0) with (S754_zero false).
  destruct (Prim2SF x) as [s|s| |s m e]; try destruct s;
    unfold SFltb, SFeqb, SFcompare; congruence.
Qed.

Lemma scenario_is_matrix : is_matrix 4 2 scenario_gates.
Proof. repeat split. repeat constructor. Qed.

Lemma scenario_nonneg : nonneg scenario_gates.
Proof. repeat constructor. Qed.

(** ** dispatch *)

(** C1, amended: for a non-negative [B x E] gate matrix and an input with [B]
    rows and at least one further dimension, [dispatch] returns [E] chunks in
    the order of the experts; chunk [e] has [part_sizes[e]] rows, which are
    the rows of the input (entry for entry; [squeeze(1)] drops the first
    trailing size when it is 1) at the samples [i] with [G[i,e] > 0], each
    such sample once, in the order in which the constructor has listed them
    in [_batch_index] (that of the sort, which is not claimed to be
    ascending). *)
Theorem dispatch_partitions_batch {F A} `{ZeroTest F} {L : ZeroTestLaws F}
    {TS : TorchSort} {TSL : TorchSortLaws}
    (num_experts B E : nat) (g : tensor F) (x : tensor A) :
  is_matrix B E g -> nonneg g -> size0 x = B -> feat x <> [] ->
  dispatch_returns_partition num_experts B E g x.
Proof.
  intros Hm Hn Hx Hf.
  assert (Hb : size0 g = B) by (destruct Hm as [_ [Hb _]]; exact Hb).
  exists (routing_state num_experts g E). eexists. split; [|split].
  - now apply init_routed with (B := B).
  - apply dispatch_routed; [congruence | assumption].
  - now apply routed_chunks_partition.
Qed.

Lemma dispatch_partitions_batch_witness :
  dispatch_returns_partition 2 4 2 scenario_gates wide_input.
Proof.
  apply dispatch_partitions_batch.
  - exact scenario_is_matrix.
  - exact scenario_nonneg.
  - reflexivity.
  - discriminate.
Defined.

(** C1 as stated fails on an input with no further dimension: [squeeze(1)]
    raises on the gathered rows, whatever the order of the sort. *)
Lemma dispatch_flat_input_raises :
  is_matrix 4 2 scenario_gates /\ nonneg scenario_gates /\
  size0 flat_input = 4 /\
  SparseDispatcher_init 2 scenario_gates = Ok (routing_state 2 scenario_gates 2) /\
  eval (dispatch flat_input) (routing_state 2 scenario_gates 2)
  = Raise DimOutOfRange /\
  ~ dispatch_returns_partition 2 4 2 scenario_gates flat_input /\
  (forall TS : TorchSort, TorchSortLaws ->
     ~ dispatch_returns_partition (TS := TS) 2 4 2 scenario_gates flat_input).
Proof.
  split; [exact scenario_is_matrix|]. split; [exact scenario_nonneg|].
  split; [reflexivity|]. split; [reflexivity|]. split; [reflexivity|].
  assert (Hall : forall TS : TorchSort, TorchSortLaws ->
            ~ dispatch_returns_partition (TS := TS) 2 4 2 scenario_gates flat_input).
  { intros TS TSL [d [chunks [Hi [Hd _]]]].
    rewrite (init_routed 2 scenario_is_matrix scenario_nonneg) in Hi.
    injection Hi as <-.
    rewrite dispatch_no_feature in Hd; [discriminate | | reflexivity].
    intros e i _ Hi. pose proof (order_bound scenario_gates e) as Hbd.
    rewrite Forall_forall in Hbd. exact (Hbd i Hi). }
  split; [|exact Hall]. exact (Hall stable_sort stable_sort_laws).
Qed.

(** The order of the rows within a chunk is the one the sort gives to equal
    keys.  A sort that keeps the promise and returns equal keys in reverse
    hands each expert of the [9 x 2] matrix of ones the samples 8, 7, ..., 0:
    the ascending order is not a property of [dispatch]. *)
Lemma dispatch_order_is_of_the_sort :
  @TorchSortLaws reversing_sort /\
  is_matrix 9 2 full_gates /\ nonneg full_gates /\ size0 nine_ids = 9 /\
  exists d,
    @SparseDispatcher_init Q _ reversing_sort 2 full_gates = Ok d /\
    _part_sizes d = [9; 9] /\
    _batch_index d = [8; 7; 6; 5; 4; 3; 2; 1; 0; 8; 7; 6; 5; 4; 3; 2; 1; 0] /\
    eval (dispatch nine_ids) d
    = Ok [mkTensor [] [[8]; [7]; [6]; [5]; [4]; [3]; [2]; [1]; [0]];
          mkTensor [] [[8]; [7]; [6]; [5]; [4]; [3]; [2]; [1]; [0]]].
Proof.
  split; [exact reversing_sort_laws|].
  split; [repeat split; repeat constructor|].
  split; [repeat constructor|]. split; [reflexivity|].
  eexists. split; [vm_compute; reflexivity|]. repeat split.
Qed.

(** C7, amended: for an input with [B] rows and at least one further
    dimension, every chunk returned by [dispatch] has the trailing sizes of
    the input after [squeeze(1)]: the first of them is dropped when it is 1,
    and they are unchanged otherwise. *)
Theorem dispatch_feat_squeezed {F A} `{ZeroTest F} {L : ZeroTestLaws F}
    {TS : TorchSort} {TSL : TorchSortLaws}
    (num_experts B E : nat) (g : tensor F) (x : tensor A) :
  is_matrix B E g -> nonneg g -> size0 x = B -> feat x <> [] ->
  exists d chunks,
    SparseDispatcher_init num_experts g = Ok d /\
    eval (dispatch x) d = Ok chunks /\
    Forall (fun c => feat c = squeezed_feat (feat x)) chunks /\
    (hd 0 (feat x) <> 1 -> Forall (fun c => feat c = feat x) chunks).
Proof.
  intros Hm Hn Hx Hf.
  assert (Hb : size0 g = B) by (destruct Hm as [_ [Hb _]]; exact Hb).
  exists (routing_state num_experts g E). eexists. split; [|split; [|split]].
  - now apply init_routed with (B := B).
  - apply dispatch_routed; [congruence | assumption].
  - apply Forall_forall. intros c Hc. apply in_map_iff in Hc.
    now destruct Hc as [e [<- _]].
  - intros Hh. apply Forall_forall. intros c Hc. apply in_map_iff in Hc.
    destruct Hc as [e [<- _]]. simpl.
    destruct (feat x) as [|[|[|k]] f]; simpl in *; congruence.
Qed.

Lemma dispatch_feat_squeezed_witness :
  exists d chunks,
    SparseDispatcher_init 2 scenario_gates = Ok d /\
    eval (dispatch thin_input) d = Ok chunks /\
    Forall (fun c => feat c = squeezed_feat (feat thin_input)) chunks /\
    (hd 0 (feat thin_input) <> 1 -> Forall (fun c => feat c = feat thin_input) chunks).
Proof.
  apply dispatch_feat_squeezed with (B := 4) (E := 2).
  - exact scenario_is_matrix.
  - exact scenario_nonneg.
  - reflexivity.
  - discriminate.
Defined.

(** C7 as stated fails on a [4 x 1 x 2] input: the chunks are [n x 2],
    whatever the order of the sort. *)
Lemma dispatch_drops_unit_dimension :
  is_matrix 4 2 scenario_gates /\ nonneg scenario_gates /\
  size0 thin_input = 4 /\
  SparseDispatcher_init 2 scenario_gates = Ok (routing_state 2 scenario_gates 2) /\
  eval (dispatch thin_input) (routing_state 2 scenario_gates 2)
  = Ok [mkTensor [2] [[10; 11]; [30; 31]]; mkTensor [2] [[20; 21]; [30; 31]]] /\
  ~ dispatch_keeps_feat 2 scenario_gates thin_input /\
  (forall TS : TorchSort, TorchSortLaws ->
     ~ dispatch_keeps_feat (TS := TS) 2 scenario_gates thin_input).
Proof.
  split; [exact scenario_is_matrix|]. split; [exact scenario_nonneg|].
  split; [reflexivity|]. split; [reflexivity|]. split; [reflexivity|].
  assert (Hgen : forall TS : TorchSort, TorchSortLaws ->
            ~ dispatch_keeps_feat (TS := TS) 2 scenario_gates thin_input).
  { intros TS TSL [d [chunks [Hi [Hd Hall]]]].
    rewrite (init_routed 2 scenario_is_matrix scenario_nonneg) in Hi.
    injection Hi as <-.
    rewrite dispatch_routed in Hd by (reflexivity || discriminate).
    injection Hd as <-.
    inversion Hall as [|c cs Hc _]. discriminate Hc. }
  split; [|exact Hgen]. exact (Hgen stable_sort stable_sort_laws).
Qed.

(** ** The constructor *)

(** C3: [part_sizes] has one entry per expert, [part_sizes[e]] is the number
    of samples [i] with [G[i,e] > 0], and the entries add up to the number of
    positive entries of [G].  (This holds for every matrix, non-negative or
    not.) *)
Theorem part_sizes_count {F} `{ZeroTest F} {TS : TorchSort} {TSL : TorchSortLaws}
    (num_experts B E : nat) (g : tensor F) :
  is_matrix B E g ->
  exists d,
    SparseDispatcher_init num_experts g = Ok d /\
    length (_part_sizes d) = E /\
    (forall e, e < E ->
       nth e (_part_sizes d) 0
       = length (filter (fun i => fgt0 (entry g i e)) (seq 0 B))) /\
    list_sum (_part_sizes d) = length (filter fgt0 (concat (rows g))).
Proof.
  intros Hm. eexists. split; [apply (init_closed_form num_experts (is_matrix_ndim Hm))|].
  simpl. rewrite (count_positive_total Hm), (count_positive_spec Hm).
  split; [now rewrite length_map, length_seq|]. split; [|reflexivity].
  intros e He.
  rewrite (nth_indep _ 0 (length (routed g 0))) by now rewrite length_map, length_seq.
  rewrite (map_nth (fun e => length (routed g e))), seq_nth by lia.
  unfold routed. destruct Hm as [_ [-> _]]. reflexivity.
Qed.

Lemma part_sizes_count_witness :
  exists d,
    SparseDispatcher_init 2 scenario_gates = Ok d /\
    length (_part_sizes d) = 2 /\
    (forall e, e < 2 ->
       nth e (_part_sizes d) 0
       = length (filter (fun i => fgt0 (entry scenario_gates i e)) (seq 0 4))) /\
    list_sum (_part_sizes d) = length (filter fgt0 (concat (rows scenario_gates))).
Proof. apply part_sizes_count. exact scenario_is_matrix. Defined.

(** ** expert_to_gates *)

(** C4: [expert_to_gates] returns [E] chunks of the sizes [part_sizes], the
    same as [dispatch]; entry [j] of chunk [e] is [G[i,e]] for the sample [i]
    whose row is at position [j] of the chunk [dispatch] returns for [e]
    (the two chunks list the samples with [G[i,e] > 0], each once, in the
    same order).  In the scenario [part_sizes = [2, 2]], expert 0 receives
    samples 0 and 2, expert 1 samples 1 and 2, and the gate values are 1, 1
    for each expert. *)
Theorem expert_to_gates_aligned {F A} `{ZeroTest F} {L : ZeroTestLaws F}
    {TS : TorchSort} {TSL : TorchSortLaws}
    (num_experts B E : nat) (g : tensor F) (x : tensor A) :
  is_matrix B E g -> nonneg g -> size0 x = B -> feat x <> [] ->
  (exists d chunks gate_chunks,
     SparseDispatcher_init num_experts g = Ok d /\
     eval (dispatch x) d = Ok chunks /\
     eval expert_to_gates d = Ok gate_chunks /\
     length gate_chunks = E /\
     forall e, e < E ->
       exists c gc samples,
         nth_error chunks e = Some c /\
         nth_error gate_chunks e = Some gc /\
         size0 gc = nth e (_part_sizes d) 0 /\
         size0 c = size0 gc /\
         NoDup samples /\
         (forall i, In i samples <-> i < B /\ fgt0 (entry g i e) = true) /\
         rows c = map (fun i => nth i (rows x) []) samples /\
         rows gc = map (fun i => [entry g i e]) samples)
  /\
  (exists d chunks gate_chunks,
     SparseDispatcher_init 2 scenario_gates = Ok d /\
     _part_sizes d = [2; 2] /\
     eval (dispatch scenario_ids) d = Ok chunks /\
     eval expert_to_gates d = Ok gate_chunks /\
     (exists received_0 received_1,
        chunks = [mkTensor [] (map (fun i => [i]) received_0);
                  mkTensor [] (map (fun i => [i]) received_1)] /\
        Permutation received_0 [0; 2] /\ Permutation received_1 [1; 2]) /\
     gate_chunks = [mkTensor [1] [[1%Q]; [1%Q]]; mkTensor [1] [[1%Q]; [1%Q]]] /\
     map (fun t => concat (rows t)) gate_chunks = [[1%Q; 1%Q]; [1%Q; 1%Q]]).
Proof.
  intros Hm Hn Hx Hf.
  assert (Hb : size0 g = B) by (destruct Hm as [_ [Hb _]]; exact Hb).
  split.
  - exists (routing_state num_experts g E). do 2 eexists.
    split; [now apply init_routed with (B := B)|].
    split; [apply dispatch_routed; [congruence | assumption]|].
    split; [apply expert_to_gates_routed|].
    split; [now rewrite length_map, length_seq|].
    intros e He.
    exists (mkTensor (squeezed_feat (feat x))
              (map (fun i => nth i (rows x) []) (order g e))),
           (mkTensor [1] (map (fun i => [entry g i e]) (order g e))),
           (order g e).
    split.
    { exact (nth_error_map_seq
               (fun e => mkTensor (squeezed_feat (feat x))
                           (map (fun i => nth i (rows x) []) (order g e))) He). }
    split.
    { exact (nth_error_map_seq
               (fun e => mkTensor [1] (map (fun i => [entry g i e]) (order g e))) He). }
    split.
    { unfold size0. simpl. rewrite length_map.
      now rewrite (nth_map_seq (fun e => length (order g e))). }
    split; [unfold size0; simpl; now rewrite !length_map|].
    split; [now apply (order_NoDup Hm Hn)|].
    split; [|split; reflexivity].
    intros i. now apply (order_In i Hm Hn).
  - pose proof scenario_is_matrix as Sm. pose proof scenario_nonneg as Sn.
    assert (Hlen : forall e, e < 2 -> length (order scenario_gates e) = 2).
    { intros e He. rewrite (order_length Sm Sn He).
      destruct e as [|[|e]]; [reflexivity | reflexivity | lia]. }
    assert (Hgate : forall e, e < 2 ->
              map (fun i => [entry scenario_gates i e]) (order scenario_gates e)
              = [[1%Q]; [1%Q]]).
    { intros e He.
      rewrite (@map_all_equal _ _ (fun i => [entry scenario_gates i e]) [1%Q]).
      - now rewrite (Hlen e He).
      - intros i Hi. apply (order_In i Sm Sn He) in Hi. destruct Hi as [Hi Hg].
        destruct e as [|[|e]]; [| |lia];
          destruct i as [|[|[|[|i]]]]; try lia; try reflexivity;
          vm_compute in Hg; discriminate. }
    assert (Hrow : forall e,
              map (fun i => nth i (rows scenario_ids) []) (order scenario_gates e)
              = map (fun i => [i]) (order scenario_gates e)).
    { intros e. apply map_ext_in. intros i Hi.
      pose proof (order_bound scenario_gates e) as Hbd.
      rewrite Forall_forall in Hbd. specialize (Hbd i Hi).
      change (size0 scenario_gates) with 4 in Hbd.
      destruct i as [|[|[|[|i]]]]; try reflexivity; lia. }
    exists (routing_state 2 scenario_gates 2). do 2 eexists.
    split; [now apply init_routed with (B := 4)|].
    split; [simpl; now rewrite !Hlen by lia|].
    split; [apply dispatch_routed; [reflexivity | discriminate]|].
    split; [apply expert_to_gates_routed|].
    split.
    { exists (order scenario_gates 0), (order scenario_gates 1).
      split; [|split].
      2: exact (@order_routed _ _ _ _ _ 4 2 scenario_gates 0 Sm Sn ltac:(lia)).
      2: exact (@order_routed _ _ _ _ _ 4 2 scenario_gates 1 Sm Sn ltac:(lia)).
      change (seq 0 2) with [0; 1]. cbn [map].
      now rewrite !Hrow. }
    simpl. rewrite !Hgate by lia. split; reflexivity.
Qed.

Lemma expert_to_gates_aligned_witness :
  (exists d chunks gate_chunks,
     SparseDispatcher_init 2 scenario_gates = Ok d /\
     eval (dispatch wide_input) d = Ok chunks /\
     eval expert_to_gates d = Ok gate_chunks /\
     length gate_chunks = 2 /\
     forall e, e < 2 ->
       exists c gc samples,
         nth_error chunks e = Some c /\
         nth_error gate_chunks e = Some gc /\
         size0 gc = nth e (_part_sizes d) 0 /\
         size0 c = size0 gc /\
         NoDup samples /\
         (forall i, In i samples <-> i < 4 /\ fgt0 (entry scenario_gates i e) = true) /\
         rows c = map (fun i => nth i (rows wide_input) []) samples /\
         rows gc = map (fun i => [entry scenario_gates i e]) samples)
  /\
  (exists d chunks gate_chunks,
     SparseDispatcher_init 2 scenario_gates = Ok d /\
     _part_sizes d = [2; 2] /\
     eval (dispatch scenario_ids) d = Ok chunks /\
     eval expert_to_gates d = Ok gate_chunks /\
     (exists received_0 received_1,
        chunks = [mkTensor [] (map (fun i => [i]) received_0);
                  mkTensor [] (map (fun i => [i]) received_1)] /\
        Permutation received_0 [0; 2] /\ Permutation received_1 [1; 2]) /\
     gate_chunks = [mkTensor [1] [[1%Q]; [1%Q]]; mkTensor [1] [[1%Q]; [1%Q]]] /\
     map (fun t => concat (rows t)) gate_chunks = [[1%Q; 1%Q]; [1%Q; 1%Q]]).
Proof.
  apply expert_to_gates_aligned.
  - exact scenario_is_matrix.
  - exact scenario_nonneg.
  - reflexivity.
  - discriminate.
Defined.

(** ** The accumulation of [index_add] *)

Lemma combine_app {A B} (l1 l2 : list A) (r1 r2 : list B) :
  length l1 = length r1 ->
  List.combine (l1 ++ l2) (r1 ++ r2) = List.combine l1 r1 ++ List.combine l2 r2.
Proof.
  revert r1. induction l1 as [|a l1 IH]; intros [|b r1] Hl; simpl in *;
    try discriminate; [reflexivity|].
  f_equal. apply IH. lia.
Qed.

Lemma combine_flat_map {A B C} (f : A -> list B) (g : A -> list C) (l : list A) :
  (forall a, In a l -> length (f a) = length (g a)) ->
  List.combine (flat_map f l) (flat_map g l)
  = flat_map (fun a => List.combine (f a) (g a)) l.
Proof.
  induction l as [|a l IH]; simpl; intros Hl; [reflexivity|].
  rewrite combine_app by (apply Hl; now left).
  rewrite IH; [reflexivity|]. intros; apply Hl; now right.
Qed.

Lemma set_nth_length {A} (l : list A) (i : nat) (a : A) :
  length (set_nth l i a) = length l.
Proof.
  revert i. induction l as [|b l IH]; intros [|i]; simpl; auto.
Qed.

Lemma set_nth_nth {A} (l : list A) (i j : nat) (a d : A) :
  j < length l ->
  nth i (set_nth l j a) d = if i =? j then a else nth i l d.
Proof.
  revert i j. induction l as [|b l IH]; intros i j Hj; simpl in Hj; [lia|].
  destruct j as [|j], i as [|i]; simpl; try reflexivity.
  apply IH. lia.
Qed.

Section Accumulate.
Context {F : Type} `{ZeroTest F} `{FloatOps F}.

Lemma accumulate_length (acc : list (list F)) idx src :
  length (accumulate acc idx src) = length acc.
Proof.
  unfold accumulate. generalize (List.combine idx src) as pairs.
  intros pairs. revert acc. induction pairs as [|q pairs IH]; intros acc; simpl.
  - reflexivity.
  - rewrite IH. apply set_nth_length.
Qed.

(** Row [i] of the accumulator: the rows of [src] sent to [i], added in turn. *)
Lemma accumulate_nth (acc : list (list F)) (idx : list nat) (src : list (list F)) (i : nat) :
  Forall (fun j => j < length acc) idx ->
  nth i (accumulate acc idx src) []
  = fold_left row_add
      (map snd (filter (fun q => fst q =? i) (List.combine idx src)))
      (nth i acc []).
Proof.
  unfold accumulate. intros Hidx.
  assert (Hp : Forall (fun q => fst q < length acc) (List.combine idx src)).
  { apply Forall_forall. intros [j r] Hq. apply in_combine_l in Hq.
    rewrite Forall_forall in Hidx. now apply Hidx. }
  clear Hidx. revert acc Hp.
  induction (List.combine idx src) as [|[j r] pairs IH]; intros acc Hp; simpl.
  - reflexivity.
  - inversion Hp as [|q qs Hj Hrest]; subst. simpl in Hj.
    rewrite IH by (rewrite set_nth_length; exact Hrest).
    rewrite set_nth_nth by exact Hj.
    destruct (Nat.eqb_spec j i) as [->|Hne].
    + rewrite Nat.eqb_refl. reflexivity.
    + destruct (Nat.eqb_spec i j); [congruence | reflexivity].
Qed.

Lemma row_add_length (r s : list F) :
  length r = length s -> length (row_add r s) = length r.
Proof.
  intros Hl. unfold row_add. rewrite length_map, length_combine. lia.
Qed.

Lemma row_add_nth (r s : list F) (p : nat) :
  length r = length s -> p < length r ->
  nth p (row_add r s) fzero = fadd (nth p r fzero) (nth p s fzero).
Proof.
  intros Hl Hp. unfold row_add.
  rewrite (nth_indep _ fzero ((fun q => fadd (fst q) (snd q)) (fzero, fzero)))
    by (rewrite length_map, length_combine; lia).
  rewrite (map_nth (fun q => fadd (fst q) (snd q))).
  now rewrite combine_nth.
Qed.

(** Entry [p] of a sum of rows is the sum of their entries [p]. *)
Lemma fold_row_add_nth (m : nat) (rs : list (list F)) (r0 : list F) (p : nat) :
  Forall (fun r => length r = m) rs -> length r0 = m -> p < m ->
  nth p (fold_left row_add rs r0) fzero
  = fold_left fadd (map (fun r => nth p r fzero) rs) (nth p r0 fzero).
Proof.
  intros Hrs. revert r0. induction Hrs as [|r rs Hr _ IH]; intros r0 Hr0 Hp; simpl.
  - reflexivity.
  - rewrite IH by (try rewrite row_add_length; lia).
    now rewrite row_add_nth by lia.
Qed.

End Accumulate.

(** ** The kernels on well-shaped arguments *)

Lemma combine_self_map {A B} (f : A -> B) (l : list A) :
  List.combine l (map f l) = map (fun a => (a, f a)) l.
Proof. induction l; simpl; congruence. Qed.

Lemma cat_uniform {A} (f : list nat) (outs : list (tensor A)) :
  outs <> [] -> f <> [] -> Forall (fun o => feat o = f) outs ->
  cat outs = Ok (mkTensor f (concat (map (@rows A) outs))).
Proof.
  intros Hne Hf Hall. unfold cat.
  assert (Hfil : filter (fun t => negb (is_empty_1d t)) outs = outs).
  { clear Hne. induction Hall as [|o outs Ho _ IH]; simpl; [reflexivity|].
    unfold is_empty_1d at 1. rewrite Ho.
    destruct f as [|k f]; [congruence|]. simpl. now rewrite IH. }
  destruct outs as [|t0 rest]; [congruence|]. rewrite Hfil.
  inversion Hall as [|o os H0 Hrest]; subst.
  assert (Hsame : forallb (same_feat t0) rest = true).
  { apply forallb_forall. intros t Ht. rewrite Forall_forall in Hrest.
    unfold same_feat. rewrite (Hrest t Ht).
    destruct (list_eq_dec Nat.eq_dec (feat t0) (feat t0)); congruence. }
  now rewrite Hsame.
Qed.

Lemma last_item_In {A} (l : list A) :
  l <> [] -> exists a, last_item l = Ok a /\ In a l.
Proof.
  intros Hne. unfold last_item. destruct (rev l) as [|a r] eqn:Hr.
  - apply (f_equal (@rev A)) in Hr. rewrite rev_involutive in Hr. now subst.
  - exists a. split; [reflexivity|]. apply in_rev. rewrite Hr. now left.
Qed.

Lemma broadcast_refl (n : nat) : broadcast n n = Some n.
Proof. unfold broadcast. now rewrite Nat.eqb_refl. Qed.

Lemma broadcast_1_r (n : nat) : broadcast n 1 = Some n.
Proof.
  unfold broadcast. destruct (Nat.eqb_spec n 1); [reflexivity|].
  simpl. reflexivity.
Qed.

(** The position [j, k, h] of a row-major entry, put together again. *)
Lemma unravel_ravel (J K Hh p : nat) :
  p < J * K * Hh ->
  (p / (K * Hh) * K + (if K =? 1 then 0 else (p / Hh) mod K)) * Hh + p mod Hh = p.
Proof.
  intros Hp.
  assert (HK : K <> 0) by (intros ->; lia).
  assert (HH : Hh <> 0) by (intros ->; lia).
  rewrite (Nat.mul_comm K Hh), <- Nat.Div0.div_div.
  pose proof (Nat.div_mod_eq p Hh) as E1.
  pose proof (Nat.div_mod_eq (p / Hh) K) as E2.
  destruct (Nat.eqb_spec K 1) as [->|HK1].
  - rewrite Nat.div_1_r. lia.
  - nia.
Qed.

Section Scaling.
Context {F : Type} `{ZeroTest F} `{FloatOps F}.

Lemma combine_as_seq {A B} (l : list A) (l' : list B) (da : A) (db : B) :
  length l = length l' ->
  List.combine l l' = map (fun i => (nth i l da, nth i l' db)) (seq 0 (length l)).
Proof.
  intros Hl. rewrite <- (map_nth_seq l da) at 1.
  rewrite <- (map_nth_seq l' db) at 1. rewrite <- Hl.
  apply combine_map_map.
Qed.

(** The einsum of [combine]: row [n] of [a] scaled by the weight [n]. *)
Lemma einsum_scale (J K Hh : nat) (a : tensor F) (ws : list F) :
  feat a = [J; K; Hh] -> tensor_wf a -> length ws = size0 a ->
  einsum_ijkh_ik a (mkTensor [1] (map (fun w => [w]) ws))
  = Ok (mkTensor [J; K; Hh]
          (map (fun q => map (fun x => fmul x (snd q)) (fst q))
               (List.combine (rows a) ws))).
Proof.
  intros Hf Hw Hl. unfold einsum_ijkh_ik. rewrite Hf. simpl feat.
  assert (Hg : size0 (mkTensor [1] (map (fun w => [w]) ws)) = size0 a)
    by (unfold size0 at 1; simpl; now rewrite length_map).
  rewrite Hg, broadcast_refl, broadcast_1_r. do 2 f_equal.
  rewrite (combine_as_seq (rows a) ws [] fzero) by (unfold size0 in Hl; lia).
  rewrite map_map. fold (size0 a). apply map_ext_in. intros i Hi.
  apply in_seq in Hi. simpl fst. simpl snd.
  assert (Hi' : (if size0 a =? 1 then 0 else i) = i)
    by (destruct (Nat.eqb_spec (size0 a) 1); lia).
  rewrite Hi'. simpl rows.
  assert (Hrow : length (nth i (rows a) []) = J * K * Hh).
  { unfold tensor_wf in Hw. rewrite Forall_forall in Hw.
    rewrite (Hw (nth i (rows a) [])) by (apply nth_In; unfold size0 in Hi; lia).
    rewrite Hf. simpl. lia. }
  rewrite (nth_indep (map (fun w => [w]) ws) [] [fzero]) by (rewrite length_map; lia).
  rewrite (map_nth (fun w => [w])).
  transitivity (map (fun x => fmul x (nth i ws fzero))
                 (map (fun p => nth p (nth i (rows a) []) fzero)
                      (seq 0 (length (nth i (rows a) [])))));
    [|now rewrite map_nth_seq].
  rewrite map_map, Hrow. apply map_ext_in. intros p Hp. apply in_seq in Hp.
  rewrite (@unravel_ravel J K Hh p) by lia. reflexivity.
Qed.

End Scaling.

(** ** combine on the dispatcher of a non-negative matrix *)

Section CombineSpec.
Context {F : Type} `{ZeroTest F} `{FloatOps F} {L : ZeroTestLaws F}
        {TS : TorchSort} {TSL : TorchSortLaws}.

Lemma outs_as_seq (E : nat) (outs : list (tensor F)) :
  length outs = E -> outs = map (out_of outs) (seq 0 E).
Proof. intros <-. symmetry. apply map_nth_seq. Qed.

(** A routed sample sits at its slot in the chunk of the expert. *)
Lemma slot_position (g : tensor F) (e i : nat) :
  In i (order g e) -> nth_error (order g e) (slot g e i) = Some i.
Proof. apply position_nth_error. Qed.

Lemma rows_by_slot (B E : nat) (g : tensor F) (outs : list (tensor F)) (e : nat) :
  is_matrix B E g -> nonneg g -> e < E ->
  size0 (out_of outs e) = length (routed g e) ->
  rows (out_of outs e)
  = map (fun i => nth (slot g e i) (rows (out_of outs e)) []) (order g e).
Proof.
  intros Hm Hn He Hs. apply rows_by_position.
  - exact (order_NoDup Hm Hn He).
  - rewrite (order_length Hm Hn He). exact Hs.
Qed.

Lemma experts_of_routed (B E : nat) (g : tensor F) (i e : nat) :
  is_matrix B E g -> nonneg g -> i < B ->
  In e (experts_of g i) -> e < E /\ In i (order g e).
Proof.
  intros Hm Hn Hi He. unfold experts_of in He. rewrite (is_matrix_ncols Hm) in He.
  apply filter_In in He. destruct He as [He Hg]. apply in_seq in He.
  split; [lia|]. apply (order_In i Hm Hn); [lia | now split].
Qed.

Lemma shared_rows_length (flag : bool) (g : tensor F) (E : nat) (outs : list (tensor F)) :
  length (shared_rows flag g E outs) = length (flat_map (order g) (seq 0 E)).
Proof.
  unfold shared_rows. rewrite !length_flat_map. f_equal.
  apply map_ext. intros e. now rewrite length_map.
Qed.

Lemma slot_row_length (B E J K Hh : nat) (g : tensor F) (outs : list (tensor F))
    (e i : nat) :
  is_matrix B E g -> nonneg g ->
  expert_outputs_wf g E J K Hh outs -> e < E -> In i (order g e) ->
  length (nth (slot g e i) (rows (out_of outs e)) []) = prod [J; K; Hh].
Proof.
  intros Hm Hn [Hlen [Hall Hsz]] He Hi.
  assert (Ho : In (out_of outs e) outs) by (apply nth_In; lia).
  rewrite Forall_forall in Hall. destruct (Hall _ Ho) as [Hf Hw].
  unfold tensor_wf in Hw. rewrite Forall_forall, Hf in Hw. apply Hw.
  pose proof (in_map (fun i => nth (slot g e i) (rows (out_of outs e)) []) _ _ Hi)
    as Hin.
  now rewrite <- (rows_by_slot outs Hm Hn He (Hsz e He)) in Hin.
Qed.

Lemma shared_row_length (flag : bool) (B E J K Hh : nat) (g : tensor F)
    (outs : list (tensor F)) (e i : nat) :
  is_matrix B E g -> nonneg g ->
  expert_outputs_wf g E J K Hh outs -> e < E -> In i (order g e) ->
  length (shared_row flag g outs e i) = prod [J; K; Hh].
Proof.
  intros Hm Hn Hwf He Hi. unfold shared_row. rewrite length_map.
  now apply slot_row_length with (B := B) (E := E).
Qed.

(** The concatenated outputs, exponentiated. *)
Lemma stitched_plain (B E J K Hh : nat) (g : tensor F) (outs : list (tensor F)) :
  is_matrix B E g -> nonneg g ->
  0 < E -> expert_outputs_wf g E J K Hh outs ->
  (let* stitched := cat outs in Ok (tmap fexp stitched))
  = Ok (mkTensor [J; K; Hh] (shared_rows false g E outs)).
Proof.
  intros Hm Hn HE [Hlen [Hall Hsz]].
  rewrite (cat_uniform (f := [J; K; Hh])); [| | discriminate |].
  - simpl rbind. unfold tmap. simpl. do 2 f_equal.
    rewrite (@outs_as_seq E outs Hlen) at 1.
    rewrite map_map, <- flat_map_concat_map, map_flat_map.
    apply flat_map_ext_in. intros e He. apply in_seq in He.
    rewrite (rows_by_slot outs Hm Hn (e := e)) at 1 by (try apply Hsz; lia).
    now rewrite map_map.
  - intros ->. simpl in Hlen. lia.
  - eapply Forall_impl; [|exact Hall]. now intros o [Hf _].
Qed.

Lemma gated_chunk (B E : nat) (g : tensor F) (outs : list (tensor F)) (e : nat) :
  is_matrix B E g -> nonneg g -> e < E ->
  size0 (out_of outs e) = length (routed g e) ->
  map (fun q => map (fun x => fmul x (snd q)) (fst q))
      (List.combine (map (map fexp) (rows (out_of outs e)))
                    (map (fun i => entry g i e) (order g e)))
  = map (shared_row true g outs e) (order g e).
Proof.
  intros Hm Hn He Hs. rewrite (rows_by_slot outs Hm Hn He Hs) at 1.
  rewrite map_map, combine_map_map, map_map.
  apply map_ext. intros i. unfold shared_row, share. simpl. now rewrite map_map.
Qed.

(** The concatenated outputs, exponentiated and scaled by the gates. *)
Lemma stitched_gated (num_experts B E J K Hh : nat) (g : tensor F)
    (outs : list (tensor F)) :
  is_matrix B E g -> nonneg g ->
  0 < E -> expert_outputs_wf g E J K Hh outs ->
  (let* stitched := cat outs in
   einsum_ijkh_ik (tmap fexp stitched)
                  (_nonzero_gates (routing_state num_experts g E)))
  = Ok (mkTensor [J; K; Hh] (shared_rows true g E outs)).
Proof.
  intros Hm Hn HE Hwf. pose proof Hwf as [Hlen [Hall Hsz]].
  rewrite (cat_uniform (f := [J; K; Hh])); [| | discriminate |].
  - simpl rbind. simpl _nonzero_gates.
    rewrite (@outs_as_seq E outs Hlen) at 1. rewrite map_map, <- flat_map_concat_map.
    replace (flat_map (fun e => map (fun i => [entry g i e]) (order g e)) (seq 0 E))
      with (map (fun w => [w])
              (flat_map (fun e => map (fun i => entry g i e) (order g e)) (seq 0 E)))
      by (rewrite map_flat_map; apply flat_map_ext_in; intros; now rewrite map_map).
    rewrite (einsum_scale (J := J) (K := K) (Hh := Hh)).
    + do 2 f_equal. unfold tmap. simpl rows. rewrite map_flat_map.
      rewrite combine_flat_map.
      * rewrite map_flat_map. apply flat_map_ext_in. intros e He.
        apply in_seq in He. apply (gated_chunk outs Hm Hn); [lia|]. apply Hsz. lia.
      * intros e He. apply in_seq in He. rewrite !length_map.
        rewrite (order_length Hm Hn) by lia. apply Hsz. lia.
    + reflexivity.
    + unfold tensor_wf, tmap. simpl. apply Forall_forall. intros r Hr.
      apply in_map_iff in Hr. destruct Hr as [r' [<- Hr']].
      apply in_flat_map in Hr'. destruct Hr' as [e [He Hr']].
      apply in_seq in He. rewrite length_map.
      assert (Ho : In (out_of outs e) outs) by (apply nth_In; lia).
      rewrite Forall_forall in Hall. destruct (Hall _ Ho) as [Hf Hw].
      unfold tensor_wf in Hw. rewrite Forall_forall, Hf in Hw. now apply Hw.
    + unfold size0, tmap. simpl. rewrite length_map, !length_flat_map. f_equal.
      apply map_ext_in. intros e He. apply in_seq in He.
      rewrite length_map, (order_length Hm Hn) by lia. symmetry. apply Hsz. lia.
  - intros ->. simpl in Hlen. lia.
  - eapply Forall_impl; [|exact Hall]. now intros o [Hf _].
Qed.

Lemma index_add_ok (t : tensor F) (index : list nat) (source : tensor F) :
  length index = size0 source -> feat t = feat source ->
  Forall (fun i => i < size0 t) index ->
  index_add t index source
  = Ok (mkTensor (feat t) (accumulate (rows t) index (rows source))).
Proof.
  intros Hl Hf Hi. unfold index_add.
  rewrite Hl, Nat.eqb_refl. simpl.
  unfold same_feat. destruct (list_eq_dec Nat.eq_dec (feat t) (feat source));
    [simpl | contradiction].
  assert (Hb : forallb (fun i => i <? size0 t) index = true).
  { apply forallb_forall. intros i Hin. rewrite Forall_forall in Hi.
    apply Nat.ltb_lt. now apply Hi. }
  now rewrite Hb.
Qed.

Lemma size_feat (o : tensor F) (J K Hh : nat) :
  feat o = [J; K; Hh] ->
  size o 1 = Ok J /\ size o 2 = Ok K /\ size o 3 = Ok Hh.
Proof. intros Hf. unfold size, dims. rewrite Hf. now simpl. Qed.

(** The accumulator of [combine] for well-shaped outputs, with the gates or
    without. *)
Lemma combine_accumulate_shared (flag : bool) (num_experts B E J K Hh : nat)
    (g : tensor F) (outs : list (tensor F)) :
  is_matrix B E g -> nonneg g -> 0 < E -> expert_outputs_wf g E J K Hh outs ->
  eval (combine_accumulate outs flag) (routing_state num_experts g E)
  = Ok (mkTensor [J; K; Hh]
          (accumulate (repeat (repeat fzero (prod [J; K; Hh])) B)
                      (flat_map (order g) (seq 0 E))
                      (shared_rows flag g E outs))).
Proof.
  intros Hm Hn HE Hwf. pose proof Hwf as [Hlen [Hall Hsz]].
  assert (Hne : outs <> []) by (intros ->; simpl in Hlen; lia).
  destruct (last_item_In Hne) as [o [Hlast Ho]].
  rewrite Forall_forall in Hall. destruct (Hall _ Ho) as [Hf _].
  destruct (size_feat o Hf) as [H1 [H2 H3]].
  assert (Hb : size0 g = B) by (destruct Hm as [_ [Hb _]]; exact Hb).
  destruct flag.
  - pose proof (stitched_gated num_experts Hm Hn HE Hwf) as Hst.
    unfold combine_accumulate, eval, bind, call, attr, ret.
    destruct (cat outs) as [c|ex]; [|discriminate Hst].
    simpl in Hst. simpl. rewrite Hst, Hlast, H1, H2, H3, Hb.
    rewrite index_add_ok; [reflexivity | | reflexivity |].
    + unfold size0. simpl. now rewrite shared_rows_length.
    + unfold size0, zeros. simpl rows. rewrite repeat_length, <- Hb.
      apply batch_index_bound.
  - pose proof (stitched_plain Hm Hn HE Hwf) as Hst.
    unfold combine_accumulate, eval, bind, call, attr, ret.
    destruct (cat outs) as [c|ex]; [|discriminate Hst].
    assert (Hst' : tmap fexp c = mkTensor [J; K; Hh] (shared_rows false g E outs))
      by (unfold rbind in Hst; congruence).
    rewrite Hlast, H1, H2, H3, Hst'.
    cbn [fst _gates _batch_index routing_state]. rewrite Hb.
    rewrite index_add_ok; [reflexivity | | reflexivity |].
    + unfold size0. simpl. now rewrite shared_rows_length.
    + unfold size0, zeros. simpl rows. rewrite repeat_length, <- Hb.
      apply batch_index_bound.
Qed.

(** The samples kept for an expert hold sample [i] once if its gate is
    positive, and not otherwise. *)
Lemma order_only (B E : nat) (g : tensor F) (e i : nat) :
  is_matrix B E g -> nonneg g -> e < E -> i < B ->
  filter (fun j => j =? i) (order g e)
  = if fgt0 (entry g i e) then [i] else [].
Proof.
  intros Hm Hn He Hi. destruct (fgt0 (entry g i e)) eqn:Hg.
  - apply filter_eqb_in; [exact (order_NoDup Hm Hn He)|].
    apply (order_In i Hm Hn He). now split.
  - apply filter_eqb_out. intros Hin.
    apply (order_In i Hm Hn He) in Hin. destruct Hin as [_ Hin]. congruence.
Qed.

(** The rows sent to sample [i]: one from each of its experts, in their order. *)
Lemma shared_rows_sent_to (flag : bool) (B E : nat) (g : tensor F)
    (outs : list (tensor F)) (i : nat) :
  is_matrix B E g -> nonneg g -> i < B ->
  map snd (filter (fun q => fst q =? i)
             (List.combine (flat_map (order g) (seq 0 E))
                           (shared_rows flag g E outs)))
  = map (fun e => shared_row flag g outs e i) (experts_of g i).
Proof.
  intros Hm Hn Hi. unfold shared_rows.
  rewrite combine_flat_map by (intros; now rewrite length_map).
  rewrite filter_flat_map, map_flat_map.
  unfold experts_of. rewrite (is_matrix_ncols Hm).
  rewrite <- flat_map_if_singleton. apply flat_map_ext_in. intros e He.
  apply in_seq in He.
  rewrite combine_self_map, filter_map_swap, map_map. simpl.
  rewrite (order_only Hm Hn) by lia.
  now destruct (fgt0 (entry g i e)).
Qed.

Lemma fold_row_add_length (m : nat) (rs : list (list F)) (r0 : list F) :
  Forall (fun r => length r = m) rs -> length r0 = m ->
  length (fold_left row_add rs r0) = m.
Proof.
  intros Hrs. revert r0. induction Hrs as [|r rs Hr _ IH]; intros r0 Hr0; simpl.
  - exact Hr0.
  - apply IH. rewrite row_add_length; lia.
Qed.

Lemma shared_accumulator_row_length (flag : bool) (B E J K Hh : nat) (g : tensor F)
    (outs : list (tensor F)) (i : nat) :
  is_matrix B E g -> nonneg g -> expert_outputs_wf g E J K Hh outs -> i < B ->
  length (nth i (accumulate (repeat (repeat fzero (prod [J; K; Hh])) B)
                            (flat_map (order g) (seq 0 E))
                            (shared_rows flag g E outs)) [])
  = prod [J; K; Hh].
Proof.
  intros Hm Hn Hwf Hi. rewrite accumulate_nth.
  - rewrite (shared_rows_sent_to flag outs Hm Hn Hi). apply fold_row_add_length.
    + apply Forall_forall. intros r Hr. apply in_map_iff in Hr.
      destruct Hr as [e [<- He]].
      destruct (@experts_of_routed B E g i e Hm Hn Hi He) as [HeE Hin].
      now apply shared_row_length with (B := B) (E := E).
    + rewrite (nth_indep _ [] (repeat fzero (prod [J; K; Hh])))
        by (now rewrite repeat_length).
      rewrite nth_repeat. apply repeat_length.
  - rewrite repeat_length. destruct Hm as [_ [Hb _]]. rewrite <- Hb.
    apply batch_index_bound.
Qed.

(** An entry of the accumulator: the shares of the sample's experts, added
    from zero in the order of the experts. *)
Lemma shared_accumulator_entry (flag : bool) (B E J K Hh : nat) (g : tensor F)
    (outs : list (tensor F)) (i p : nat) :
  is_matrix B E g -> nonneg g -> expert_outputs_wf g E J K Hh outs ->
  i < B -> p < prod [J; K; Hh] ->
  nth p (nth i (accumulate (repeat (repeat fzero (prod [J; K; Hh])) B)
                           (flat_map (order g) (seq 0 E))
                           (shared_rows flag g E outs)) []) fzero
  = fsum (map (fun e => share flag g e i (out_entry outs e (slot g e i) p))
              (experts_of g i)).
Proof.
  intros Hm Hn Hwf Hi Hp.
  rewrite accumulate_nth.
  - rewrite (shared_rows_sent_to flag outs Hm Hn Hi).
    rewrite (nth_indep _ [] (repeat fzero (prod [J; K; Hh])))
      by (now rewrite repeat_length).
    rewrite nth_repeat.
    rewrite (fold_row_add_nth (m := prod [J; K; Hh])).
    + rewrite nth_repeat, map_map. unfold fsum. f_equal.
      apply map_ext_in. intros e He.
      destruct (@experts_of_routed B E g i e Hm Hn Hi He) as [HeE Hin].
      pose proof (@slot_row_length B E J K Hh g outs e i Hm Hn Hwf HeE Hin) as Hlen.
      unfold shared_row, out_entry.
      rewrite (nth_indep _ fzero (share flag g e i fzero))
        by (rewrite length_map; lia).
      now rewrite (map_nth (share flag g e i)).
    + apply Forall_forall. intros r Hr. apply in_map_iff in Hr.
      destruct Hr as [e [<- He]].
      destruct (@experts_of_routed B E g i e Hm Hn Hi He) as [HeE Hin].
      now apply shared_row_length with (B := B) (E := E).
    + apply repeat_length.
    + exact Hp.
  - rewrite repeat_length. destruct Hm as [_ [Hb _]]. rewrite <- Hb.
    apply batch_index_bound.
Qed.

Lemma accumulator_rows (B m : nat) (idx : list nat) (src : list (list F)) :
  length (accumulate (repeat (repeat fzero m) B) idx src) = B.
Proof. now rewrite accumulate_length, repeat_length. Qed.

Lemma tmap_entry (f : F -> F) (t : tensor F) (i p : nat) :
  p < length (nth i (rows t) []) ->
  nth p (nth i (rows (tmap f t)) []) fzero = f (nth p (nth i (rows t) []) fzero).
Proof.
  intros Hp. unfold tmap. simpl rows.
  change (@nil F) with (map f []) at 1. rewrite (map_nth (map f)).
  rewrite (nth_indep _ fzero (f fzero)) by (now rewrite length_map).
  apply map_nth.
Qed.

Lemma tmap_row_length (f : F -> F) (t : tensor F) (i : nat) :
  length (nth i (rows (tmap f t)) []) = length (nth i (rows t) []).
Proof.
  unfold tmap. simpl rows.
  change (@nil F) with (map f []) at 1. rewrite (map_nth (map f)).
  apply length_map.
Qed.

(** [combine] for well-shaped outputs: the logarithm of the floored sums of
    the shares. *)
Lemma combine_shared (flag : bool) (num_experts B E J K Hh : nat) (g : tensor F)
    (outs : list (tensor F)) :
  is_matrix B E g -> nonneg g -> 0 < E -> expert_outputs_wf g E J K Hh outs ->
  exists r,
    eval (combine outs flag) (routing_state num_experts g E) = Ok r /\
    feat r = [J; K; Hh] /\ size0 r = B /\
    Forall (fun row => length row = J * K * Hh) (rows r) /\
    forall i p, i < B -> p < J * K * Hh ->
      nth p (nth i (rows r) []) fzero
      = flog (floor_zero
                (fsum (map (fun e => share flag g e i (out_entry outs e (slot g e i) p))
                           (experts_of g i)))).
Proof.
  intros Hm Hn HE Hwf.
  pose proof (combine_accumulate_shared flag num_experts Hm Hn HE Hwf) as Hacc.
  unfold eval in Hacc. unfold combine, eval, bind, ret.
  destruct (combine_accumulate outs flag (routing_state num_experts g E))
    as [[acc|ex] st]; simpl in Hacc; [|discriminate].
  injection Hacc as ->.
  exists (tmap flog (floor_zeros
            (mkTensor [J; K; Hh]
               (accumulate (repeat (repeat fzero (prod [J; K; Hh])) B)
                           (flat_map (order g) (seq 0 E))
                           (shared_rows flag g E outs))))).
  split; [reflexivity|]. split; [reflexivity|].
  assert (Hsz : size0 (tmap flog (floor_zeros
             (mkTensor [J; K; Hh]
                (accumulate (repeat (repeat fzero (prod [J; K; Hh])) B)
                            (flat_map (order g) (seq 0 E))
                            (shared_rows flag g E outs))))) = B).
  { unfold size0, tmap, floor_zeros, tmap. simpl rows.
    now rewrite !length_map, accumulator_rows. }
  split; [exact Hsz|]. split.
  - apply Forall_forall. intros row Hrow.
    apply (In_nth _ _ []) in Hrow. destruct Hrow as [i [Hi <-]].
    unfold size0 in Hsz. rewrite Hsz in Hi. unfold floor_zeros.
    rewrite !tmap_row_length. cbn [rows].
    rewrite (shared_accumulator_row_length flag Hm Hn Hwf Hi). simpl. lia.
  - intros i p Hi Hp.
    assert (Hp' : p < prod [J; K; Hh]) by (simpl; lia).
    pose proof (shared_accumulator_row_length flag Hm Hn Hwf Hi) as Hlen.
    pose proof (shared_accumulator_entry flag Hm Hn Hwf Hi Hp') as Hent.
    change (prod [J; K; Hh]) with (J * (K * (Hh * 1))) in *.
    unfold floor_zeros.
    rewrite tmap_entry by (rewrite tmap_row_length; simpl rows; lia).
    rewrite tmap_entry by (simpl rows; lia).
    simpl rows. now rewrite Hent.
Qed.

End CombineSpec.

(** ** The laws over the real numbers *)

Lemma Rgt0_true (x : R) : (0 < x)%R -> Rgt0 x = true.
Proof. intros Hx. unfold Rgt0. destruct (Rlt_dec 0 x); [reflexivity | contradiction]. Qed.

Lemma Rgt0_false (x : R) : (x <= 0)%R -> Rgt0 x = false.
Proof. intros Hx. unfold Rgt0. destruct (Rlt_dec 0 x); [lra | reflexivity]. Qed.

Lemma Req0_true (x : R) : x = 0%R -> Req0 x = true.
Proof. intros Hx. unfold Req0. destruct (Req_dec_T x 0); [reflexivity | contradiction]. Qed.

#[export] Instance R_CmpLaws : ZeroTestLaws R.
Proof.
  constructor. intros x. simpl. unfold Rgt0, Req0.
  destruct (Rlt_dec 0 x), (Req_dec_T x 0); intros; try reflexivity; try discriminate.
  lra.
Qed.

Lemma real_gates_is_matrix : is_matrix 4 2 real_gates.
Proof. repeat split. repeat constructor. Qed.

Lemma fge0_R (x : R) : (0 <= x)%R -> fge0 x = true.
Proof.
  intros Hx. unfold fge0. simpl. unfold Req0, Rgt0.
  destruct (Req_dec_T x 0), (Rlt_dec 0 x); try reflexivity. lra.
Qed.

Lemma real_gates_nonneg : nonneg real_gates.
Proof. repeat constructor; apply fge0_R; lra. Qed.

Lemma real_routed_0 : routed real_gates 0 = [0; 2].
Proof.
  unfold routed, entry. simpl.
  now rewrite (@Rgt0_true 1%R), (@Rgt0_false 0%R) by lra.
Qed.

Lemma real_routed_1 : routed real_gates 1 = [1; 2].
Proof.
  unfold routed, entry. simpl.
  now rewrite (@Rgt0_true 1%R), (@Rgt0_false 0%R) by lra.
Qed.

Lemma real_outputs_wf : expert_outputs_wf real_gates 2 1 1 1 real_outputs.
Proof.
  split; [reflexivity|]. split.
  - repeat constructor.
  - intros [|[|e]] He; [now rewrite real_routed_0 | now rewrite real_routed_1 | lia].
Qed.

(** ** combine *)

(** C2, amended: for a non-negative [B x E] gate matrix with at least one
    expert and one [part_sizes[e] x J x K x H] output per expert,
    [combine(expert_out, multiply_by_gates=True)] returns a [B x J x K x H]
    tensor; its entry for sample [i] is the logarithm of the sum, formed from
    zero in the order of the experts, of [exp(out_e_i) * G[i,e]] over the
    experts [e] with [G[i,e] > 0], the sum replaced by eps when it is zero,
    where [out_e_i] is the row of the output of [e] at the position of [i] in
    the chunk [dispatch] hands to [e]; for a sample with the two experts [a],
    [b] it is the logarithm of the floored
    [0 + exp(out_a_i) * w_a + exp(out_b_i) * w_b]. *)
Theorem combine_log_of_weighted_sum {F} `{ZeroTest F} `{FloatOps F}
    {L : ZeroTestLaws F} {TS : TorchSort} {TSL : TorchSortLaws}
    (num_experts B E J K Hh : nat) (g : tensor F) (outs : list (tensor F)) :
  is_matrix B E g -> nonneg g -> 0 < E -> expert_outputs_wf g E J K Hh outs ->
  combine_is_log_sum num_experts B J K Hh g outs.
Proof.
  intros Hm Hn HE Hwf.
  destruct (combine_shared true num_experts Hm Hn HE Hwf)
    as [r [Hr [Hf [Hs [_ Hent]]]]].
  exists (routing_state num_experts g E), r.
  split; [now apply init_routed with (B := B)|].
  split; [exact Hr|]. split; [exact Hf|]. split; [exact Hs|].
  assert (Hgen : forall i p, i < B -> p < J * K * Hh ->
            nth p (nth i (rows r) []) fzero
            = flog (floor_zero (fsum (map (gate_term g outs i p) (experts_of g i))))).
  { intros i p Hi Hp. exact (Hent i p Hi Hp). }
  split; [exact Hgen|]. split.
  - intros i p a b Hi Hp Hab. rewrite (Hgen i p Hi Hp), Hab. reflexivity.
  - intros x i e Hx Hfx Hi He.
    destruct (@experts_of_routed _ _ _ _ _ B E g i e Hm Hn Hi He) as [HeE Hin].
    assert (Hb : size0 g = B) by (destruct Hm as [_ [Hb _]]; exact Hb).
    do 2 eexists. split; [apply dispatch_routed; [congruence | exact Hfx]|].
    split.
    + exact (nth_error_map_seq
               (fun e => mkTensor (squeezed_feat (feat x))
                           (map (fun i => nth i (rows x) []) (order g e))) HeE).
    + simpl. rewrite nth_error_map, (slot_position g e i Hin). reflexivity.
Qed.

Lemma combine_log_of_weighted_sum_witness :
  combine_is_log_sum 2 4 1 1 1 real_gates real_outputs.
Proof.
  apply combine_log_of_weighted_sum with (E := 2).
  - exact real_gates_is_matrix.
  - exact real_gates_nonneg.
  - lia.
  - exact real_outputs_wf.
Defined.

(** C2 as stated fails for a gate matrix without experts: the sequence of
    outputs is empty and [torch.cat] raises. *)
Lemma combine_no_expert_raises :
  is_matrix 2 0 no_expert_gates /\ nonneg no_expert_gates /\
  expert_outputs_wf no_expert_gates 0 1 1 1 [] /\
  SparseDispatcher_init 0 no_expert_gates = Ok (routing_state 0 no_expert_gates 0) /\
  eval (combine [] true) (routing_state 0 no_expert_gates 0) = Raise CatEmpty /\
  ~ combine_is_log_sum 0 2 1 1 1 no_expert_gates [] /\
  (forall TS : TorchSort, TorchSortLaws ->
     ~ combine_is_log_sum (TS := TS) 0 2 1 1 1 no_expert_gates []).
Proof.
  split; [repeat split; repeat constructor|].
  split; [repeat constructor|].
  split; [split; [reflexivity|]; split; [constructor | intros e He; lia]|].
  split; [reflexivity|]. split; [reflexivity|].
  assert (Hgen : forall TS : TorchSort, TorchSortLaws ->
            ~ combine_is_log_sum (TS := TS) 0 2 1 1 1 no_expert_gates []).
  { intros TS TSL [d [r [Hi [Hc _]]]].
    rewrite (init_routed 0 (B := 2) (E := 0)) in Hi.
    - injection Hi as <-. discriminate Hc.
    - repeat split; repeat constructor.
    - repeat constructor. }
  split; [|exact Hgen]. exact (Hgen stable_sort stable_sort_laws).
Qed.

(** ** The floor of the accumulator *)

Lemma smallest_positive_least (fmt : float_format) :
  (0 < precision fmt)%Z ->
  representable fmt (smallest_positive fmt) /\
  forall q, representable fmt q -> (0 < q)%Q -> (smallest_positive fmt <= q)%Q.
Proof.
  intros Hp. unfold smallest_positive. split.
  - exists 1%Z, (emin fmt). split; [|split; [lia|]].
    + simpl Z.abs. apply Z.pow_gt_1; lia.
    + now rewrite Qmult_1_l.
  - intros q [m [e [_ [He Hq]]]] Hpos. rewrite Hq in *.
    assert (H2 : (0 < 2 ^ e)%Q) by (apply Qpower_0_lt; reflexivity).
    assert (Hm : (1 <= m)%Z).
    { destruct (Z.le_gt_cases m 0) as [Hle|Hgt]; [|lia].
      exfalso. apply (Qlt_not_le _ _ Hpos).
      rewrite <- (Qmult_0_l (2 ^ e)). apply Qmult_le_compat_r.
      - change 0%Q with (inject_Z 0). now rewrite <- Zle_Qle.
      - now apply Qlt_le_weak. }
    apply Qle_trans with (2 ^ e)%Q.
    + apply Qpower_le_compat_l; [exact He | discriminate].
    + rewrite <- (Qmult_1_l (2 ^ e)) at 1. apply Qmult_le_compat_r.
      * change 1%Q with (inject_Z 1). now rewrite <- Zle_Qle.
      * now apply Qlt_le_weak.
Qed.

Lemma finfo_float_eps_is_machine_epsilon :
  (finfo_float_eps == machine_epsilon binary64)%Q.
Proof. reflexivity. Qed.

Lemma Q2R_neq (a b : Q) : ~ (a == b)%Q -> Q2R a <> Q2R b.
Proof. intros Hab Heq. apply Hab. now apply eqR_Qeq. Qed.

Lemma eps_is_no_smallest_value :
  Q2R finfo_float_eps <> Q2R (smallest_positive binary32) /\
  Q2R finfo_float_eps <> Q2R (smallest_normal binary32) /\
  Q2R finfo_float_eps <> Q2R (smallest_positive binary64) /\
  Q2R finfo_float_eps <> Q2R (smallest_normal binary64).
Proof.
  repeat split; apply Q2R_neq; intros Heq; vm_compute in Heq; discriminate Heq.
Qed.

Section Floor.
Context {F : Type} `{ZeroTest F} `{FloatOps F}.

Lemma floor_zeros_entry (acc : tensor F) (i p : nat) :
  p < length (nth i (rows acc) []) ->
  nth p (nth i (rows (floor_zeros acc)) []) fzero
  = if feq0 (nth p (nth i (rows acc) []) fzero)
    then feps
    else nth p (nth i (rows acc) []) fzero.
Proof. intros Hp. unfold floor_zeros. now rewrite tmap_entry. Qed.

Lemma combine_is_log_of_floor (expert_out : list (tensor F)) (flag : bool)
    (d : SparseDispatcher F) (r : tensor F) :
  eval (combine expert_out flag) d = Ok r <->
  exists acc,
    eval (combine_accumulate expert_out flag) d = Ok acc /\
    r = tmap flog (floor_zeros acc).
Proof.
  unfold combine, eval, bind, ret.
  destruct (combine_accumulate expert_out flag d) as [[acc|ex] st]; simpl.
  - split.
    + intros Hr. injection Hr as <-. now exists acc.
    + intros [acc' [Ha ->]]. now injection Ha as ->.
  - split; [discriminate|]. now intros [acc' [Ha _]].
Qed.

End Floor.

(** C6, amended: in [combine], every entry of the accumulator that is exactly
    zero after [index_add] is replaced by [np.finfo(float).eps] before the
    logarithm is taken, and the other entries are kept; that value is the
    machine epsilon [2^-52] of binary64, whatever the floating type of the
    accumulator. *)
Theorem combine_floors_zeros_to_eps {F} `{ZeroTest F} `{FloatOps F}
    (expert_out : list (tensor F)) (flag : bool) (d : SparseDispatcher F) :
  (forall r,
     eval (combine expert_out flag) d = Ok r <->
     exists acc,
       eval (combine_accumulate expert_out flag) d = Ok acc /\
       r = tmap flog (floor_zeros acc)) /\
  (forall (acc : tensor F) i p,
     p < length (nth i (rows acc) []) ->
     nth p (nth i (rows (floor_zeros acc)) []) fzero
     = if feq0 (nth p (nth i (rows acc) []) fzero)
       then feps
       else nth p (nth i (rows acc) []) fzero) /\
  @feps R R_FloatOps = Q2R finfo_float_eps /\
  (finfo_float_eps == machine_epsilon binary64)%Q /\
  (finfo_float_eps == 1 # 2 ^ 52)%Q.
Proof.
  split; [intros r; apply combine_is_log_of_floor|].
  split; [intros acc i p; apply floor_zeros_entry|].
  split; [reflexivity|].
  split; [exact finfo_float_eps_is_machine_epsilon | reflexivity].
Qed.

Lemma combine_floors_zeros_to_eps_witness :
  nth 0 (nth 0 (rows (floor_zeros zero_accumulator)) []) fzero
  = if feq0 (nth 0 (nth 0 (rows zero_accumulator) []) fzero)
    then feps
    else nth 0 (nth 0 (rows zero_accumulator) []) fzero.
Proof.
  destruct (combine_floors_zeros_to_eps real_outputs true
              (routing_state 2 real_gates 2)) as [_ [Hfloor _]].
  apply Hfloor. simpl. lia.
Defined.

(** C6 as stated fails: the zero of a [1 x 1 x 1 x 1] accumulator becomes
    [2^-52], which is neither the smallest positive nor the smallest normal
    number of binary32 or of binary64. *)
Lemma floor_is_not_smallest_positive :
  nth 0 (nth 0 (rows (floor_zeros zero_accumulator)) []) 0%R = Q2R finfo_float_eps /\
  ~ floors_to_smallest_positive binary32 /\
  ~ floors_to_smallest_positive binary64 /\
  Q2R finfo_float_eps <> Q2R (smallest_normal binary32) /\
  Q2R finfo_float_eps <> Q2R (smallest_normal binary64).
Proof.
  assert (Hz : nth 0 (nth 0 (rows (floor_zeros zero_accumulator)) []) 0%R
               = Q2R finfo_float_eps).
  { simpl. unfold floor_zero. simpl. now rewrite (@Req0_true 0%R). }
  destruct eps_is_no_smallest_value as [H32 [N32 [H64 N64]]].
  split; [exact Hz|]. split; [|split; [|split; assumption]].
  - intros Hc. apply H32. rewrite <- Hz. apply Hc; simpl; [lia | reflexivity].
  - intros Hc. apply H64. rewrite <- Hz. apply Hc; simpl; [lia | reflexivity].
Qed.

(** ** The values [combine] returns *)

(** C5, amended: for a non-negative [B x E] gate matrix with at least one
    expert and one [part_sizes[e] x J x K x H] output per expert, [combine]
    returns a [B x J x K x H] tensor: [B] rows of [J * K * H] entries.  Every
    entry is the logarithm of a number that is not zero (the floor sees to
    it, eps being not zero), and the entries of a sample that no expert
    receives are [log(eps)].  That the entries are finite is not claimed. *)
Theorem combine_takes_no_log_of_zero {F} `{ZeroTest F} `{FloatOps F}
    {L : ZeroTestLaws F} {TS : TorchSort} {TSL : TorchSortLaws}
    (num_experts B E J K Hh : nat) (g : tensor F) (outs : list (tensor F)) :
  is_matrix B E g -> nonneg g -> 0 < E -> expert_outputs_wf g E J K Hh outs ->
  feq0 (feps : F) = false -> feq0 (fzero : F) = true ->
  combine_takes_log_of_nonzero num_experts B J K Hh g outs.
Proof.
  intros Hm Hn HE Hwf Heps Hz.
  destruct (combine_shared true num_experts Hm Hn HE Hwf)
    as [r [Hr [Hf [Hs [Hrows Hent]]]]].
  exists (routing_state num_experts g E), r.
  split; [now apply init_routed with (B := B)|].
  split; [exact Hr|]. split; [exact Hf|]. split; [exact Hs|].
  split; [exact Hrows|]. split.
  - intros i p Hi Hp. eexists. split; [exact (Hent i p Hi Hp)|].
    unfold floor_zero.
    destruct (feq0 (fsum _)) eqn:Hsum; [exact Heps | exact Hsum].
  - intros i p Hi Hp Hnone. rewrite (Hent i p Hi Hp), Hnone.
    unfold fsum, floor_zero. simpl. now rewrite Hz.
Qed.

Lemma Req0_false (x : R) : x <> 0%R -> Req0 x = false.
Proof.
  intros Hx. unfold Req0. destruct (Req_dec_T x 0); [contradiction | reflexivity].
Qed.

Lemma real_eps_not_zero : feq0 (feps : R) = false.
Proof.
  apply Req0_false. simpl. rewrite <- RMicromega.Q2R_0.
  apply Q2R_neq. intros Heq. vm_compute in Heq. discriminate Heq.
Qed.

Lemma combine_takes_no_log_of_zero_witness :
  combine_takes_log_of_nonzero 2 4 1 1 1 real_gates real_outputs.
Proof.
  apply combine_takes_no_log_of_zero with (E := 2).
  - exact real_gates_is_matrix.
  - exact real_gates_nonneg.
  - lia.
  - exact real_outputs_wf.
  - exact real_eps_not_zero.
  - apply Req0_true. reflexivity.
Defined.

(** C5 as stated fails in binary64: one sample sent to two experts with the
    largest finite gate, each expert returning a zero.  With [exp(0) = 1]
    the accumulator is the sum of the two gates, which overflows to
    infinity; it is not zero, so the floor leaves it, and the entry returned
    is the logarithm of infinity, which is not finite. *)
Lemma combine_overflows_to_infinity :
  is_matrix 1 2 huge_gates /\ nonneg huge_gates /\ all_finite huge_gates /\
  expert_outputs_wf huge_gates 2 1 1 1 unit_outputs /\
  Forall all_finite unit_outputs /\
  (largest_finite + largest_finite)%float = infinity /\
  forall exp log : float -> float,
    exp 0%float = 1%float -> is_finite (log infinity) = false ->
    SparseDispatcher_init 2 huge_gates = Ok (routing_state 2 huge_gates 2) /\
    eval (@combine float _ (binary64_FloatOps exp log) unit_outputs true)
         (routing_state 2 huge_gates 2)
    = Ok (mkTensor [1; 1; 1] [[log infinity]]) /\
    ~ combine_returns_finite exp log.
Proof.
  assert (Hm : is_matrix 1 2 huge_gates) by (repeat split; repeat constructor).
  assert (Hn : nonneg huge_gates) by (repeat constructor).
  assert (Hg : all_finite huge_gates) by (repeat constructor).
  assert (Hwf : expert_outputs_wf huge_gates 2 1 1 1 unit_outputs).
  { split; [reflexivity|]. split; [repeat constructor|].
    intros [|[|e]] He; [reflexivity | reflexivity | lia]. }
  assert (Hout : Forall all_finite unit_outputs) by (repeat constructor).
  split; [exact Hm|]. split; [exact Hn|]. split; [exact Hg|].
  split; [exact Hwf|]. split; [exact Hout|]. split; [reflexivity|].
  intros exp log Hexp Hlog.
  assert (Hinit : SparseDispatcher_init 2 huge_gates
                  = Ok (routing_state 2 huge_gates 2)) by reflexivity.
  assert (Hc : eval (@combine float _ (binary64_FloatOps exp log) unit_outputs true)
                    (routing_state 2 huge_gates 2)
               = Ok (mkTensor [1; 1; 1] [[log infinity]])).
  { vm_compute. rewrite Hexp. vm_compute. reflexivity. }
  split; [exact Hinit|]. split; [exact Hc|].
  intros Hfin.
  destruct (Hfin stable_sort 2 1 2 1 1 1 huge_gates unit_outputs _ _
              stable_sort_laws Hm Hn Hg Hwf Hout Hinit Hc) as [_ [_ Hall]].
  inversion Hall as [|row rest Hrow _]. inversion Hrow as [|v vs Hv _].
  simpl in Hv. congruence.
Qed.

(** ** An expert without samples *)

Lemma idle_gates_is_matrix : is_matrix 2 2 idle_gates.
Proof. repeat split. repeat constructor. Qed.

Lemma idle_gates_nonneg : nonneg idle_gates.
Proof. repeat constructor; apply fge0_R; lra. Qed.

Lemma idle_expert (i : nat) : i < 2 -> fgt0 (entry idle_gates i 1) = false.
Proof.
  intros Hi. destruct i as [|[|i]]; [| |lia];
    unfold entry; simpl; apply Rgt0_false; lra.
Qed.

Lemma idle_routed_0 : routed idle_gates 0 = [0; 1].
Proof. unfold routed, entry. simpl. now rewrite (@Rgt0_true 1%R) by lra. Qed.

Lemma idle_routed_1 : routed idle_gates 1 = [].
Proof. unfold routed, entry. simpl. now rewrite (@Rgt0_false 0%R) by lra. Qed.

Lemma idle_outputs_wf : expert_outputs_wf idle_gates 2 1 1 1 idle_outputs.
Proof.
  split; [reflexivity|]. split.
  - repeat constructor.
  - intros [|[|e]] He; [now rewrite idle_routed_0 | now rewrite idle_routed_1 | lia].
Qed.

(** C8: when expert [e] has no routed sample, [part_sizes[e]] is 0 and
    [dispatch] (on an input with [B] rows and a further dimension) returns
    without raising, with a zero-length tensor at position [e] of its [E]
    chunks; [combine] on well-shaped outputs, among them the empty output of
    [e], returns without raising, and the value of every sample is formed
    from the terms of the experts other than [e]. *)
Theorem empty_expert_tolerated {F A} `{ZeroTest F} `{FloatOps F}
    {L : ZeroTestLaws F} {TS : TorchSort} {TSL : TorchSortLaws}
    (num_experts B E J K Hh : nat) (g : tensor F) (x : tensor A)
    (outs : list (tensor F)) (e : nat) :
  is_matrix B E g -> nonneg g ->
  e < E -> (forall i, i < B -> fgt0 (entry g i e) = false) ->
  size0 x = B -> feat x <> [] ->
  expert_outputs_wf g E J K Hh outs ->
  exists d chunks c r,
    SparseDispatcher_init num_experts g = Ok d /\
    nth e (_part_sizes d) 0 = 0 /\
    eval (dispatch x) d = Ok chunks /\
    length chunks = E /\
    nth_error chunks e = Some c /\
    size0 c = 0 /\ feat c = squeezed_feat (feat x) /\
    size0 (out_of outs e) = 0 /\
    eval (combine outs true) d = Ok r /\
    forall i p, i < B -> p < J * K * Hh ->
      nth p (nth i (rows r) []) fzero
      = flog (floor_zero
                (fsum (map (gate_term g outs i p)
                           (filter (fun e' => negb (e' =? e)) (experts_of g i))))).
Proof.
  intros Hm Hn He Hidle Hx Hf Hwf.
  assert (Hb : size0 g = B) by (destruct Hm as [_ [Hb _]]; exact Hb).
  assert (Hr : routed g e = []).
  { unfold routed. apply filter_none. intros i Hi. apply in_seq in Hi.
    apply Hidle. lia. }
  assert (Ho : order g e = []).
  { apply length_zero_iff_nil. now rewrite (order_length Hm Hn He), Hr. }
  assert (HE : 0 < E) by lia.
  destruct (combine_shared true num_experts Hm Hn HE Hwf)
    as [r [Hc [_ [_ [_ Hent]]]]].
  exists (routing_state num_experts g E).
  exists (map (fun e => mkTensor (squeezed_feat (feat x))
                          (map (fun i => nth i (rows x) []) (order g e)))
              (seq 0 E)).
  exists (mkTensor (squeezed_feat (feat x)) []), r.
  split; [now apply init_routed with (B := B)|].
  split.
  { simpl. rewrite (nth_map_seq (fun e => length (order g e))) by exact He.
    now rewrite Ho. }
  split; [apply dispatch_routed; [congruence | assumption]|].
  split; [now rewrite length_map, length_seq|].
  split.
  { rewrite (nth_error_map_seq
               (fun e => mkTensor (squeezed_feat (feat x))
                           (map (fun i => nth i (rows x) []) (order g e))) He).
    now rewrite Ho. }
  split; [reflexivity|]. split; [reflexivity|].
  split; [destruct Hwf as [_ [_ Hsz]]; now rewrite (Hsz e He), Hr|].
  split; [exact Hc|].
  intros i p Hi Hp. rewrite (Hent i p Hi Hp). do 3 f_equal.
  rewrite filter_all; [reflexivity|].
  intros e' He'. unfold experts_of in He'. apply filter_In in He'.
  destruct He' as [_ Hg]. destruct (Nat.eqb_spec e' e) as [->|]; [|reflexivity].
  rewrite (Hidle i Hi) in Hg. discriminate.
Qed.

Lemma empty_expert_tolerated_witness :
  exists d chunks c r,
    SparseDispatcher_init 2 idle_gates = Ok d /\
    nth 1 (_part_sizes d) 0 = 0 /\
    eval (dispatch idle_input) d = Ok chunks /\
    length chunks = 2 /\
    nth_error chunks 1 = Some c /\
    size0 c = 0 /\ feat c = squeezed_feat (feat idle_input) /\
    size0 (out_of idle_outputs 1) = 0 /\
    eval (combine idle_outputs true) d = Ok r /\
    forall i p, i < 2 -> p < 1 * 1 * 1 ->
      nth p (nth i (rows r) []) fzero
      = flog (floor_zero
                (fsum (map (gate_term idle_gates idle_outputs i p)
                           (filter (fun e' => negb (e' =? 1))
                                   (experts_of idle_gates i))))).
Proof.
  apply (@empty_expert_tolerated R nat _ _ _ _ _ 2 2 2 1 1 1
           idle_gates idle_input idle_outputs 1).
  - exact idle_gates_is_matrix.
  - exact idle_gates_nonneg.
  - lia.
  - exact idle_expert.
  - reflexivity.
  - discriminate.
  - exact idle_outputs_wf.
Defined.

(** ** The object is only read *)

Section Frame.
Context {F : Type}.

Lemma read_only_ret {A} (a : A) : read_only (@ret F A a).
Proof. intros self. reflexivity. Qed.

Lemma read_only_attr {A} (f : SparseDispatcher F -> A) : read_only (attr f).
Proof. intros self. reflexivity. Qed.

Lemma read_only_call {A} (r : result A) : read_only (@call F A r).
Proof. intros self. reflexivity. Qed.

Lemma read_only_bind {A B} (m : method F A) (k : A -> method F B) :
  read_only m -> (forall a, read_only (k a)) -> read_only (bind m k).
Proof.
  intros Hm Hk self. specialize (Hm self). unfold exec, bind in *.
  destruct (m self) as [[a|ex] self']; simpl in Hm; subst self'.
  - apply Hk.
  - reflexivity.
Qed.

End Frame.

Ltac frame :=
  repeat first
    [ apply read_only_bind; [|intros ?]
    | apply read_only_ret | apply read_only_attr | apply read_only_call
    | match goal with |- read_only (if ?b then _ else _) => destruct b end ].

Section FrameMethods.
Context {F : Type} `{ZeroTest F} `{FloatOps F}.

Lemma dispatch_read_only {A} (inp : tensor A) : read_only (@dispatch F A inp).
Proof. unfold dispatch. frame. Qed.

Lemma expert_to_gates_read_only : read_only (@expert_to_gates F).
Proof. unfold expert_to_gates. frame. Qed.

Lemma combine_read_only (expert_out : list (tensor F)) (flag : bool) :
  read_only (combine expert_out flag).
Proof. unfold combine, combine_accumulate. frame. Qed.

Lemma invoke_read_only (c : invocation F) : read_only (invoke c).
Proof.
  destruct c; unfold invoke.
  - apply read_only_bind; [apply dispatch_read_only | intros; apply read_only_ret].
  - apply read_only_bind; [apply combine_read_only | intros; apply read_only_ret].
  - apply read_only_bind; [apply expert_to_gates_read_only | intros; apply read_only_ret].
Qed.

End FrameMethods.

(** C9: [dispatch], [combine] and [expert_to_gates] leave the object as it
    was, whether they return or raise; after any sequence of such calls the
    gates, [batch_index], [part_sizes] and [nonzero_gates] (and the other
    attributes) have their values of before. *)
Theorem calls_leave_state_unchanged {F} `{ZeroTest F} `{FloatOps F}
    (d : SparseDispatcher F) (cs : list (invocation F)) :
  (forall inp : tensor F, exec (dispatch inp) d = d) /\
  (forall expert_out flag, exec (combine expert_out flag) d = d) /\
  exec expert_to_gates d = d /\
  run_calls cs d = d /\
  _gates (run_calls cs d) = _gates d /\
  _batch_index (run_calls cs d) = _batch_index d /\
  _part_sizes (run_calls cs d) = _part_sizes d /\
  _nonzero_gates (run_calls cs d) = _nonzero_gates d.
Proof.
  assert (Hrun : run_calls cs d = d).
  { unfold run_calls. induction cs as [|c cs IH]; simpl; [reflexivity|].
    now rewrite invoke_read_only. }
  split; [intros inp; apply dispatch_read_only|].
  split; [intros expert_out flag; apply combine_read_only|].
  split; [apply expert_to_gates_read_only|].
  now rewrite Hrun.
Qed.

(** ** The ranks [combine] accepts *)

Lemma cat_ok_inv {A} (outs : list (tensor A)) (c : tensor A) :
  cat outs = Ok c ->
  forall t, In t outs -> is_empty_1d t = true \/ feat t = feat c.
Proof.
  unfold cat. destruct outs as [|t0 rest]; [discriminate|].
  set (l := t0 :: rest).
  destruct (filter (fun t => negb (is_empty_1d t)) l) as [|u us] eqn:Hfil.
  - intros _ t Ht. left.
    destruct (is_empty_1d t) eqn:Hs; [reflexivity|].
    assert (Hin : In t (filter (fun t => negb (is_empty_1d t)) l))
      by (apply filter_In; split; [exact Ht | now rewrite Hs]).
    rewrite Hfil in Hin. contradiction.
  - destruct (forallb (same_feat u) us) eqn:Hall; [|discriminate].
    intros Hc t Ht. injection Hc as <-. simpl.
    destruct (is_empty_1d t) eqn:Hs; [now left | right].
    assert (Hin : In t (u :: us))
      by (rewrite <- Hfil; apply filter_In; split; [exact Ht | now rewrite Hs]).
    destruct Hin as [->|Hin]; [reflexivity|].
    rewrite forallb_forall in Hall. specialize (Hall t Hin).
    unfold same_feat in Hall.
    destruct (list_eq_dec Nat.eq_dec (feat u) (feat t)); congruence.
Qed.

Lemma last_item_ok_In {A} (l : list A) (a : A) : last_item l = Ok a -> In a l.
Proof.
  unfold last_item. destruct (rev l) as [|b r] eqn:Hr; [discriminate|].
  intros Ha. injection Ha as ->. apply in_rev. rewrite Hr. now left.
Qed.

Lemma sizes_feat {A} (o : tensor A) (s1 s2 s3 : nat) :
  size o 1 = Ok s1 -> size o 2 = Ok s2 -> size o 3 = Ok s3 ->
  exists rest, feat o = s1 :: s2 :: s3 :: rest.
Proof.
  unfold size, dims. destruct (feat o) as [|a [|b [|c rest]]]; simpl;
    try discriminate.
  intros H1 H2 H3. injection H1 as ->. injection H2 as ->. injection H3 as ->.
  now exists rest.
Qed.

Section Ranks.
Context {F : Type} `{ZeroTest F} `{FloatOps F}.

Lemma einsum_ok_feat (a g s : tensor F) :
  einsum_ijkh_ik a g = Ok s -> length (feat a) = 3 /\ length (feat s) = 3.
Proof.
  unfold einsum_ijkh_ik.
  destruct (feat a) as [|J [|K [|Hh [|x fa]]]]; try discriminate.
  destruct (feat g) as [|K' [|y fg]]; try discriminate.
  destruct (broadcast (size0 a) (size0 g)); try discriminate.
  destruct (broadcast K K'); try discriminate.
  intros Hs. injection Hs as <-. now split.
Qed.

Lemma index_add_ok_inv (t : tensor F) (index : list nat) (source acc : tensor F) :
  index_add t index source = Ok acc ->
  feat t = feat source /\ feat acc = feat t /\ size0 acc = size0 t.
Proof.
  unfold index_add.
  destruct (negb (length index =? size0 source)); [discriminate|].
  unfold same_feat.
  destruct (list_eq_dec Nat.eq_dec (feat t) (feat source)) as [Hf|]; [|discriminate].
  simpl. destruct (negb (forallb (fun i => i <? size0 t) index)); [discriminate|].
  intros Ha. injection Ha as <-. split; [exact Hf|]. split; [reflexivity|].
  unfold size0. simpl. apply accumulate_length.
Qed.

Lemma accumulated_ranks (outs : list (tensor F)) (c o stitched acc : tensor F)
    (b s1 s2 s3 : nat) (idx : list nat) :
  cat outs = Ok c -> last_item outs = Ok o ->
  size o 1 = Ok s1 -> size o 2 = Ok s2 -> size o 3 = Ok s3 ->
  index_add (zeros b s1 s2 s3) idx stitched = Ok acc ->
  length (feat c) = 3 \/ feat stitched = feat c ->
  feat o = [s1; s2; s3] /\ feat acc = [s1; s2; s3] /\ size0 acc = b /\
  Forall (fun t => feat t = [s1; s2; s3] \/ is_empty_1d t = true) outs.
Proof.
  intros Hcat Hlast H1 H2 H3 Hadd Hst.
  destruct (index_add_ok_inv _ _ _ Hadd) as [Hf [Hfa Hsa]].
  destruct (sizes_feat o H1 H2 H3) as [rest Hfo].
  pose proof (cat_ok_inv _ Hcat o (last_item_ok_In _ Hlast)) as Ho.
  assert (Hoc : feat o = feat c).
  { destruct Ho as [Ho|Ho]; [|exact Ho].
    unfold is_empty_1d in Ho. rewrite Hfo in Ho. discriminate. }
  assert (Hlen : length (feat c) = 3).
  { destruct Hst as [Hst|Hst]; [exact Hst|]. now rewrite <- Hst, <- Hf. }
  assert (Hrest : rest = []).
  { rewrite <- Hoc, Hfo in Hlen. simpl in Hlen.
    destruct rest; [reflexivity | simpl in Hlen; lia]. }
  subst rest. split; [exact Hfo|]. split; [now rewrite Hfa|].
  split; [rewrite Hsa; unfold size0, zeros; simpl; apply repeat_length|].
  apply Forall_forall. intros t Ht.
  destruct (cat_ok_inv _ Hcat t Ht) as [Hs|Hs]; [now right | left].
  now rewrite Hs, <- Hoc.
Qed.

(** What a returning [combine] tells about its arguments. *)
Lemma combine_accumulate_ok_inv (outs : list (tensor F)) (flag : bool)
    (d : SparseDispatcher F) (acc : tensor F) :
  eval (combine_accumulate outs flag) d = Ok acc ->
  exists o J K Hh,
    last_item outs = Ok o /\ feat o = [J; K; Hh] /\
    feat acc = [J; K; Hh] /\ size0 acc = size0 (_gates d) /\
    Forall (fun t => feat t = [J; K; Hh] \/ is_empty_1d t = true) outs.
Proof.
  unfold combine_accumulate, eval, bind, call, attr, ret.
  destruct (cat outs) as [c|ex] eqn:Hcat; [|discriminate].
  destruct flag.
  - destruct (einsum_ijkh_ik (tmap fexp c) (_nonzero_gates d)) as [s|ex] eqn:He;
      [|discriminate].
    destruct (einsum_ok_feat _ _ He) as [Hc3 _].
    destruct (last_item outs) as [o|ex] eqn:Hlast; [|discriminate].
    destruct (size o 1) as [s1|ex] eqn:H1; [|discriminate].
    destruct (size o 2) as [s2|ex] eqn:H2; [|discriminate].
    destruct (size o 3) as [s3|ex] eqn:H3; [|discriminate].
    simpl. intros Hadd. exists o, s1, s2, s3. split; [reflexivity|].
    eapply accumulated_ranks;
      [exact Hcat | exact Hlast | exact H1 | exact H2 | exact H3 | exact Hadd | now left].
  - destruct (last_item outs) as [o|ex] eqn:Hlast; [|discriminate].
    destruct (size o 1) as [s1|ex] eqn:H1; [|discriminate].
    destruct (size o 2) as [s2|ex] eqn:H2; [|discriminate].
    destruct (size o 3) as [s3|ex] eqn:H3; [|discriminate].
    simpl. intros Hadd. exists o, s1, s2, s3. split; [reflexivity|].
    eapply accumulated_ranks;
      [exact Hcat | exact Hlast | exact H1 | exact H2 | exact H3 | exact Hadd | now right].
Qed.

End Ranks.

Lemma skip_gates_is_matrix : is_matrix 1 2 skip_gates.
Proof. repeat split. repeat constructor. Qed.

Lemma skip_gates_nonneg : nonneg skip_gates.
Proof. repeat constructor; apply fge0_R; lra. Qed.

Lemma skip_routed_0 : routed skip_gates 0 = [].
Proof. unfold routed, entry. simpl. now rewrite (@Rgt0_false 0%R) by lra. Qed.

Lemma skip_routed_1 : routed skip_gates 1 = [0].
Proof. unfold routed, entry. simpl. now rewrite (@Rgt0_true 1%R) by lra. Qed.

Lemma skip_state :
  routing_state 2 skip_gates 2
  = {| _gates := skip_gates;
       _num_experts := 2;
       _expert_index := mkTensor [1] [[1]];
       _batch_index := [0];
       _part_sizes := [0; 1];
       _nonzero_gates := mkTensor [1] [[1%R]] |}.
Proof.
  unfold routing_state. cbn [seq flat_map map].
  rewrite !(order_of_none skip_gates_is_matrix skip_gates_nonneg
              (Nat.lt_0_succ 1) skip_routed_0).
  rewrite !(order_of_one skip_gates_is_matrix skip_gates_nonneg
              (Nat.lt_succ_diag_r 1) skip_routed_1).
  reflexivity.
Qed.

Lemma skip_outputs_combined :
  eval (combine skip_outputs true) (routing_state 2 skip_gates 2)
  = Ok (mkTensor [1; 1; 1] [[ln (floor_zero (0 + exp 0 * 1)%R)]]).
Proof. rewrite skip_state. reflexivity. Qed.

(** C10, amended: [combine] returns only when the last expert output has
    four dimensions and every expert output either has four dimensions, with
    the trailing sizes of the last, or is a one-dimensional empty tensor,
    which [torch.cat] passes over; the result has the rows of the gate matrix
    and the sizes of dimensions 1, 2 and 3 of the last output.  It raises
    when an output that is not such an empty tensor has another rank, and
    when the last output has another rank. *)
Theorem combine_defined_only_rank_4 {F} `{ZeroTest F} `{FloatOps F}
    (d : SparseDispatcher F) (outs : list (tensor F)) (flag : bool) :
  (forall r, eval (combine outs flag) d = Ok r ->
     exists o J K Hh,
       last_item outs = Ok o /\ ndim o = 4 /\ feat o = [J; K; Hh] /\
       feat r = [J; K; Hh] /\ size0 r = size0 (_gates d) /\
       Forall (fun t => (ndim t = 4 /\ feat t = [J; K; Hh]) \/ is_empty_1d t = true)
              outs) /\
  ((exists t, In t outs /\ ndim t <> 4 /\ is_empty_1d t = false) ->
     exists ex, eval (combine outs flag) d = Raise ex) /\
  ((forall o, last_item outs = Ok o -> ndim o <> 4) ->
     exists ex, eval (combine outs flag) d = Raise ex).
Proof.
  assert (Hok : forall r, eval (combine outs flag) d = Ok r ->
     exists o J K Hh,
       last_item outs = Ok o /\ ndim o = 4 /\ feat o = [J; K; Hh] /\
       feat r = [J; K; Hh] /\ size0 r = size0 (_gates d) /\
       Forall (fun t => (ndim t = 4 /\ feat t = [J; K; Hh]) \/ is_empty_1d t = true)
              outs).
  { intros r Hr. apply combine_is_log_of_floor in Hr.
    destruct Hr as [acc [Hacc ->]].
    destruct (combine_accumulate_ok_inv _ _ _ Hacc)
      as [o [J [K [Hh [Hlast [Hfo [Hfa [Hsa Hall]]]]]]]].
    exists o, J, K, Hh. split; [exact Hlast|].
    split; [unfold ndim, dims; now rewrite Hfo|]. split; [exact Hfo|].
    split; [exact Hfa|].
    split; [unfold size0, floor_zeros, tmap in *; simpl; now rewrite !length_map|].
    eapply Forall_impl; [|exact Hall]. intros t [Ht|Ht]; [left | now right].
    split; [unfold ndim, dims; now rewrite Ht | exact Ht]. }
  split; [exact Hok|]. split.
  - intros [t [Ht [Hnd Hs]]].
    destruct (eval (combine outs flag) d) as [r|ex] eqn:Hr; [|now exists ex].
    destruct (Hok r eq_refl) as [o [J [K [Hh [_ [_ [_ [_ [_ Hall]]]]]]]]].
    rewrite Forall_forall in Hall. destruct (Hall t Ht) as [[Hn _]|Hn]; congruence.
  - intros Hlast.
    destruct (eval (combine outs flag) d) as [r|ex] eqn:Hr; [|now exists ex].
    destruct (Hok r eq_refl) as [o [J [K [Hh [Ho [Hn _]]]]]].
    now destruct (Hlast o Ho).
Qed.

Lemma combine_defined_only_rank_4_witness :
  (exists r o J K Hh,
     eval (combine real_outputs true) (routing_state 2 real_gates 2) = Ok r /\
     last_item real_outputs = Ok o /\ ndim o = 4 /\ feat o = [J; K; Hh] /\
     feat r = [J; K; Hh] /\ size0 r = size0 real_gates) /\
  (exists ex,
     eval (combine flat_outputs true) (routing_state 2 real_gates 2) = Raise ex).
Proof.
  split.
  - destruct (combine_shared true 2 real_gates_is_matrix real_gates_nonneg
                (Nat.lt_0_succ 1) real_outputs_wf) as [r [Hr _]].
    destruct (combine_defined_only_rank_4 (routing_state 2 real_gates 2)
                real_outputs true) as [Hok _].
    destruct (Hok r Hr) as [o [J [K [Hh [Ho [Hn [Hf [Hfr [Hs _]]]]]]]]].
    exists r, o, J, K, Hh. repeat split; assumption.
  - destruct (combine_defined_only_rank_4 (routing_state 2 real_gates 2)
                flat_outputs true) as [_ [Hbad _]].
    apply Hbad. exists (mkTensor [1; 1] [[0%R]; [0%R]]).
    split; [now left|]. split; [discriminate | reflexivity].
Defined.

(** C10 as stated fails: with a one-dimensional empty output for the expert
    without samples, [combine] returns. *)
Lemma combine_accepts_empty_1d_output :
  is_matrix 1 2 skip_gates /\ nonneg skip_gates /\
  SparseDispatcher_init 2 skip_gates = Ok (routing_state 2 skip_gates 2) /\
  eval (combine skip_outputs true) (routing_state 2 skip_gates 2)
  = Ok (mkTensor [1; 1; 1] [[ln (floor_zero (0 + exp 0 * 1)%R)]]) /\
  ~ Forall (fun t : tensor R => ndim t = 4) skip_outputs /\
  ~ combine_only_on_rank_4.
Proof.
  split; [exact skip_gates_is_matrix|]. split; [exact skip_gates_nonneg|].
  split; [exact (init_routed 2 skip_gates_is_matrix skip_gates_nonneg)|].
  split; [exact skip_outputs_combined|].
  assert (Hn : ~ Forall (fun t : tensor R => ndim t = 4) skip_outputs).
  { intros Hall. inversion Hall as [|t ts Ht _]. discriminate Ht. }
  split; [exact Hn|].
  intros Hc. exact (Hn (Hc _ _ _ _ skip_outputs_combined)).
Qed.

(** ** Further properties of the dispatcher *)

Lemma rmap_nth_error_raise {A} (l : list A) (e : exn) (idx : list nat) :
  Exists (fun i => length l <= i) idx ->
  rmap (fun i => match nth_error l i with Some r => Ok r | None => Raise e end) idx
  = Raise e.
Proof.
  induction idx as [|i idx IH]; intros Hex; [inversion Hex|].
  simpl. destruct (nth_error l i) eqn:Hn; [|reflexivity].
  simpl. inversion Hex as [j js Hj|j js Hrest]; subst.
  - apply nth_error_None in Hj. congruence.
  - now rewrite IH.
Qed.

Lemma filter_length_le {A} (p q : A -> bool) (l : list A) :
  (forall a, In a l -> p a = true -> q a = true) ->
  length (filter p l) <= length (filter q l).
Proof.
  induction l as [|a l IH]; intros Hpq; simpl; [lia|].
  assert (IH' : length (filter p l) <= length (filter q l))
    by (apply IH; intros b Hb; apply Hpq; now right).
  destruct (p a) eqn:Hp.
  - rewrite (Hpq a (or_introl eq_refl) Hp). simpl. lia.
  - destruct (q a); simpl; lia.
Qed.

Lemma filter_length_lt {A} (p q : A -> bool) (l : list A) (a : A) :
  (forall b, In b l -> p b = true -> q b = true) ->
  In a l -> p a = false -> q a = true ->
  length (filter p l) < length (filter q l).
Proof.
  induction l as [|b l IH]; intros Hpq Ha Hp Hq; simpl; [contradiction|].
  assert (Hle : length (filter p l) <= length (filter q l))
    by (apply filter_length_le; intros c Hc; apply Hpq; now right).
  destruct Ha as [->|Ha].
  - rewrite Hp, Hq. simpl. lia.
  - assert (Hlt : length (filter p l) < length (filter q l))
      by (apply IH; try assumption; intros c Hc; apply Hpq; now right).
    destruct (p b) eqn:Hpb.
    + rewrite (Hpq b (or_introl eq_refl) Hpb). simpl. lia.
    + destruct (q b); simpl; lia.
Qed.

Lemma list_sum_map_le {A} (f h : A -> nat) (l : list A) :
  (forall a, In a l -> f a <= h a) ->
  list_sum (map f l) <= list_sum (map h l).
Proof.
  induction l as [|a l IH]; intros Hfh; simpl; [lia|].
  pose proof (Hfh a (or_introl eq_refl)).
  assert (list_sum (map f l) <= list_sum (map h l))
    by (apply IH; intros b Hb; apply Hfh; now right).
  lia.
Qed.

Lemma list_sum_map_lt {A} (f h : A -> nat) (l : list A) (a : A) :
  (forall b, In b l -> f b <= h b) -> In a l -> f a < h a ->
  list_sum (map f l) < list_sum (map h l).
Proof.
  induction l as [|b l IH]; intros Hfh Ha Hlt; simpl; [contradiction|].
  pose proof (Hfh b (or_introl eq_refl)) as Hb.
  assert (Hle : list_sum (map f l) <= list_sum (map h l))
    by (apply list_sum_map_le; intros c Hc; apply Hfh; now right).
  destruct Ha as [->|Ha]; [lia|].
  assert (list_sum (map f l) < list_sum (map h l))
    by (apply IH; try assumption; intros c Hc; apply Hfh; now right).
  lia.
Qed.

Section Signed.
Context {F : Type} `{ZeroTest F} {L : ZeroTestLaws F}
        {TS : TorchSort} {TSL : TorchSortLaws}.

Lemma routed_within_nonzero (g : tensor F) (e : nat) :
  length (routed g e) <= length (nonzero_samples g e).
Proof.
  unfold routed, nonzero_samples. apply filter_length_le.
  intros i _ Hg. now rewrite (fgt0_neq0 _ Hg).
Qed.

(** With an entry that is neither zero nor positive, the sizes of the parts
    fall short of the number of stored coordinates. *)
Lemma part_sizes_short (B E : nat) (g : tensor F) (i e : nat) :
  is_matrix B E g -> i < B -> e < E ->
  feq0 (entry g i e) = false -> fgt0 (entry g i e) = false ->
  list_sum (count_positive g) < length (stored_coords g).
Proof.
  intros Hm Hi He Hz Hp.
  assert (Hlen : forall e', e' < E ->
            length (order g e') = length (nonzero_samples g e')).
  { intros e' He'. apply Permutation_length, order_nonzero.
    now rewrite (is_matrix_ncols Hm). }
  rewrite (count_positive_spec Hm), (stored_grouped g).
  rewrite (is_matrix_ncols Hm), length_flat_map.
  apply list_sum_map_lt with (a := e).
  - intros e' He'. apply in_seq in He'. rewrite length_map, Hlen by lia.
    apply routed_within_nonzero.
  - apply in_seq. lia.
  - rewrite length_map, Hlen by exact He. unfold routed, nonzero_samples.
    apply filter_length_lt with (a := i).
    + intros j _ Hg. now rewrite (fgt0_neq0 _ Hg).
    + apply in_seq. destruct Hm as [_ [Hb _]]. lia.
    + exact Hp.
    + now rewrite Hz.
Qed.

End Signed.

Lemma split_raises {A} (t : tensor A) (sizes : list nat) :
  list_sum sizes <> size0 t -> split t sizes = Raise SplitSizes.
Proof.
  intros Hne. unfold split. apply Nat.eqb_neq in Hne. now rewrite Hne.
Qed.

(** X3: one entry of the gate matrix that is neither zero nor positive (a
    negative gate, a NaN) breaks the dispatcher: the constructor still
    returns, but [part_sizes] counts the positive entries only while the
    stored rows cover all non-zero entries, so [expert_to_gates] raises in
    [split], and so does [dispatch] on every input with a row per sample. *)
Theorem negative_gate_breaks_split {F A} `{ZeroTest F} {L : ZeroTestLaws F}
    {TS : TorchSort} {TSL : TorchSortLaws}
    (num_experts B E : nat) (g : tensor F) (i e : nat) :
  is_matrix B E g -> i < B -> e < E ->
  feq0 (entry g i e) = false -> fgt0 (entry g i e) = false ->
  exists d,
    SparseDispatcher_init num_experts g = Ok d /\
    eval expert_to_gates d = Raise SplitSizes /\
    forall x : tensor A,
      size0 x = B -> feat x <> [] -> eval (dispatch x) d = Raise SplitSizes.
Proof.
  intros Hm Hi He Hz Hp.
  pose proof (part_sizes_short Hm Hi He Hz Hp) as Hlt.
  eexists. split; [apply (init_closed_form num_experts (is_matrix_ndim Hm))|].
  split.
  - unfold expert_to_gates, eval, bind, attr, call. simpl.
    apply split_raises. unfold size0. simpl. rewrite length_map. lia.
  - intros x Hx Hf. unfold dispatch, eval, bind, attr, call. simpl.
    rewrite index_rows_ok.
    + simpl. rewrite (squeeze1_ok _ Hf). simpl.
      apply split_raises. unfold size0. simpl. rewrite !length_map. lia.
    + rewrite Forall_map. destruct Hm as [_ [Hb _]]. rewrite Hx, <- Hb.
      apply stored_sample_bound.
Qed.

Lemma signed_gates_is_matrix : is_matrix 2 2 signed_gates.
Proof. repeat split. repeat constructor. Qed.

Lemma negative_gate_breaks_split_witness :
  exists d,
    SparseDispatcher_init 2 signed_gates = Ok d /\
    eval expert_to_gates d = Raise SplitSizes /\
    forall x : tensor nat,
      size0 x = 2 -> feat x <> [] -> eval (dispatch x) d = Raise SplitSizes.
Proof.
  apply (@negative_gate_breaks_split Q nat _ _ _ _ 2 2 2 signed_gates 0 1).
  - exact signed_gates_is_matrix.
  - lia.
  - lia.
  - reflexivity.
  - reflexivity.
Defined.

Lemma init_raises_on_other_ranks {F} `{ZeroTest F} {TS : TorchSort}
    (num_experts : nat) (g : tensor F) :
  ndim g <> 2 -> SparseDispatcher_init num_experts g = Raise UnpackCount.
Proof.
  intros Hd. unfold SparseDispatcher_init, sort.
  apply Nat.eqb_neq in Hd. now rewrite Hd.
Qed.

(** X1: the constructor returns for every gate tensor of two dimensions,
    whatever its entries and its sizes, and for a tensor of any other rank it
    raises: [split(1, dim=1)] then yields a number of chunks other than the
    two that are unpacked. *)
Theorem init_returns_iff_two_dimensional {F} `{ZeroTest F}
    {TS : TorchSort} {TSL : TorchSortLaws}
    (num_experts : nat) (g : tensor F) :
  ((exists d, SparseDispatcher_init num_experts g = Ok d) <-> ndim g = 2) /\
  (SparseDispatcher_init num_experts g = Raise UnpackCount <-> ndim g <> 2).
Proof.
  destruct (Nat.eq_dec (ndim g) 2) as [Hd|Hd].
  - rewrite (init_closed_form num_experts Hd). split; split.
    + intros _. exact Hd.
    + intros _. eexists. reflexivity.
    + discriminate.
    + intros Hne. contradiction.
  - rewrite (init_raises_on_other_ranks num_experts Hd). split; split.
    + intros [d Hd']. discriminate.
    + intros Heq. contradiction.
    + intros _. exact Hd.
    + reflexivity.
Qed.

Lemma init_returns_iff_two_dimensional_witness :
  ((exists d, SparseDispatcher_init 2 scenario_gates = Ok d)
   <-> ndim scenario_gates = 2) /\
  (SparseDispatcher_init 2 scenario_gates = Raise UnpackCount
   <-> ndim scenario_gates <> 2).
Proof. exact (init_returns_iff_two_dimensional 2 scenario_gates). Defined.

Lemma init_ok_ndim {F} `{ZeroTest F} {TS : TorchSort}
    (num_experts : nat) (g : tensor F) (d : SparseDispatcher F) :
  SparseDispatcher_init num_experts g = Ok d -> ndim g = 2.
Proof.
  intros Hd. destruct (Nat.eq_dec (ndim g) 2) as [Hn|Hn]; [exact Hn|].
  rewrite (init_raises_on_other_ranks num_experts Hn) in Hd. discriminate.
Qed.

(** X2: what the constructor stores, for any matrix (negative entries
    included): the expert indices, the batch indices and the non-zero gates
    have one entry per non-zero entry of the gate matrix; entry [n] of the
    three names a sample [i] and an expert [e] within the matrix and the gate
    [G[i,e]], which is not zero; every non-zero entry of the matrix is listed;
    and the expert indices are in non-decreasing order. *)
Theorem init_lists_nonzero_entries {F} `{ZeroTest F}
    {TS : TorchSort} {TSL : TorchSortLaws}
    (num_experts : nat) (g : tensor F) (d : SparseDispatcher F) :
  SparseDispatcher_init num_experts g = Ok d ->
  size0 (_expert_index d) = length (_batch_index d) /\
  size0 (_nonzero_gates d) = length (_batch_index d) /\
  (forall n, n < length (_batch_index d) ->
     exists i e,
       nth_error (_batch_index d) n = Some i /\
       nth_error (rows (_expert_index d)) n = Some [e] /\
       nth_error (rows (_nonzero_gates d)) n = Some [entry g i e] /\
       i < size0 g /\ e < ncols g /\ feq0 (entry g i e) = false) /\
  (forall i e, i < size0 g -> e < ncols g -> feq0 (entry g i e) = false ->
     exists n,
       nth_error (_batch_index d) n = Some i /\
       nth_error (rows (_expert_index d)) n = Some [e]) /\
  StronglySorted le (column 0 (_expert_index d)).
Proof.
  intros Hd. pose proof (init_ok_ndim _ _ Hd) as Hnd.
  rewrite (init_closed_form num_experts Hnd) in Hd. injection Hd as <-.
  unfold size0. simpl. rewrite !length_map.
  split; [reflexivity|]. split; [reflexivity|]. split; [|split].
  - intros n Hn.
    destruct (nth_error (stored_coords g) n) as [r|] eqn:Hr;
      [|apply nth_error_None in Hr; lia].
    pose proof (nth_error_In _ _ Hr) as Hin.
    apply stored_In, nonzero_In in Hin. destruct Hin as [i [e [-> [Hi [He Hz]]]]].
    exists i, e. rewrite !nth_error_map, Hr. simpl. repeat split; assumption.
  - intros i e Hi He Hz.
    assert (Hin : In [i; e] (stored_coords g))
      by (apply stored_In, nonzero_In; exists i, e; repeat split; assumption).
    apply In_nth_error in Hin. destruct Hin as [n Hn].
    exists n. rewrite !nth_error_map, Hn. simpl. split; reflexivity.
  - unfold column. simpl. rewrite map_map. simpl. apply stored_keys_sorted.
Qed.

Lemma init_lists_nonzero_entries_witness :
  size0 (_expert_index (routing_state 2 scenario_gates 2))
  = length (_batch_index (routing_state 2 scenario_gates 2)) /\
  size0 (_nonzero_gates (routing_state 2 scenario_gates 2))
  = length (_batch_index (routing_state 2 scenario_gates 2)) /\
  (forall n, n < length (_batch_index (routing_state 2 scenario_gates 2)) ->
     exists i e,
       nth_error (_batch_index (routing_state 2 scenario_gates 2)) n = Some i /\
       nth_error (rows (_expert_index (routing_state 2 scenario_gates 2))) n
       = Some [e] /\
       nth_error (rows (_nonzero_gates (routing_state 2 scenario_gates 2))) n
       = Some [entry scenario_gates i e] /\
       i < size0 scenario_gates /\ e < ncols scenario_gates /\
       feq0 (entry scenario_gates i e) = false) /\
  (forall i e, i < size0 scenario_gates -> e < ncols scenario_gates ->
     feq0 (entry scenario_gates i e) = false ->
     exists n,
       nth_error (_batch_index (routing_state 2 scenario_gates 2)) n = Some i /\
       nth_error (rows (_expert_index (routing_state 2 scenario_gates 2))) n
       = Some [e]) /\
  StronglySorted le (column 0 (_expert_index (routing_state 2 scenario_gates 2))).
Proof.
  apply (@init_lists_nonzero_entries Q _ _ _ 2 scenario_gates). reflexivity.
Defined.

(** ** dispatch and the rows of its input *)

Section DispatchRows.
Context {F : Type} `{ZeroTest F} {L : ZeroTestLaws F}
        {TS : TorchSort} {TSL : TorchSortLaws}.

Lemma dispatch_covered {A} (num_experts E : nat) (g : tensor F) (x : tensor A) :
  (forall e i, e < E -> In i (order g e) -> i < size0 x) -> feat x <> [] ->
  eval (dispatch x) (routing_state num_experts g E)
  = Ok (map (fun e => mkTensor (squeezed_feat (feat x))
                        (map (fun i => nth i (rows x) []) (order g e)))
            (seq 0 E)).
Proof.
  intros Hc Hf. unfold dispatch, eval, bind, attr, call. simpl.
  rewrite index_rows_ok.
  - simpl. rewrite (squeeze1_ok _ Hf). simpl.
    rewrite map_flat_map.
    rewrite (map_ext (fun e => length (order g e))
                     (fun e => length (map (fun i => nth i (rows x) []) (order g e))))
      by (intros; now rewrite length_map).
    apply (split_groups (squeezed_feat (feat x))
             (fun e => map (fun i => nth i (rows x) []) (order g e))).
  - apply Forall_forall. intros i Hi. apply in_flat_map in Hi.
    destruct Hi as [e [He Hi]]. apply in_seq in He. apply (Hc e); [lia | exact Hi].
Qed.

Lemma dispatch_uncovered {A} (num_experts E : nat) (g : tensor F) (x : tensor A)
    (e i : nat) :
  e < E -> In i (order g e) -> size0 x <= i ->
  eval (dispatch x) (routing_state num_experts g E) = Raise IndexOutOfRange.
Proof.
  intros He Hi Hx. unfold dispatch, eval, bind, attr, call. simpl.
  unfold index_rows. rewrite rmap_nth_error_raise; [reflexivity|].
  apply Exists_exists. exists i. split; [|exact Hx].
  apply in_flat_map. exists e. split; [apply in_seq; lia | exact Hi].
Qed.

Lemma order_is_routed B E (g : tensor F) (e i : nat) :
  is_matrix B E g -> nonneg g -> e < E ->
  In i (order g e) <-> In i (routed g e).
Proof.
  intros Hm Hn He. rewrite (order_In i Hm Hn He), routed_In.
  destruct Hm as [_ [-> _]]. reflexivity.
Qed.

End DispatchRows.

(** X4: [dispatch] never compares the number of rows of its input with that
    of the gates; it reads the rows of the routed samples only.  When a
    routed sample has no row it raises [IndexOutOfRange]; otherwise it raises
    [DimOutOfRange] when the input has no second dimension, and else returns
    the chunks of the routed rows (for each expert the rows of its samples,
    each once, in the order of [_batch_index]), whether the input has fewer
    rows than the gate matrix or more. *)
Theorem dispatch_reads_routed_rows_only {F A} `{ZeroTest F} {L : ZeroTestLaws F}
    {TS : TorchSort} {TSL : TorchSortLaws}
    (num_experts B E : nat) (g : tensor F) (d : SparseDispatcher F) (x : tensor A) :
  is_matrix B E g -> nonneg g -> SparseDispatcher_init num_experts g = Ok d ->
  ((exists e i, e < E /\ In i (routed g e) /\ size0 x <= i) ->
   eval (dispatch x) d = Raise IndexOutOfRange) /\
  ((forall e i, e < E -> In i (routed g e) -> i < size0 x) ->
   (feat x = [] -> eval (dispatch x) d = Raise DimOutOfRange) /\
   (feat x <> [] ->
    exists chunks,
      eval (dispatch x) d = Ok chunks /\
      Forall (fun c => feat c = squeezed_feat (feat x)) chunks /\
      dispatch_partition B E g d x chunks)).
Proof.
  intros Hm Hn Hd. rewrite (init_routed num_experts Hm Hn) in Hd.
  injection Hd as <-. split.
  - intros [e [i [He [Hi Hx]]]].
    apply (order_is_routed i Hm Hn He) in Hi.
    eapply dispatch_uncovered; eassumption.
  - intros Hc.
    assert (Hc' : forall e i, e < E -> In i (order g e) -> i < size0 x).
    { intros e i He Hi. apply (Hc e i He). now apply (order_is_routed i Hm Hn He). }
    split; intros Hf.
    + now apply dispatch_no_feature.
    + eexists. split; [now apply dispatch_covered|]. split.
      * apply Forall_forall. intros c Hin. apply in_map_iff in Hin.
        now destruct Hin as [e [<- _]].
      * now apply routed_chunks_partition.
Qed.

Lemma scenario_routed_0 : routed scenario_gates 0 = [0; 2].
Proof. reflexivity. Qed.

Lemma scenario_routed_1 : routed scenario_gates 1 = [1; 2].
Proof. reflexivity. Qed.

Lemma dispatch_reads_routed_rows_only_witness :
  exists chunks,
    eval (dispatch short_ids) (routing_state 2 scenario_gates 2) = Ok chunks /\
    Forall (fun c => feat c = squeezed_feat (feat short_ids)) chunks /\
    dispatch_partition 4 2 scenario_gates (routing_state 2 scenario_gates 2)
      short_ids chunks.
Proof.
  apply (@dispatch_reads_routed_rows_only Q nat _ _ _ _ 2 4 2 scenario_gates).
  - exact scenario_is_matrix.
  - exact scenario_nonneg.
  - reflexivity.
  - intros [|[|e]] i He Hi; [| |lia].
    + rewrite scenario_routed_0 in Hi.
      destruct Hi as [<-|[<-|[]]]; unfold size0; simpl; lia.
    + rewrite scenario_routed_1 in Hi.
      destruct Hi as [<-|[<-|[]]]; unfold size0; simpl; lia.
  - discriminate.
Defined.

(** ** combine, with and without the gates *)

(** X7: [combine(expert_out, multiply_by_gates=False)]: for a non-negative
    [B x E] gate matrix with an expert and well-shaped outputs it returns a
    [B x J x K x H] tensor whose entry for sample [i] is the logarithm of the
    floored sum of [exp(out_e_i)] over the experts [e] of [i], where
    [out_e_i] is the row of the output of [e] at the position of [i] in the
    chunk [dispatch] hands to [e]; the gates only decide which rows are
    added. *)
Theorem combine_without_gates {F} `{ZeroTest F} `{FloatOps F} {L : ZeroTestLaws F}
    {TS : TorchSort} {TSL : TorchSortLaws}
    (num_experts B E J K Hh : nat) (g : tensor F) (outs : list (tensor F)) :
  is_matrix B E g -> nonneg g -> 0 < E -> expert_outputs_wf g E J K Hh outs ->
  exists d r,
    SparseDispatcher_init num_experts g = Ok d /\
    eval (combine outs false) d = Ok r /\
    feat r = [J; K; Hh] /\ size0 r = B /\
    (forall i p, i < B -> p < J * K * Hh ->
       nth p (nth i (rows r) []) fzero
       = flog (floor_zero
                 (fsum (map (fun e => fexp (out_entry outs e (slot g e i) p))
                            (experts_of g i))))) /\
    (* the row [slot g e i] of the chunk of [e] is the one of sample [i] *)
    (forall (x : tensor F) i e,
       size0 x = B -> feat x <> [] -> i < B -> In e (experts_of g i) ->
       exists chunks c,
         eval (dispatch x) d = Ok chunks /\
         nth_error chunks e = Some c /\
         nth_error (rows c) (slot g e i) = Some (nth i (rows x) [])).
Proof.
  intros Hm Hn HE Hwf.
  destruct (combine_shared false num_experts Hm Hn HE Hwf)
    as [r [Hr [Hf [Hs [_ Hent]]]]].
  exists (routing_state num_experts g E), r.
  split; [now apply init_routed with (B := B)|].
  split; [exact Hr|]. split; [exact Hf|]. split; [exact Hs|].
  split; [exact Hent|].
  intros x i e Hx Hfx Hi He.
  destruct (@experts_of_routed _ _ _ _ _ B E g i e Hm Hn Hi He) as [HeE Hin].
  assert (Hb : size0 g = B) by (destruct Hm as [_ [Hb _]]; exact Hb).
  do 2 eexists. split; [apply dispatch_routed; [congruence | exact Hfx]|].
  split.
  - exact (nth_error_map_seq
             (fun e => mkTensor (squeezed_feat (feat x))
                         (map (fun i => nth i (rows x) []) (order g e))) HeE).
  - simpl. rewrite nth_error_map, (slot_position g e i Hin). reflexivity.
Qed.

Lemma combine_without_gates_witness :
  exists d r,
    SparseDispatcher_init 2 real_gates = Ok d /\
    eval (combine real_outputs false) d = Ok r /\
    feat r = [1; 1; 1] /\ size0 r = 4 /\
    (forall i p, i < 4 -> p < 1 * 1 * 1 ->
       nth p (nth i (rows r) []) fzero
       = flog (floor_zero
                 (fsum (map (fun e => fexp (out_entry real_outputs e
                                              (slot real_gates e i) p))
                            (experts_of real_gates i))))) /\
    (forall (x : tensor R) i e,
       size0 x = 4 -> feat x <> [] -> i < 4 -> In e (experts_of real_gates i) ->
       exists chunks c,
         eval (dispatch x) d = Ok chunks /\
         nth_error chunks e = Some c /\
         nth_error (rows c) (slot real_gates e i) = Some (nth i (rows x) [])).
Proof.
  apply combine_without_gates with (E := 2).
  - exact real_gates_is_matrix.
  - exact real_gates_nonneg.
  - lia.
  - exact real_outputs_wf.
Defined.

(** X8: a sample that no expert receives: with or without the gates,
    every entry of its row of [combine] is [log(eps)], provided zero tests as
    zero. *)
Theorem unrouted_sample_gets_log_eps {F} `{ZeroTest F} `{FloatOps F}
    {L : ZeroTestLaws F} {TS : TorchSort} {TSL : TorchSortLaws}
    (num_experts B E J K Hh : nat) (g : tensor F) (outs : list (tensor F))
    (flag : bool) (i : nat) :
  is_matrix B E g -> nonneg g -> 0 < E -> expert_outputs_wf g E J K Hh outs ->
  feq0 (fzero : F) = true ->
  i < B -> (forall e, e < E -> fgt0 (entry g i e) = false) ->
  exists d r,
    SparseDispatcher_init num_experts g = Ok d /\
    eval (combine outs flag) d = Ok r /\
    forall p, p < J * K * Hh -> nth p (nth i (rows r) []) fzero = flog feps.
Proof.
  intros Hm Hn HE Hwf Hz Hi Hno.
  destruct (combine_shared flag num_experts Hm Hn HE Hwf)
    as [r [Hr [_ [_ [_ Hent]]]]].
  exists (routing_state num_experts g E), r.
  split; [now apply init_routed with (B := B)|].
  split; [exact Hr|].
  intros p Hp. rewrite (Hent i p Hi Hp).
  assert (He : experts_of g i = []).
  { unfold experts_of. rewrite (is_matrix_ncols Hm). apply filter_none.
    intros e He. apply in_seq in He. apply Hno. lia. }
  rewrite He. simpl. unfold fsum, floor_zero. simpl. now rewrite Hz.
Qed.

Lemma unrouted_sample_gets_log_eps_witness :
  exists d r,
    SparseDispatcher_init 2 real_gates = Ok d /\
    eval (combine real_outputs true) d = Ok r /\
    forall p, p < 1 * 1 * 1 -> nth p (nth 3 (rows r) []) fzero = flog feps.
Proof.
  apply unrouted_sample_gets_log_eps with (B := 4) (E := 2).
  - exact real_gates_is_matrix.
  - exact real_gates_nonneg.
  - lia.
  - exact real_outputs_wf.
  - apply Req0_true. reflexivity.
  - lia.
  - intros [|[|e]] He; [| |lia]; apply Rgt0_false; unfold entry; simpl; lra.
Defined.

Section RoundTrip.
Context {F : Type} `{ZeroTest F} `{FloatOps F} {L : ZeroTestLaws F}
        {TS : TorchSort} {TSL : TorchSortLaws}.

(** The chunks [dispatch] returns for [x], as expert outputs. *)
Lemma dispatched_outputs_wf (B E J K Hh : nat) (g : tensor F) (x : tensor F) :
  is_matrix B E g -> nonneg g ->
  size0 x = B -> feat x = [J; K; Hh] -> J <> 1 -> tensor_wf x ->
  expert_outputs_wf g E J K Hh
    (map (fun e => mkTensor (squeezed_feat (feat x))
                     (map (fun i => nth i (rows x) []) (order g e)))
         (seq 0 E)).
Proof.
  intros Hm Hn Hx Hf HJ Hw.
  assert (Hsq : squeezed_feat (feat x) = [J; K; Hh])
    by (rewrite Hf; destruct J as [|[|J]]; [reflexivity | congruence | reflexivity]).
  rewrite Hsq. split; [now rewrite length_map, length_seq|]. split.
  - apply Forall_forall. intros o Ho. apply in_map_iff in Ho.
    destruct Ho as [e [<- _]]. split; [reflexivity|].
    unfold tensor_wf. simpl. apply Forall_forall. intros r Hr.
    apply in_map_iff in Hr. destruct Hr as [i [<- Hi]].
    pose proof (order_bound g e) as Hbd. rewrite Forall_forall in Hbd.
    specialize (Hbd i Hi).
    destruct Hm as [_ [Hb _]].
    unfold tensor_wf in Hw. rewrite Forall_forall, Hf in Hw. apply Hw.
    apply nth_In. unfold size0 in Hx. lia.
  - intros e He. unfold out_of.
    rewrite (nth_map_seq (fun e => mkTensor [J; K; Hh]
                            (map (fun i => nth i (rows x) []) (order g e))))
      by exact He.
    unfold size0. simpl. rewrite length_map. now apply (order_length Hm Hn).
Qed.

Lemma dispatched_entry (E : nat) (g : tensor F) (x : tensor F) (e i p : nat) :
  e < E -> In i (order g e) ->
  out_entry (map (fun e => mkTensor (squeezed_feat (feat x))
                             (map (fun i => nth i (rows x) []) (order g e)))
                 (seq 0 E)) e (slot g e i) p
  = nth p (nth i (rows x) []) fzero.
Proof.
  intros He Hi. unfold out_entry, out_of.
  rewrite (nth_map_seq (fun e => mkTensor (squeezed_feat (feat x))
                          (map (fun i => nth i (rows x) []) (order g e))))
    by exact He.
  simpl.
  pose proof (slot_position g e i Hi) as Hs.
  assert (Hn : nth_error (map (fun i => nth i (rows x) []) (order g e)) (slot g e i)
               = Some (nth i (rows x) []))
    by (now rewrite nth_error_map, Hs).
  now rewrite (nth_error_nth _ _ _ Hn).
Qed.

End RoundTrip.

(** X5: [combine] applied to what [dispatch] returned.  For a non-negative
    [B x E] gate matrix with an expert and a well-shaped [B x J x K x H]
    input with [J <> 1], [combine(dispatch(x))] returns a tensor of the shape
    of [x]; its entry for sample [i] is the logarithm of the floored sum, over
    the experts of [i], of [exp(x_i) * G[i,e]] (of [exp(x_i)] when the gates
    are not multiplied in). *)
Theorem combine_of_dispatch {F} `{ZeroTest F} `{FloatOps F} {L : ZeroTestLaws F}
    {TS : TorchSort} {TSL : TorchSortLaws}
    (num_experts B E J K Hh : nat) (g : tensor F) (x : tensor F) (flag : bool) :
  is_matrix B E g -> nonneg g -> 0 < E ->
  size0 x = B -> feat x = [J; K; Hh] -> J <> 1 -> tensor_wf x ->
  exists d chunks r,
    SparseDispatcher_init num_experts g = Ok d /\
    eval (dispatch x) d = Ok chunks /\
    eval (combine chunks flag) d = Ok r /\
    feat r = feat x /\ size0 r = size0 x /\
    forall i p, i < B -> p < J * K * Hh ->
      nth p (nth i (rows r) []) fzero
      = flog (floor_zero
                (fsum (map (fun e => share flag g e i (nth p (nth i (rows x) []) fzero))
                           (experts_of g i)))).
Proof.
  intros Hm Hn HE Hx Hf HJ Hw.
  pose proof (dispatched_outputs_wf (E := E) Hm Hn Hx Hf HJ Hw) as Hwf.
  destruct (combine_shared flag num_experts Hm Hn HE Hwf)
    as [r [Hr [Hfr [Hs [_ Hent]]]]].
  exists (routing_state num_experts g E). eexists. exists r.
  split; [now apply init_routed with (B := B)|].
  split.
  - apply dispatch_routed; [|rewrite Hf; discriminate].
    destruct Hm as [_ [Hb _]]. congruence.
  - split; [exact Hr|]. split; [congruence|]. split; [congruence|].
    intros i p Hi Hp. rewrite (Hent i p Hi Hp). do 3 f_equal.
    apply map_ext_in. intros e He.
    destruct (@experts_of_routed _ _ _ _ _ B E g i e Hm Hn Hi He) as [HeE Hin].
    now rewrite dispatched_entry.
Qed.

Lemma real_input_wf : tensor_wf real_input.
Proof. repeat constructor. Qed.

Lemma combine_of_dispatch_witness :
  exists d chunks r,
    SparseDispatcher_init 2 real_gates = Ok d /\
    eval (dispatch real_input) d = Ok chunks /\
    eval (combine chunks true) d = Ok r /\
    feat r = feat real_input /\ size0 r = size0 real_input /\
    forall i p, i < 4 -> p < 2 * 1 * 1 ->
      nth p (nth i (rows r) []) fzero
      = flog (floor_zero
                (fsum (map (fun e => share true real_gates e i
                                       (nth p (nth i (rows real_input) []) fzero))
                           (experts_of real_gates i)))).
Proof.
  apply combine_of_dispatch with (E := 2).
  - exact real_gates_is_matrix.
  - exact real_gates_nonneg.
  - lia.
  - reflexivity.
  - reflexivity.
  - discriminate.
  - exact real_input_wf.
Defined.

(** X6: for a four-dimensional input whose dimension 1 has size 1,
    [dispatch] returns chunks of three dimensions ([squeeze(1)] drops the
    dimension) and [combine] raises on them: in [einsum] when the gates are
    multiplied in, in [size(3)] otherwise. *)
Theorem combine_of_thin_dispatch_raises {F} `{ZeroTest F} `{FloatOps F}
    {L : ZeroTestLaws F} {TS : TorchSort} {TSL : TorchSortLaws}
    (num_experts B E K Hh : nat) (g : tensor F) (x : tensor F) :
  is_matrix B E g -> nonneg g -> 0 < E -> size0 x = B -> feat x = [1; K; Hh] ->
  exists d chunks,
    SparseDispatcher_init num_experts g = Ok d /\
    eval (dispatch x) d = Ok chunks /\
    Forall (fun c => feat c = [K; Hh]) chunks /\
    eval (combine chunks true) d = Raise EinsumShapes /\
    eval (combine chunks false) d = Raise DimOutOfRange.
Proof.
  intros Hm Hn HE Hx Hf.
  exists (routing_state num_experts g E). eexists.
  split; [now apply init_routed with (B := B)|].
  split.
  - apply dispatch_routed; [|rewrite Hf; discriminate].
    destruct Hm as [_ [Hb _]]. congruence.
  - rewrite Hf. simpl squeezed_feat.
    set (chunks := map (fun e => mkTensor [K; Hh]
                                   (map (fun i => nth i (rows x) []) (order g e)))
                       (seq 0 E)).
    assert (Hall : Forall (fun c : tensor F => feat c = [K; Hh]) chunks).
    { apply Forall_forall. intros c Hc. apply in_map_iff in Hc.
      now destruct Hc as [e [<- _]]. }
    assert (Hne : chunks <> []).
    { unfold chunks. destruct E; [lia|]. simpl. discriminate. }
    pose proof (@cat_uniform _ [K; Hh] chunks Hne ltac:(discriminate) Hall) as Hcat.
    destruct (last_item_In Hne) as [o [Hlast Ho]].
    rewrite Forall_forall in Hall. pose proof (Hall _ Ho) as Hfo.
    split; [now apply Forall_forall|]. split.
    + unfold combine, combine_accumulate, eval, bind, call, attr, ret.
      rewrite Hcat. reflexivity.
    + unfold combine, combine_accumulate, eval, bind, call, attr, ret.
      rewrite Hcat, Hlast. unfold size, dims. rewrite Hfo. reflexivity.
Qed.

Lemma combine_of_thin_dispatch_raises_witness :
  exists d chunks,
    SparseDispatcher_init 2 real_gates = Ok d /\
    eval (dispatch thin_real_input) d = Ok chunks /\
    Forall (fun c => feat c = [1; 1]) chunks /\
    eval (combine chunks true) d = Raise EinsumShapes /\
    eval (combine chunks false) d = Raise DimOutOfRange.
Proof.
  apply combine_of_thin_dispatch_raises with (B := 4) (E := 2).
  - exact real_gates_is_matrix.
  - exact real_gates_nonneg.
  - lia.
  - reflexivity.
  - reflexivity.
Defined.

(** X9: [combine] never counts its outputs: it depends on them through
    their concatenation and the trailing sizes of the last one.  Two
    non-empty sequences of outputs with the same trailing sizes and the same
    rows in the same order give the same result (or the same exception),
    however the rows are grouped into tensors and however many tensors there
    are. *)
Theorem combine_ignores_grouping {F} `{ZeroTest F} `{FloatOps F}
    (d : SparseDispatcher F) (outs outs' : list (tensor F)) (J K Hh : nat)
    (flag : bool) :
  outs <> [] -> outs' <> [] ->
  Forall (fun o => feat o = [J; K; Hh]) outs ->
  Forall (fun o => feat o = [J; K; Hh]) outs' ->
  concat (map (@rows F) outs) = concat (map (@rows F) outs') ->
  eval (combine outs flag) d = eval (combine outs' flag) d.
Proof.
  intros Hne Hne' Hall Hall' Hrows.
  pose proof (@cat_uniform _ [J; K; Hh] outs Hne ltac:(discriminate) Hall) as Hcat.
  pose proof (@cat_uniform _ [J; K; Hh] outs' Hne' ltac:(discriminate) Hall') as Hcat'.
  destruct (last_item_In Hne) as [o [Hlast Ho]].
  destruct (last_item_In Hne') as [o' [Hlast' Ho']].
  rewrite Forall_forall in Hall, Hall'.
  destruct (size_feat o (Hall _ Ho)) as [H1 [H2 H3]].
  destruct (size_feat o' (Hall' _ Ho')) as [H1' [H2' H3']].
  unfold combine, combine_accumulate, eval, bind, call, attr, ret.
  rewrite Hcat, Hcat', Hlast, Hlast', <- Hrows.
  destruct flag.
  - destruct (einsum_ijkh_ik _ _); [|reflexivity].
    now rewrite H1, H2, H3, H1', H2', H3'.
  - now rewrite H1, H2, H3, H1', H2', H3'.
Qed.

Lemma combine_ignores_grouping_witness :
  eval (combine real_outputs true) (routing_state 2 real_gates 2)
  = eval (combine merged_outputs true) (routing_state 2 real_gates 2).
Proof.
  apply combine_ignores_grouping with (J := 1) (K := 1) (Hh := 1).
  - discriminate.
  - discriminate.
  - repeat constructor.
  - repeat constructor.
  - reflexivity.
Defined.

(** X10: [num_experts] is stored and never read: two dispatchers built
    from the same gates with different values of [num_experts] differ in that
    attribute only, and [dispatch], [expert_to_gates] and [combine] return the
    same from both; a value that is not the number of columns goes
    unnoticed. *)
Theorem num_experts_is_never_read {F} `{ZeroTest F} `{FloatOps F}
    {TS : TorchSort} {TSL : TorchSortLaws}
    (n n' : nat) (g : tensor F) (d d' : SparseDispatcher F) :
  SparseDispatcher_init n g = Ok d -> SparseDispatcher_init n' g = Ok d' ->
  _num_experts d = n /\ _num_experts d' = n' /\
  (forall A (x : tensor A), eval (dispatch x) d = eval (dispatch x) d') /\
  eval expert_to_gates d = eval expert_to_gates d' /\
  (forall outs flag, eval (combine outs flag) d = eval (combine outs flag) d').
Proof.
  intros Hd Hd'.
  pose proof (init_ok_ndim _ _ Hd) as Hnd.
  rewrite (init_closed_form n Hnd) in Hd. injection Hd as <-.
  rewrite (init_closed_form n' Hnd) in Hd'. injection Hd' as <-.
  split; [reflexivity|]. split; [reflexivity|].
  split; [|split].
  - intros A x. unfold dispatch, eval, bind, attr, call. simpl.
    destruct (index_rows x _) as [s|ex]; [|reflexivity]. simpl.
    destruct (squeeze1 s); reflexivity.
  - reflexivity.
  - intros outs flag.
    unfold combine, combine_accumulate, eval, bind, attr, call, ret. simpl.
    destruct (cat outs) as [c|ex]; [|reflexivity].
    destruct flag; simpl.
    + destruct (einsum_ijkh_ik _ _) as [s|ex]; [|reflexivity].
      destruct (last_item outs) as [o|ex]; [|reflexivity].
      destruct (size o 1); [|reflexivity]. destruct (size o 2); [|reflexivity].
      destruct (size o 3); [|reflexivity]. simpl.
      destruct (index_add _ _ _); reflexivity.
    + destruct (last_item outs) as [o|ex]; [|reflexivity].
      destruct (size o 1); [|reflexivity]. destruct (size o 2); [|reflexivity].
      destruct (size o 3); [|reflexivity]. simpl.
      destruct (index_add _ _ _); reflexivity.
Qed.

Lemma num_experts_is_never_read_witness :
  _num_experts (routing_state 2 real_gates 2) = 2 /\
  _num_experts (routing_state 7 real_gates 2) = 7 /\
  (forall A (x : tensor A),
     eval (dispatch x) (routing_state 2 real_gates 2)
     = eval (dispatch x) (routing_state 7 real_gates 2)) /\
  eval expert_to_gates (routing_state 2 real_gates 2)
  = eval expert_to_gates (routing_state 7 real_gates 2) /\
  (forall outs flag,
     eval (combine outs flag) (routing_state 2 real_gates 2)
     = eval (combine outs flag) (routing_state 7 real_gates 2)).
Proof.
  apply (@num_experts_is_never_read R _ _ _ _ 2 7 real_gates).
  - apply init_routed with (B := 4);
      [exact real_gates_is_matrix | exact real_gates_nonneg].
  - apply init_routed with (B := 4);
      [exact real_gates_is_matrix | exact real_gates_nonneg].
Defined.

(** ** moving_avg and Intra_Patch_Attention *)

Lemma list_sum_const {X} (n : nat) (l : list X) :
  list_sum (map (fun _ => n) l) = length l * n.
Proof. induction l as [|a l IH]; simpl; [reflexivity | now rewrite IH]. Qed.

(** A table listed row by row: [m] rows of [n] entries. *)
Lemma length_grid {X} (f : nat -> nat -> X) (m n : nat) :
  length (flat_map (fun i => map (f i) (seq 0 n)) (seq 0 m)) = m * n.
Proof.
  rewrite length_flat_map.
  rewrite (map_ext _ (fun _ => n)) by (intros; now rewrite length_map, length_seq).
  now rewrite list_sum_const, length_seq.
Qed.

Lemma nth_grid {X} (f : nat -> nat -> X) (m n a b : nat) (d : X) :
  a < m -> b < n ->
  nth (a * n + b) (flat_map (fun i => map (f i) (seq 0 n)) (seq 0 m)) d = f a b.
Proof.
  induction m as [|m IH]; intros Ha Hb; [lia|].
  rewrite seq_S, flat_map_app. simpl. rewrite app_nil_r.
  destruct (Nat.eq_dec a m) as [->|Hne].
  - rewrite app_nth2 by (rewrite length_grid; lia).
    rewrite length_grid.
    replace (m * n + b - m * n) with b by lia.
    rewrite (nth_indep _ d (f m 0)) by (now rewrite length_map, length_seq).
    rewrite (map_nth (f m)), seq_nth by exact Hb. reflexivity.
  - rewrite app_nth1 by (rewrite length_grid; nia).
    apply IH; lia.
Qed.

(** [n] copies of a block of [D] entries, one after the other. *)
Lemma length_copies {X} (blk : list X) (n : nat) :
  length (concat (repeat blk n)) = n * length blk.
Proof. induction n as [|n IH]; simpl; [reflexivity|]. now rewrite length_app, IH. Qed.

Lemma nth_copies {X} (blk : list X) (n u d : nat) (dflt : X) :
  u < n -> d < length blk ->
  nth (u * length blk + d) (concat (repeat blk n)) dflt = nth d blk dflt.
Proof.
  revert u. induction n as [|n IH]; intros u Hu Hd; [lia|]. simpl.
  destruct u as [|u].
  - simpl. now rewrite app_nth1.
  - rewrite app_nth2 by (simpl; lia).
    replace (S u * length blk + d - length blk) with (u * length blk + d)
      by (simpl; lia).
    apply IH; lia.
Qed.

Lemma map_rows_seq {X Y} (f : list X -> Y) (rs : list (list X)) :
  map (fun b => f (nth b rs [])) (seq 0 (length rs)) = map f rs.
Proof.
  rewrite <- (map_map (fun b => nth b rs []) f). f_equal. apply map_nth_seq.
Qed.

Lemma clip_first (L : nat) : clip L 0 = 0.
Proof. reflexivity. Qed.

Lemma clip_one (L : nat) : clip L 1 = Nat.min 1 L.
Proof. reflexivity. Qed.

Lemma clip_last (L : nat) : clip L (-1) = L - 1.
Proof. unfold clip. change (-1 <? 0)%Z with true. cbv iota. lia. Qed.

Lemma copies_nonneg (k : Z) :
  (0 < k)%Z ->
  (0 <= (k - 1) / 2)%Z /\ (0 <= k - 1 - (k - 1) / 2)%Z /\
  front_copies k + end_copies k = Z.to_nat k - 1.
Proof.
  intros Hk. unfold front_copies, end_copies.
  assert (H1 : (0 <= (k - 1) / 2)%Z) by (apply Z.div_pos; lia).
  assert (H2 : ((k - 1) / 2 <= k - 1)%Z)
    by (apply Z.div_le_upper_bound; lia).
  repeat split; lia.
Qed.

Lemma nth_map_row {X Y} (f : list X -> list Y) (rs : list (list X)) (b : nat) :
  b < length rs -> nth b (map f rs) [] = f (nth b rs []).
Proof.
  intros Hb. rewrite (nth_indep _ [] (f [])) by (now rewrite length_map).
  apply map_nth.
Qed.

(** [torch.cat] along dimension 1 of three tensors of three dimensions. *)
Lemma cat1_three {A} (a b c : tensor A) (n1 n2 n3 D : nat) :
  feat a = [n1; D] -> feat b = [n2; D] -> feat c = [n3; D] ->
  size0 b = size0 a -> size0 c = size0 a ->
  cat1 [a; b; c]
  = Returns (mkTensor [n1 + n2 + n3; D]
               (map (fun i => nth i (rows a) [] ++ nth i (rows b) []
                              ++ nth i (rows c) [])
                    (seq 0 (size0 a)))).
Proof.
  intros Ha Hb Hc Sb Sc. unfold cat1. cbn [filter].
  unfold is_empty_1d. rewrite Ha, Hb, Hc. cbn [negb].
  rewrite Ha. cbn [forallb]. rewrite Hb, Hc, Sb, Sc, Nat.eqb_refl.
  destruct (list_eq_dec Nat.eq_dec [D] [D]) as [_|Hne]; [|congruence].
  cbn [andb map hd list_sum]. rewrite Ha, Hb, Hc. cbn [hd concat].
  do 2 f_equal.
  - simpl. f_equal. lia.
  - apply map_ext. intros i. now rewrite app_nil_r.
Qed.

Section MovingAverage.
Context {F : Type} `{ZeroTest F} `{FloatOps F} `{MeanOps F}.

Lemma forward_pads (k : Z) (x : tensor F) (L D : nat) :
  feat x = [L; D] -> (0 < k)%Z ->
  (first <-- slice1 x 0 (Some 1%Z) ;;
   front <-- repeat1 first (k - 1 - (k - 1) / 2) ;;
   last <-- slice1 x (-1) None ;;
   end_ <-- repeat1 last ((k - 1) / 2) ;;
   cat1 [front; x; end_])
  = Returns
      (mkTensor [front_copies k * Nat.min 1 L + L + end_copies k * Nat.min 1 L; D]
         (map (padded_row k L D) (rows x))).
Proof.
  intros Hf Hk. destruct (copies_nonneg Hk) as [Hend [Hfront _]].
  unfold slice1. rewrite Hf. cbn [obind].
  rewrite clip_first, clip_one, clip_last.
  unfold repeat1. cbn [feat rows].
  apply Z.ltb_ge in Hend, Hfront. rewrite Hend, Hfront. cbn [obind].
  replace (L - (L - 1)) with (Nat.min 1 L) by lia.
  rewrite Nat.sub_0_r. simpl prod. rewrite !Nat.mul_1_r.
  erewrite cat1_three; [| reflexivity | exact Hf | reflexivity | |];
    [| unfold size0; cbn [rows]; now rewrite !length_map ..].
  unfold size0. cbn [rows]. rewrite !length_map. do 2 f_equal.
  rewrite <- (map_rows_seq (padded_row k L D)).
  apply map_ext_in. intros b Hb. apply in_seq in Hb.
  rewrite !map_map.
  rewrite (nth_map_row (fun r => concat (repeat (firstn (Nat.min 1 L * D) (skipn (0 * D) r))
                                            (Z.to_nat (k - 1 - (k - 1) / 2)))))
    by lia.
  rewrite (nth_map_row (fun r => concat (repeat (firstn (Nat.min 1 L * D) (skipn ((L - 1) * D) r))
                                            (Z.to_nat ((k - 1) / 2)))))
    by lia.
  reflexivity.
Qed.


(** The padded series on its way through the pooling. *)
Lemma forward_pools (self : moving_avg) (x : tensor F) (L D : nat) :
  feat x = [L; D] -> (0 < kernel_size self)%Z ->
  moving_avg_forward self x
  = (y <-- AvgPool1d_forward (avg self)
             (mkTensor [D; front_copies (kernel_size self) * Nat.min 1 L + L
                           + end_copies (kernel_size self) * Nat.min 1 L]
                (map (fun r =>
                        flat_map (fun d =>
                          map (fun l => nth (l * D + d)
                                          (padded_row (kernel_size self) L D r) fzero)
                              (seq 0 (front_copies (kernel_size self) * Nat.min 1 L + L
                                      + end_copies (kernel_size self) * Nat.min 1 L)))
                          (seq 0 D))
                     (rows x))) ;;
     permute_021 y).
Proof.
  intros Hf Hk. unfold moving_avg_forward.
  pose proof (forward_pads x Hf Hk) as Hp.
  destruct (slice1 x 0 (Some 1%Z)) as [first|e]; [|discriminate Hp].
  cbn [obind] in Hp |- *.
  destruct (repeat1 first _) as [front|e]; [|discriminate Hp].
  cbn [obind] in Hp |- *.
  destruct (slice1 x (-1) None) as [last|e]; [|discriminate Hp].
  cbn [obind] in Hp |- *.
  destruct (repeat1 last _) as [end_|e]; [|discriminate Hp].
  cbn [obind] in Hp |- *.
  rewrite Hp. cbn [obind]. unfold permute_021 at 1. cbn [feat rows obind].
  now rewrite map_map.
Qed.


(** An entry of the padded row: the step it repeats. *)
Lemma padded_row_nth (k : Z) (L D : nat) (r : list F) (u c : nat) :
  (0 < k)%Z -> 0 < L -> length r = L * D ->
  u < front_copies k + L + end_copies k -> c < D ->
  nth (u * D + c) (padded_row k L D r) fzero
  = nth (padded_step k L u * D + c) r fzero.
Proof.
  intros Hk HL Hr Hu Hc. unfold padded_row, padded_step.
  replace (Nat.min 1 L) with 1 by lia. rewrite Nat.mul_1_l.
  assert (Hb1 : length (firstn D r) = D) by (rewrite length_firstn; nia).
  assert (Hb2 : length (firstn D (skipn ((L - 1) * D) r)) = D)
    by (rewrite length_firstn, length_skipn; nia).
  destruct (Nat.lt_ge_cases u (front_copies k)) as [Hlt|Hge].
  - rewrite app_nth1 by (rewrite length_copies, Hb1; nia).
    rewrite <- Hb1 at 1. rewrite nth_copies by (rewrite ?Hb1; lia).
    rewrite nth_firstn. destruct (Nat.ltb_spec c D); [|lia].
    replace (Nat.min (u - front_copies k) (L - 1)) with 0 by lia.
    reflexivity.
  - rewrite app_nth2 by (rewrite length_copies, Hb1; nia).
    rewrite length_copies, Hb1.
    replace (u * D + c - front_copies k * D) with ((u - front_copies k) * D + c)
      by nia.
    destruct (Nat.lt_ge_cases (u - front_copies k) L) as [Hin|Hout].
    + rewrite app_nth1 by (rewrite Hr; nia).
      replace (Nat.min (u - front_copies k) (L - 1)) with (u - front_copies k) by lia.
      reflexivity.
    + rewrite app_nth2 by (rewrite Hr; nia).
      rewrite Hr.
      replace ((u - front_copies k) * D + c - L * D)
        with ((u - front_copies k - L) * D + c) by nia.
      rewrite <- Hb2 at 1. rewrite nth_copies by (rewrite ?Hb2; lia).
      rewrite nth_firstn. destruct (Nat.ltb_spec c D); [|lia].
      rewrite nth_skipn.
      replace (Nat.min (u - front_copies k) (L - 1)) with (L - 1) by lia.
      reflexivity.
Qed.

(** What [forward] returns for a series with a step and a channel. *)
Lemma forward_closed_form (k s : Z) (x : tensor F) (L D : nat) :
  feat x = [L; D] -> (0 < k)%Z -> (0 < s)%Z -> 0 < L -> 0 < D ->
  moving_avg_forward (moving_avg_init k s) x
  = Returns (mkTensor [(L - 1) / Z.to_nat s + 1; D]
               (map (averaged_row k s L D) (rows x))).
Proof.
  intros Hf Hk Hs HL HD. unfold averaged_row.
  set (Lin := front_copies k + L + end_copies k).
  set (Lout := (L - 1) / Z.to_nat s + 1).
  rewrite (forward_pools (moving_avg_init k s) x Hf Hk).
  cbn [kernel_size avg moving_avg_init].
  destruct (copies_nonneg Hk) as [_ [_ Hsum]].
  replace (front_copies k * Nat.min 1 L + L + end_copies k * Nat.min 1 L)
    with Lin by (unfold Lin; replace (Nat.min 1 L) with 1 by lia; lia).
  unfold AvgPool1d_forward. cbn [pool_kernel_size pool_stride feat rows].
  assert (Hk' : (k <=? 0)%Z = false) by (apply Z.leb_gt; lia).
  assert (Hs' : (s <=? 0)%Z = false) by (apply Z.leb_gt; lia).
  rewrite Hk', Hs'. cbn [orb].
  assert (HD' : (D =? 0) = false) by (apply Nat.eqb_neq; lia).
  assert (HL' : (Lin <? Z.to_nat k) = false) by (apply Nat.ltb_ge; unfold Lin; lia).
  rewrite HD', HL'. cbn [orb obind].
  unfold permute_021. cbn [feat rows].
  replace ((Lin - Z.to_nat k) / Z.to_nat s + 1) with Lout
    by (unfold Lout, Lin; do 2 f_equal; lia).
  now rewrite !map_map.
Qed.


(** The window of output step [t] lies within the padded series. *)
Lemma window_fits (Lin K S t j : nat) :
  0 < S -> K <= Lin -> t < (Lin - K) / S + 1 -> j < K -> t * S + j < Lin.
Proof.
  intros HS HK Ht Hj.
  assert (Hle : t <= (Lin - K) / S) by lia.
  pose proof (Nat.Div0.mul_div_le (Lin - K) S) as Hd.
  nia.
Qed.

(** An entry of the averaged row: the mean of a window of the padded row. *)
Lemma averaged_row_entry (k s : Z) (L D : nat) (r : list F) (t c : nat) :
  (0 < k)%Z -> (0 < s)%Z -> 0 < L -> length r = L * D ->
  t < (L - 1) / Z.to_nat s + 1 -> c < D ->
  nth (t * D + c) (averaged_row k s L D r) fzero
  = fdivn (fsum (map (fun j => nth (padded_step k L (t * Z.to_nat s + j) * D + c)
                                   r fzero)
                     (seq 0 (Z.to_nat k))))
          (Z.to_nat k).
Proof.
  intros Hk Hs HL Hr Ht Hc. unfold averaged_row.
  set (Lin := front_copies k + L + end_copies k).
  set (Lout := (L - 1) / Z.to_nat s + 1) in *.
  destruct (copies_nonneg Hk) as [_ [_ Hsum]].
  assert (HLout : (Lin - Z.to_nat k) / Z.to_nat s + 1 = Lout)
    by (unfold Lout, Lin; do 2 f_equal; lia).
  rewrite (nth_grid (fun t c => nth (c * Lout + t) _ fzero)) by assumption.
  unfold pool_row. rewrite HLout.
  rewrite (nth_grid (fun c t => window_mean _ (c * Lin + t * Z.to_nat s) (Z.to_nat k)))
    by assumption.
  unfold window_mean. do 2 f_equal. apply map_ext_in. intros j Hj.
  apply in_seq in Hj.
  assert (Hfit : t * Z.to_nat s + j < Lin)
    by (apply window_fits with (K := Z.to_nat k); try lia; now rewrite HLout).
  rewrite <- Nat.add_assoc.
  rewrite (nth_grid (fun d l => nth (l * D + d) _ fzero)) by assumption.
  apply padded_row_nth; assumption.
Qed.

(** A series that [forward] accepts has a step. *)
Lemma forward_returns_step (k s : Z) (x : tensor F) (L D : nat) (y : tensor F) :
  feat x = [L; D] -> (0 < k)%Z -> (0 < s)%Z ->
  moving_avg_forward (moving_avg_init k s) x = Returns y -> 0 < L.
Proof.
  intros Hf Hk Hs Hy. destruct L; [|lia].
  rewrite (forward_pools (moving_avg_init k s) x Hf Hk) in Hy.
  cbn [kernel_size avg moving_avg_init] in Hy.
  unfold AvgPool1d_forward in Hy. cbn [pool_kernel_size pool_stride feat rows] in Hy.
  assert (Hk' : (k <=? 0)%Z = false) by (apply Z.leb_gt; lia).
  assert (Hs' : (s <=? 0)%Z = false) by (apply Z.leb_gt; lia).
  rewrite Hk', Hs' in Hy. cbn [orb Nat.min] in Hy.
  rewrite !Nat.mul_0_r in Hy. cbn [Nat.add] in Hy.
  assert (Hlt : (0 <? Z.to_nat k) = true) by (apply Nat.ltb_lt; lia).
  rewrite Hlt, orb_true_r in Hy. discriminate.
Qed.

Lemma wf_row_length (x : tensor F) (L D b : nat) :
  feat x = [L; D] -> tensor_wf x -> b < size0 x ->
  length (nth b (rows x) []) = L * D.
Proof.
  intros Hf Hw Hb. unfold tensor_wf in Hw. rewrite Forall_forall, Hf in Hw.
  rewrite (Hw (nth b (rows x) [])) by (apply nth_In; exact Hb). simpl. lia.
Qed.

Lemma map_const {X Y} (v : Y) (l : list X) (f : X -> Y) :
  (forall a, In a l -> f a = v) -> map f l = repeat v (length l).
Proof.
  induction l as [|a l IH]; intros Hf; simpl; [reflexivity|].
  rewrite (Hf a (or_introl eq_refl)), IH; [reflexivity|].
  intros b Hb. apply Hf. now right.
Qed.

End MovingAverage.

(** X11: [moving_avg.forward] on a series of [L >= 1] steps and [D >= 1]
    channels, with a positive kernel size and stride, returns a well-shaped
    tensor with the samples and channels of the input and
    [(L - 1) // stride + 1] steps, whatever the kernel size; with stride 1
    (as [series_decomp_multi] builds it) the shape of the input. *)
Theorem moving_avg_keeps_shape {F} `{ZeroTest F} `{FloatOps F} `{MeanOps F}
    (k s : Z) (x : tensor F) (L D : nat) :
  feat x = [L; D] -> (0 < k)%Z -> (0 < s)%Z -> 0 < L -> 0 < D ->
  exists y,
    moving_avg_forward (moving_avg_init k s) x = Returns y /\
    size0 y = size0 x /\
    feat y = [(L - 1) / Z.to_nat s + 1; D] /\
    tensor_wf y /\
    (s = 1%Z -> feat y = feat x).
Proof.
  intros Hf Hk Hs HL HD.
  rewrite (forward_closed_form x Hf Hk Hs HL HD). eexists.
  split; [reflexivity|]. split; [|split; [reflexivity|split]].
  - unfold size0. cbn [rows]. now rewrite length_map.
  - unfold tensor_wf. cbn [rows feat]. apply Forall_forall. intros r Hr.
    apply in_map_iff in Hr. destruct Hr as [r0 [<- _]].
    unfold averaged_row. rewrite length_grid. simpl. lia.
  - intros ->. cbn [feat]. rewrite Hf. change (Z.to_nat 1) with 1.
    rewrite Nat.div_1_r. f_equal. lia.
Qed.

(** X12: an entry of the moving average: step [t] of channel [c] is the
    mean (the sum from zero, divided by the kernel size) of the [kernel_size]
    entries of channel [c] at the steps [t * stride + j - front] for
    [j = 0, 1, ...], a step before the first one counting as the first and a
    step after the last one as the last, where [front] is
    [kernel_size - 1 - (kernel_size - 1) // 2]. *)
Theorem moving_avg_window {F} `{ZeroTest F} `{FloatOps F} `{MeanOps F}
    (k s : Z) (x : tensor F) (L D : nat) (y : tensor F)
    (b t c : nat) :
  feat x = [L; D] -> tensor_wf x -> (0 < k)%Z -> (0 < s)%Z ->
  moving_avg_forward (moving_avg_init k s) x = Returns y ->
  b < size0 x -> t < (L - 1) / Z.to_nat s + 1 -> c < D ->
  nth (t * D + c) (nth b (rows y) []) fzero
  = fdivn (fsum (map (fun j => nth (padded_step k L (t * Z.to_nat s + j) * D + c)
                                   (nth b (rows x) []) fzero)
                     (seq 0 (Z.to_nat k))))
          (Z.to_nat k).
Proof.
  intros Hf Hw Hk Hs Hy Hb Ht Hc.
  pose proof (forward_returns_step x Hf Hk Hs Hy) as HL.
  assert (HD : 0 < D) by lia.
  rewrite (forward_closed_form x Hf Hk Hs HL HD) in Hy. injection Hy as <-.
  cbn [rows]. rewrite (nth_map_row _ (rows x)) by exact Hb.
  apply averaged_row_entry; try assumption.
  now apply wf_row_length.
Qed.


(** X13: the padding repeats the ends of the series and brings in no value
    of its own: where a channel of a sample is constant, every step of its
    moving average is the mean of [kernel_size] copies of that constant (over
    the real numbers, the constant), at the ends of the series as in the
    middle. *)
Theorem moving_avg_of_constant_channel {F} `{ZeroTest F} `{FloatOps F} `{MeanOps F}
    (k s : Z) (x : tensor F) (L D : nat)
    (y : tensor F) (b c : nat) (v : F) :
  feat x = [L; D] -> tensor_wf x -> (0 < k)%Z -> (0 < s)%Z ->
  moving_avg_forward (moving_avg_init k s) x = Returns y ->
  b < size0 x -> c < D ->
  (forall l, l < L -> nth (l * D + c) (nth b (rows x) []) fzero = v) ->
  forall t, t < (L - 1) / Z.to_nat s + 1 ->
    nth (t * D + c) (nth b (rows y) []) fzero
    = fdivn (fsum (repeat v (Z.to_nat k))) (Z.to_nat k).
Proof.
  intros Hf Hw Hk Hs Hy Hb Hc Hv t Ht.
  pose proof (forward_returns_step x Hf Hk Hs Hy) as HL.
  assert (HD : 0 < D) by lia.
  rewrite (forward_closed_form x Hf Hk Hs HL HD) in Hy. injection Hy as <-.
  cbn [rows]. rewrite (nth_map_row _ (rows x)) by exact Hb.
  rewrite averaged_row_entry; try assumption; [|now apply wf_row_length].
  f_equal. f_equal.
  transitivity (repeat v (length (seq 0 (Z.to_nat k))));
    [|now rewrite length_seq].
  apply map_const. intros j _. apply Hv. unfold padded_step. lia.
Qed.

(** X14: [moving_avg.forward] returns exactly when its input has three
    dimensions with at least one step and one channel and the kernel size and
    the stride are positive.  On an input of fewer than three dimensions it
    raises an IndexError; in every other case (more dimensions, no step, no
    channel, a kernel size or stride of zero or less) a RuntimeError. *)
Theorem moving_avg_returns_iff {F} `{ZeroTest F} `{FloatOps F} `{MeanOps F}
    (k s : Z) (x : tensor F) :
  ((exists y, moving_avg_forward (moving_avg_init k s) x = Returns y)
   <-> (exists L D, feat x = [L; D] /\ 0 < L /\ 0 < D) /\ (0 < k)%Z /\ (0 < s)%Z) /\
  (moving_avg_forward (moving_avg_init k s) x = Raises IndexError
   <-> length (feat x) < 2) /\
  (moving_avg_forward (moving_avg_init k s) x = Raises RuntimeError
   <-> 2 < length (feat x) \/
       exists L D, feat x = [L; D] /\
                   (L = 0 \/ D = 0 \/ (k <= 0)%Z \/ (s <= 0)%Z)).
Proof.
  destruct (feat x) as [|L [|D [|E rest]]] eqn:Hf.
  - (* one dimension *)
    assert (Hr : moving_avg_forward (moving_avg_init k s) x = Raises IndexError)
      by (unfold moving_avg_forward, slice1; now rewrite Hf).
    rewrite Hr. simpl. split; [|split].
    + split; [intros [y Hy]; discriminate|].
      intros [[L [D [Hx _]]] _]. discriminate.
    + split; [lia | reflexivity].
    + split; [discriminate|]. intros [Hl|[L [D [Hx _]]]]; [lia | discriminate].
  - (* two dimensions *)
    assert (Hr : moving_avg_forward (moving_avg_init k s) x = Raises IndexError)
      by (unfold moving_avg_forward, slice1; now rewrite Hf).
    rewrite Hr. simpl. split; [|split].
    + split; [intros [y Hy]; discriminate|].
      intros [[L' [D [Hx _]]] _]. discriminate.
    + split; [lia | reflexivity].
    + split; [discriminate|]. intros [Hl|[L' [D [Hx _]]]]; [lia | discriminate].
  - (* three dimensions *)
    assert (Hcases : ((0 < L /\ 0 < D) /\ (0 < k)%Z /\ (0 < s)%Z) \/
                     (L = 0 \/ D = 0 \/ (k <= 0)%Z \/ (s <= 0)%Z)) by lia.
    destruct Hcases as [[[HL HD] [Hk Hs]]|Hbad].
    + rewrite (forward_closed_form x Hf Hk Hs HL HD). simpl.
      split; [|split].
      * split; [|intros _; eexists; reflexivity].
        intros _. split; [|split; assumption]. exists L, D. repeat split; assumption.
      * split; [discriminate | lia].
      * split; [discriminate|].
        intros [Hl|[L' [D' [Hx Hb]]]]; [lia|]. injection Hx as <- <-. lia.
    + assert (Hr : moving_avg_forward (moving_avg_init k s) x = Raises RuntimeError).
      { destruct (Z.lt_ge_cases 0 k) as [Hk|Hk].
        - rewrite (forward_pools (moving_avg_init k s) x Hf Hk).
          cbn [kernel_size avg moving_avg_init].
          unfold AvgPool1d_forward. cbn [pool_kernel_size pool_stride feat rows].
          assert (Hk' : (k <=? 0)%Z = false) by (apply Z.leb_gt; lia).
          rewrite Hk'. cbn [orb].
          destruct (Z.leb_spec s 0) as [Hs|Hs]; [reflexivity|].
          destruct (Nat.eqb_spec D 0) as [HD|HD]; [reflexivity|].
          assert (HL : L = 0) by lia. subst L. cbn [Nat.min].
          rewrite !Nat.mul_0_r. cbn [Nat.add orb].
          assert (Hlt : (0 <? Z.to_nat k) = true) by (apply Nat.ltb_lt; lia).
          now rewrite Hlt.
        - unfold moving_avg_forward, slice1. rewrite Hf. cbn [obind].
          cbn [kernel_size moving_avg_init].
          assert (Hhalf : ((k - 1) / 2 < 0)%Z)
            by (apply Z.div_lt_upper_bound; lia).
          unfold repeat1. cbn [feat].
          destruct (k - 1 - (k - 1) / 2 <? 0)%Z; [reflexivity|]. cbn [obind].
          apply Z.ltb_lt in Hhalf. now rewrite Hhalf. }
      rewrite Hr. simpl. split; [|split].
      * split; [intros [y Hy]; discriminate|].
        intros [[L' [D' [Hx [HL HD]]]] [Hk Hs]]. injection Hx as <- <-. lia.
      * split; [discriminate | lia].
      * split; [|reflexivity]. intros _. right. exists L, D. split; [reflexivity|].
        exact Hbad.
  - (* more than three dimensions *)
    assert (Hr : moving_avg_forward (moving_avg_init k s) x = Raises RuntimeError).
    { unfold moving_avg_forward, slice1. rewrite Hf. cbn [obind].
      unfold repeat1. cbn [feat].
      destruct (_ <? 0)%Z; reflexivity. }
    rewrite Hr. simpl. split; [|split].
    + split; [intros [y Hy]; discriminate|].
      intros [[L' [D' [Hx _]]] _]. discriminate.
    + split; [discriminate | lia].
    + split; [|reflexivity]. intros _. left. lia.
Qed.


(** X15: [Intra_Patch_Attention.__init__] returns exactly when [d_model]
    is even (zero and negative even numbers included) and raises its
    exception otherwise; the module it returns has two heads whose sizes add
    up to [d_model]. *)
Theorem intra_patch_attention_needs_even_width (d_model : Z) (factorized : bool) :
  ((exists a, Intra_Patch_Attention_init d_model factorized = Returns a)
   <-> (d_model mod 2 = 0)%Z) /\
  (Intra_Patch_Attention_init d_model factorized = Raises HeadsError
   <-> (d_model mod 2 = 1)%Z) /\
  (forall a, Intra_Patch_Attention_init d_model factorized = Returns a ->
     head a = 2%Z /\ (head a * head_size a = d_model)%Z /\
     custom_linear a = CustomLinear_init factorized).
Proof.
  unfold Intra_Patch_Attention_init.
  pose proof (Z.mod_pos_bound d_model 2 ltac:(lia)) as Hb.
  pose proof (Z.div_mod d_model 2 ltac:(lia)) as Hd.
  destruct (Z.eqb_spec (d_model mod 2) 0) as [Hm|Hm]; cbn [negb].
  - split; [|split].
    + split; [intros _; exact Hm | intros _; eexists; reflexivity].
    + split; [discriminate | lia].
    + intros a Ha. injection Ha as <-. cbn [head head_size custom_linear].
      repeat split. lia.
  - split; [|split].
    + split; [intros [a Ha]; discriminate | intros Hz; contradiction].
    + split; [lia | reflexivity].
    + intros a Ha. discriminate.
Qed.

Lemma moving_avg_keeps_shape_witness :
  exists y,
    moving_avg_forward (moving_avg_init 3 1) real_series = Returns y /\
    size0 y = size0 real_series /\
    feat y = [(3 - 1) / Z.to_nat 1 + 1; 1] /\
    tensor_wf y /\
    (1%Z = 1%Z -> feat y = feat real_series).
Proof.
  apply (@moving_avg_keeps_shape R _ _ _ 3%Z 1%Z real_series 3 1).
  - reflexivity.
  - lia.
  - lia.
  - lia.
  - lia.
Defined.

Lemma real_series_wf : tensor_wf real_series.
Proof. repeat constructor. Qed.

Lemma moving_avg_window_witness :
  exists y,
    moving_avg_forward (moving_avg_init 3 1) real_series = Returns y /\
    nth (1 * 1 + 0) (nth 0 (rows y) []) fzero
    = fdivn (fsum (map (fun j => nth (padded_step 3 3 (1 * Z.to_nat 1 + j) * 1 + 0)
                                     (nth 0 (rows real_series) []) fzero)
                       (seq 0 (Z.to_nat 3))))
            (Z.to_nat 3).
Proof.
  eexists. split.
  - apply (@forward_closed_form R _ _ _ 3%Z 1%Z real_series 3 1);
      [reflexivity | lia | lia | lia | lia].
  - apply (@moving_avg_window R _ _ _ 3%Z 1%Z real_series 3 1).
    + reflexivity.
    + exact real_series_wf.
    + lia.
    + lia.
    + apply (@forward_closed_form R _ _ _ 3%Z 1%Z real_series 3 1);
        [reflexivity | lia | lia | lia | lia].
    + unfold size0. simpl. lia.
    + simpl. lia.
    + lia.
Defined.

(** Over the real numbers the mean of copies of a number is the number. *)
Lemma sum_of_copies_R (v a : R) (n : nat) :
  fold_left Rplus (repeat v n) a = (a + INR n * v)%R.
Proof.
  revert a. induction n as [|n IH]; intros a.
  - simpl. lra.
  - cbn [repeat fold_left]. rewrite IH, S_INR. lra.
Qed.

Lemma mean_of_copies_R (v : R) (n : nat) :
  0 < n -> fdivn (fsum (repeat v n)) n = v.
Proof.
  intros Hn. unfold fsum. simpl. rewrite sum_of_copies_R.
  assert (Hne : INR n <> 0%R) by (apply not_0_INR; lia).
  field. exact Hne.
Qed.

Lemma level_series_wf : tensor_wf level_series.
Proof. repeat constructor. Qed.

Lemma moving_avg_of_constant_channel_witness :
  exists y,
    moving_avg_forward (moving_avg_init 3 1) level_series = Returns y /\
    forall t, t < (3 - 1) / Z.to_nat 1 + 1 ->
      nth (t * 2 + 0) (nth 0 (rows y) []) fzero = 2%R.
Proof.
  eexists. split.
  - apply (@forward_closed_form R _ _ _ 3%Z 1%Z level_series 3 2);
      [reflexivity | lia | lia | lia | lia].
  - intros t Ht.
    rewrite (@moving_avg_of_constant_channel R _ _ _ 3%Z 1%Z level_series 3 2
               _ 0 0 2%R).
    + apply mean_of_copies_R. simpl. lia.
    + reflexivity.
    + exact level_series_wf.
    + lia.
    + lia.
    + apply (@forward_closed_form R _ _ _ 3%Z 1%Z level_series 3 2);
        [reflexivity | lia | lia | lia | lia].
    + unfold size0. simpl. lia.
    + lia.
    + intros [|[|[|l]]] Hl; try reflexivity. lia.
    + exact Ht.
Defined.
